(** * go-canvas: the concurrent pagination engine

    A shallow embedding of the pagination code of package [canvas]
    (link-header parser, paginated fetch engine, [collect]) and of the
    typed stream adapters of [course.go] ([onlyFiles], [onlyFolders]).

    Sequential code is embedded as functions.  Goroutines and unbuffered
    channels are embedded as an executable transition function
    [step : action -> state -> option (event * state)]: the [action] is the
    scheduler's choice, [None] means that the chosen goroutine is blocked,
    and the [event] is what an observer of the channels sees.  A run is the
    fold of [step] over a schedule. *)

From Stdlib Require Import ZArith Lia Ascii String List.
From stdpp Require Import base option list gmap strings pretty.

Local Open Scope Z_scope.

(** ** Errors and results *)

(** The two failures of [strconv.ParseInt]. *)
Inductive NumError := ErrSyntax | ErrRange.

(** Go [error] values that can flow through the engine.  [ErrExternal] is
    any error made outside this package: by the transport or by a page
    decode function. *)
Inductive error :=
| ErrUrlParse (msg : string)        (* returned by url.Parse *)
| ErrPageNum (cause : NumError)     (* "could not parse page num: %w" *)
| ErrLastPage                       (* "could not find last page" *)
| ErrExternal (msg : string).

Inductive result (A : Type) :=
| Ok (a : A)
| Err (e : error).
Arguments Ok {A} a.
Arguments Err {A} e.

(** The errors of the link-header parser. *)
Definition is_parse_error (e : error) : bool :=
  match e with
  | ErrUrlParse _ | ErrPageNum _ => true
  | _ => false
  end.

(** ** strconv.ParseInt(s, 10, 32) *)

Definition digit_val (c : ascii) : option Z :=
  let n := nat_of_ascii c in
  if ((48 <=? n) && (n <=? 57))%nat then Some (Z.of_nat (n - 48)) else None.

(** The loop of [ParseUint(s, 10, 32)]: a character that is not a digit
    is a syntax error, and a value above [2^32 - 1] is a range error as
    soon as it is reached, whatever follows. *)
Fixpoint ParseUint_loop (s : string) (n : Z) : NumError + Z :=
  match s with
  | EmptyString => inr n
  | String c s' =>
      match digit_val c with
      | None => inl ErrSyntax
      | Some d =>
          let n1 := 10 * n + d in
          if n1 >? 2 ^ 32 - 1 then inl ErrRange else ParseUint_loop s' n1
      end
  end.

Definition ParseUint (s : string) : NumError + Z :=
  match s with
  | EmptyString => inl ErrSyntax
  | _ => ParseUint_loop s 0
  end.

Definition is_plus (c : ascii) : bool := (nat_of_ascii c =? 43)%nat.
Definition is_minus (c : ascii) : bool := (nat_of_ascii c =? 45)%nat.

(** [ParseInt(s, 10, 32)]: an optional sign, then [ParseUint]; the value
    must fit an int32. *)
Definition ParseInt (s : string) : NumError + Z :=
  match s with
  | EmptyString => inl ErrSyntax
  | String c s' =>
      let neg := is_minus c in
      let body := if is_plus c || is_minus c then s' else s in
      match ParseUint body with
      | inl e => inl e
      | inr un =>
          let cutoff := 2 ^ 31 in
          if negb neg && (cutoff <=? un) then inl ErrRange
          else if neg && (cutoff <? un) then inl ErrRange
          else inr (if neg then - un else un)
      end
  end.

(** What the specification calls a numeric page parameter: an optional
    sign followed by one or more decimal digits. *)
Fixpoint all_digits (s : string) : bool :=
  match s with
  | EmptyString => true
  | String c s' => bool_decide (is_Some (digit_val c)) && all_digits s'
  end.

Definition is_numeric (s : string) : bool :=
  match s with
  | EmptyString => false
  | String c s' =>
      let body := if is_plus c || is_minus c then s' else s in
      match body with
      | EmptyString => false
      | _ => all_digits body
      end
  end.

(** ** The regular expression of [resourceRegex]

    An angle-bracketed group, then [; rel=] and a quoted group; both
    groups are lazy and [.] does not match a line feed. *)

Definition dquote : ascii := "034"%char.
Definition newline : ascii := "010"%char.

(** The literal between the two groups: [>; rel=] and a double quote. *)
Definition rel_sep : string :=
  String ">" (String ";" (String " " (String "r" (String "e" (String "l"
    (String "=" (String dquote EmptyString))))))).

Fixpoint strip_prefix (pat s : string) : option string :=
  match pat with
  | EmptyString => Some s
  | String p pat' =>
      match s with
      | EmptyString => None
      | String c s' =>
          if bool_decide (p = c) then strip_prefix pat' s' else None
      end
  end.

(** [lazy_until pat s]: the lazy group [(.*?)] followed by the literal
    [pat].  The group takes the shortest run of characters other than a
    line feed after which [pat] occurs. *)
Fixpoint lazy_until (pat s : string) : option (string * string) :=
  match strip_prefix pat s with
  | Some rest => Some (EmptyString, rest)
  | None =>
      match s with
      | EmptyString => None
      | String c s' =>
          if bool_decide (c = newline) then None
          else
            match lazy_until pat s' with
            | Some (g, rest) => Some (String c g, rest)
            | None => None
            end
      end
  end.

(** One match attempt at a position holding [<]: the two groups and the
    text left after the match. *)
Definition match_here (s' : string) : option (string * string * string) :=
  match lazy_until rel_sep s' with
  | Some (url, r1) =>
      match lazy_until (String dquote EmptyString) r1 with
      | Some (rel, r2) => Some (url, rel, r2)
      | None => None
      end
  | None => None
  end.

(** Successive leftmost matches, none overlapping; each is the pair
    (part[1], part[2]) of the source. *)
Fixpoint find_all (fuel : nat) (s : string) : list (string * string) :=
  match fuel with
  | O => []
  | S fuel' =>
      match s with
      | EmptyString => []
      | String c s' =>
          if bool_decide (c = "<"%char) then
            match match_here s' with
            | Some (url, rel, r2) => (url, rel) :: find_all fuel' r2
            | None => find_all fuel' s'
            end
          else find_all fuel' s'
      end
  end.

Definition FindAllStringSubmatch (s : string) : list (string * string) :=
  find_all (String.length s) s.

(** ** HTTP responses *)

Definition Header := list (string * string).

Fixpoint Header_Get (h : Header) (key : string) : string :=
  match h with
  | [] => EmptyString
  | (k, v) :: h' => if bool_decide (k = key) then v else Header_Get h' key
  end.

Record Response := { resp_Header : Header; resp_Body : string }.

(** [params] is the package's [map[string][]string] of query parameters. *)
Definition params := list (string * list string).

(** ** External collaborators

    The Go library functions and the package functions that the three
    source files call but do not define.  [url_Query_Get u key] is
    [u.Query().Get(key)]; [get d path q] is the package's [get(p.do, path,
    q)]; [Join q q'] is [q.Join(q')]; [object] is the type of the non-nil
    values that travel as [interface{}]. *)
Class World := {
  URL : Type;
  url_Parse : string -> string + URL;     (* [inl msg]: the parse error *)
  url_Query_Get : URL -> string -> string;
  doer : Type;
  get : doer -> string -> params -> result Response;
  Join : params -> params -> params;
  object : Type;
}.

(** [strconv.FormatInt(n, 10)] and [fmt.Sprintf("%d", n)]. *)
Definition FormatInt (n : Z) : string := pretty n.

Section Definitions.
Context `{World}.

(** An [interface{}] value: [None] is the nil interface. *)
Definition obj : Type := option object.

(** ** Link-header parser *)

Record link := { url : URL; page : Z }.

(** [links] maps a relation name to a [*link]; [None] is the nil pointer. *)
Record linkedResource := { links : gmap string (option link) }.

Definition newlink (urlstr : string) : result link :=
  match url_Parse urlstr with
  | inl msg => Err (ErrUrlParse msg)
  | inr u =>
      match ParseInt (url_Query_Get u "page") with
      | inl c => Err (ErrPageNum c)
      | inr page => Ok {| url := u; page := page |}
      end
  end.

(** The loop of [newLinkedResource].  The assignment
    [resource.links[part[2]], err = newlink(part[1])] stores the pointer
    before [err] is tested, so a failing link leaves a nil entry. *)
Fixpoint link_loop (parts : list (string * string))
    (m : gmap string (option link)) : linkedResource * option error :=
  match parts with
  | [] => ({| links := m |}, None)
  | (urlstr, rel) :: parts' =>
      match newlink urlstr with
      | Ok l => link_loop parts' (<[rel := Some l]> m)
      | Err e => ({| links := <[rel := None]> m |}, Some e)
      end
  end.

Definition newLinkedResource (header : Header) : linkedResource * option error :=
  link_loop (FindAllStringSubmatch (Header_Get header "Link")) ∅.

(** ** The paginated list *)

Definition pageInitFunction : Type := Z -> string -> result (list obj).

(** The fields of [paginated] that never change after construction.  The
    fields [n], [objects], [errs] and [wg] are part of [state] below. *)
Record paginated := {
  path : string;
  query : params;
  do : doer;
  perpage : Z;
  init : pageInitFunction;
}.

Definition newPaginatedList (d : doer) (path : string)
    (init : pageInitFunction) (parameters : params) : paginated :=
  {| path := path; query := parameters; do := d; perpage := 10; init := init |}.

Definition page_query (p : paginated) (page : Z) : params :=
  Join [("page"%string, [FormatInt page]);
        ("per_page"%string, [FormatInt (perpage p)])] (query p).

Inductive first_result :=
| FirstOk (n : Z) (resp : Response)
| FirstErr (e : error)
| FirstPanic.                        (* nil pointer dereference *)

(** [firstReq], threading the log of the pages asked of the transport. *)
Definition firstReq (p : paginated) (calls : list Z) : list Z * first_result :=
  let calls := calls ++ [1] in
  match get (do p) (path p) (page_query p 1) with
  | Err e => (calls, FirstErr e)
  | Ok resp =>
      let '(pages, err) := newLinkedResource (resp_Header resp) in
      match err with
      | Some e => (calls, FirstErr e)
      | None =>
          match links pages !! "last"%string with
          | None => (calls, FirstErr ErrLastPage)
          | Some None => (calls, FirstPanic)
          | Some (Some lastpage) => (calls, FirstOk (page lastpage) resp)
          end
      end
  end.

(** ** Goroutines *)

(** A page job.  Job [i] of the list fetches page [i + 1]. *)
Inductive job :=
| JFirst (body : string)             (* page 1, holding the first response *)
| JPage (page : Z)                   (* a later page, GET not yet issued *)
| JSendErr (e : error)               (* blocked in [p.errs <- err] *)
| JSendObjs (o : obj) (l : list obj) (* blocked in [p.objects <- o]; [l] follows *)
| JReturn                            (* body left; deferred [wg.Done()] pending *)
| JDone.

(** The goroutine of [wg.Wait(); close(p.objects); close(p.errs)]. *)
Inductive closer_pc := CNotLaunched | CWait | CCloseObjects | CCloseErrs | CDone.

(** The goroutine that called [p.channel()]. *)
Inductive caller_pc :=
| InChannelSendErr (e : error)       (* blocked in [p.errs <- err], line 74 *)
| InChannelCloseErrs
| InChannelCloseObjects
| Consuming.                         (* [channel] has returned *)

(** What a consumer does on its own, between two receives. *)
Inductive local_event :=
| LHandle (e : error)                (* [handle(err, quit)] has returned *)
| LQuit                              (* [<-quit] *)
| LForward (o : object)              (* [results <- f] taken by the reader *)
| LCloseResults
| LPanic.

(** The code that runs after [p.channel()] returns.  [recv_errs c] is
    [Some k] when [c] is ready to receive on [p.errs], [k v] being its
    state after it received [v]; likewise for [p.objects]. *)
Record consumer (C : Type) := {
  recv_errs : C -> option (option error -> C);
  recv_objects : C -> option (obj -> C);
  local : C -> option (local_event * C);
}.
Arguments recv_errs {C} _ _.
Arguments recv_objects {C} _ _.
Arguments local {C} _ _.

Record state (C : Type) := {
  caller : caller_pc;
  jobs : list job;
  wg : Z;
  closer : closer_pc;
  objects_closed : bool;
  errs_closed : bool;
  cons : C;
  calls : list Z;                    (* pages asked of the transport *)
  panicked : bool;
}.
Arguments caller {C} _.
Arguments jobs {C} _.
Arguments wg {C} _.
Arguments closer {C} _.
Arguments objects_closed {C} _.
Arguments errs_closed {C} _.
Arguments cons {C} _.
Arguments calls {C} _.
Arguments panicked {C} _.

(** ** The transition function *)

Section Step.
Context {C : Type} (K : consumer C) (p : paginated).

Definition set_jobs (js : list job) (s : state C) : state C :=
  {| caller := caller s; jobs := js; wg := wg s; closer := closer s;
     objects_closed := objects_closed s; errs_closed := errs_closed s;
     cons := cons s; calls := calls s; panicked := panicked s |}.

Definition set_cons (c : C) (s : state C) : state C :=
  {| caller := caller s; jobs := jobs s; wg := wg s; closer := closer s;
     objects_closed := objects_closed s; errs_closed := errs_closed s;
     cons := c; calls := calls s; panicked := panicked s |}.

Definition set_caller (c : caller_pc) (s : state C) : state C :=
  {| caller := c; jobs := jobs s; wg := wg s; closer := closer s;
     objects_closed := objects_closed s; errs_closed := errs_closed s;
     cons := cons s; calls := calls s; panicked := panicked s |}.

Definition set_closer (c : closer_pc) (s : state C) : state C :=
  {| caller := caller s; jobs := jobs s; wg := wg s; closer := c;
     objects_closed := objects_closed s; errs_closed := errs_closed s;
     cons := cons s; calls := calls s; panicked := panicked s |}.

Definition set_wg (n : Z) (s : state C) : state C :=
  {| caller := caller s; jobs := jobs s; wg := n; closer := closer s;
     objects_closed := objects_closed s; errs_closed := errs_closed s;
     cons := cons s; calls := calls s; panicked := panicked s |}.

Definition set_calls (l : list Z) (s : state C) : state C :=
  {| caller := caller s; jobs := jobs s; wg := wg s; closer := closer s;
     objects_closed := objects_closed s; errs_closed := errs_closed s;
     cons := cons s; calls := l; panicked := panicked s |}.

Definition close_objects (s : state C) : state C :=
  {| caller := caller s; jobs := jobs s; wg := wg s; closer := closer s;
     objects_closed := true; errs_closed := errs_closed s;
     cons := cons s; calls := calls s; panicked := panicked s |}.

Definition close_errs (s : state C) : state C :=
  {| caller := caller s; jobs := jobs s; wg := wg s; closer := closer s;
     objects_closed := objects_closed s; errs_closed := true;
     cons := cons s; calls := calls s; panicked := panicked s |}.

(** A panic that nothing recovers ends the program. *)
Definition panic (s : state C) : state C :=
  {| caller := caller s; jobs := jobs s; wg := wg s; closer := closer s;
     objects_closed := objects_closed s; errs_closed := errs_closed s;
     cons := cons s; calls := calls s; panicked := true |}.

(** The state of a job when its range loop has [l] left to send. *)
Definition after_loop (l : list obj) : job :=
  match l with
  | [] => JReturn
  | o :: l' => JSendObjs o l'
  end.

(** [list, err := p.init(page, body)] and the test of [err]. *)
Definition decode (page : Z) (body : string) : job :=
  match init p page body with
  | Err e => JSendErr e
  | Ok l => after_loop l
  end.

(** The part of a job that needs no other goroutine: the pages it asks of
    the transport, and where it then stands. *)
Definition run_job (j : job) : option (list Z * job) :=
  match j with
  | JFirst body => Some ([], decode 1 body)
  | JPage page =>
      Some ([page],
            match get (do p) (path p) (page_query p page) with
            | Err e => JSendErr e
            | Ok resp => decode page (resp_Body resp)
            end)
  | _ => None
  end.

(** What a job that stands at a send will still put on the two channels. *)
Definition sending (j : job) : list obj * list error :=
  match j with
  | JSendErr e => ([], [e])
  | JSendObjs o l => (o :: l, [])
  | _ => ([], [])
  end.

(** The same for any job, a job that has not started being run first. *)
Definition will_send (j : job) : list obj * list error :=
  match run_job j with
  | Some (_, j') => sending j'
  | None => sending j
  end.

Definition is_JDone (j : job) : bool :=
  match j with JDone => true | _ => false end.

(** The number of jobs that have not called [wg.Done()] yet. *)
Definition live (js : list job) : nat :=
  length (filter (fun j => is_JDone j = false) js).

(** Everything the jobs still hold for each channel. *)
Definition all_pending_objects (js : list job) : list obj :=
  concat ((fun j => (will_send j).1) <$> js).

Definition all_pending_errors (js : list job) : list error :=
  concat ((fun j => (will_send j).2) <$> js).

Definition pending_objects (s : state C) (i : nat) : list obj :=
  match jobs s !! i with
  | Some j => (will_send j).1
  | None => []
  end.

Definition pending_errors (s : state C) (i : nat) : list error :=
  match jobs s !! i with
  | Some j => (will_send j).2
  | None => []
  end.

Definition has_finished (s : state C) (i : nat) : bool :=
  match jobs s !! i with
  | Some j => is_JDone j
  | None => false
  end.

(** What the closing goroutine may assume at each of its statements, and
    what [wg] counts. *)
Definition engine_inv (s : state C) : Prop :=
  caller s = Consuming /\
  wg s = Z.of_nat (live (jobs s)) /\
  match closer s with
  | CNotLaunched => False
  | CWait => objects_closed s = false /\ errs_closed s = false
  | CCloseObjects => wg s = 0 /\ objects_closed s = false /\ errs_closed s = false
  | CCloseErrs => wg s = 0 /\ objects_closed s = true /\ errs_closed s = false
  | CDone => wg s = 0 /\ objects_closed s = true /\ errs_closed s = true
  end.

(** The number of steps a job or the closing goroutine has left. *)
Definition job_measure (j : job) : nat :=
  match j with
  | JFirst _ | JPage _ => S (S (length (will_send j).1 + length (will_send j).2))
  | JSendErr _ => 2
  | JSendObjs _ l => S (S (length l))
  | JReturn => 1
  | JDone => 0
  end.

Definition closer_measure (c : closer_pc) : nat :=
  match c with
  | CWait => 3
  | CCloseObjects => 2
  | CCloseErrs => 1
  | CDone | CNotLaunched => 0
  end.

Definition measure (s : state C) : nat :=
  sum_list (job_measure <$> jobs s) + closer_measure (closer s).

(** The receivers of the two channels.  Only the code after [p.channel()]
    receives, and it does not run before [channel] has returned. *)
Definition errs_receiver (s : state C) : option (option error -> C) :=
  match caller s with
  | Consuming => recv_errs K (cons s)
  | _ => None
  end.

Definition objects_receiver (s : state C) : option (obj -> C) :=
  match caller s with
  | Consuming => recv_objects K (cons s)
  | _ => None
  end.

Inductive action :=
| ACaller                 (* next statement of [channel] after a failed first request *)
| AStart (i : nat)        (* job [i] runs up to its first send *)
| ASendErr (i : nat)      (* [p.errs <- err] of job [i] meets a receive *)
| ASendObj (i : nat)      (* [p.objects <- o] of job [i] meets a receive *)
| ADone (i : nat)         (* deferred [wg.Done()] of job [i] *)
| ACloser                 (* next statement of the closing goroutine *)
| ARecvErrsClosed         (* the consumer receives from the closed [p.errs] *)
| ARecvObjectsClosed      (* the consumer receives from the closed [p.objects] *)
| ALocal.                 (* the consumer's own next step *)

Inductive event :=
| EvFirstErr (e : error)
| EvStart (i : nat)
| EvErr (i : nat) (e : error)
| EvObj (i : nat) (o : obj)
| EvDone (i : nat)
| EvWait
| EvCloseObjects
| EvCloseErrs
| EvErrsClosed
| EvObjectsClosed
| EvLocal (l : local_event)
| EvPanic.

Definition step (a : action) (s : state C) : option (event * state C) :=
  if panicked s then None else
  match a with
  | ACaller =>
      match caller s with
      | InChannelSendErr e =>
          if errs_closed s then Some (EvPanic, panic s)
          else
            match errs_receiver s with
            | Some k =>
                Some (EvFirstErr e, set_caller InChannelCloseErrs (set_cons (k (Some e)) s))
            | None => None
            end
      | InChannelCloseErrs =>
          if errs_closed s then Some (EvPanic, panic s)
          else Some (EvCloseErrs, set_caller InChannelCloseObjects (close_errs s))
      | InChannelCloseObjects =>
          if objects_closed s then Some (EvPanic, panic s)
          else Some (EvCloseObjects, set_caller Consuming (close_objects s))
      | Consuming => None
      end
  | AStart i =>
      match jobs s !! i with
      | Some j =>
          match run_job j with
          | Some (cs, j') =>
              Some (EvStart i, set_calls (calls s ++ cs) (set_jobs (<[i := j']> (jobs s)) s))
          | None => None
          end
      | None => None
      end
  | ASendErr i =>
      match jobs s !! i with
      | Some (JSendErr e) =>
          if errs_closed s then Some (EvPanic, panic s)
          else
            match errs_receiver s with
            | Some k =>
                Some (EvErr i e, set_cons (k (Some e)) (set_jobs (<[i := JReturn]> (jobs s)) s))
            | None => None
            end
      | _ => None
      end
  | ASendObj i =>
      match jobs s !! i with
      | Some (JSendObjs o l) =>
          if objects_closed s then Some (EvPanic, panic s)
          else
            match objects_receiver s with
            | Some k =>
                Some (EvObj i o, set_cons (k o) (set_jobs (<[i := after_loop l]> (jobs s)) s))
            | None => None
            end
      | _ => None
      end
  | ADone i =>
      match jobs s !! i with
      | Some JReturn =>
          if wg s - 1 <? 0 then Some (EvPanic, panic s)
          else Some (EvDone i, set_wg (wg s - 1) (set_jobs (<[i := JDone]> (jobs s)) s))
      | _ => None
      end
  | ACloser =>
      match closer s with
      | CWait =>
          if wg s =? 0 then Some (EvWait, set_closer CCloseObjects s) else None
      | CCloseObjects =>
          if objects_closed s then Some (EvPanic, panic s)
          else Some (EvCloseObjects, set_closer CCloseErrs (close_objects s))
      | CCloseErrs =>
          if errs_closed s then Some (EvPanic, panic s)
          else Some (EvCloseErrs, set_closer CDone (close_errs s))
      | _ => None
      end
  | ARecvErrsClosed =>
      if errs_closed s then
        match errs_receiver s with
        | Some k => Some (EvErrsClosed, set_cons (k None) s)
        | None => None
        end
      else None
  | ARecvObjectsClosed =>
      if objects_closed s then
        match objects_receiver s with
        | Some k => Some (EvObjectsClosed, set_cons (k None) s)
        | None => None
        end
      else None
  | ALocal =>
      match caller s with
      | Consuming =>
          match local K (cons s) with
          | Some (LPanic, c') => Some (EvPanic, panic (set_cons c' s))
          | Some (l, c') => Some (EvLocal l, set_cons c' s)
          | None => None
          end
      | _ => None
      end
  end.

(** A run: the schedule names the goroutine that moves at each step. *)
Fixpoint exec (sched : list action) (s : state C) : option (list event * state C) :=
  match sched with
  | [] => Some ([], s)
  | a :: sched' =>
      match step a s with
      | Some (ev, s1) =>
          match exec sched' s1 with
          | Some (evs, s2) => Some (ev :: evs, s2)
          | None => None
          end
      | None => None
      end
  end.

(** The pages of the [for page := 2; page <= n; page++] loop. *)
Definition later_pages (n : Z) : list Z := seqZ 2 (n - 1).

(** [p.channel()] up to the point where the calling goroutine blocks or
    returns: the first request, [p.wg.Add(n)] and the [go] statements.
    [c0] is the code that follows the call. *)
Definition channel (c0 : C) : state C :=
  let '(cs, r) := firstReq p [] in
  let s0 := {| caller := Consuming; jobs := []; wg := 0; closer := CNotLaunched;
               objects_closed := false; errs_closed := false;
               cons := c0; calls := cs; panicked := false |} in
  match r with
  | FirstPanic => panic s0
  | FirstErr e => set_caller (InChannelSendErr e) s0
  | FirstOk n resp =>
      if n <? 0 then panic s0
      else
        set_closer CWait
          (set_wg n
             (set_jobs (JFirst (resp_Body resp) :: (JPage <$> later_pages n)) s0))
  end.

End Step.

(** ** collect *)

(** [collect] after its call of [p.channel()]: inside the [for]/[select]
    loop with the slice built so far, or returned.  A [None] in [Returned]
    is Go's nil.  The capacity [p.n*p.perpage] of the slice cannot be
    observed and is left out. *)
Inductive collect_pc :=
| Collecting (collection : list obj)
| Returned (objs : option (list obj)) (err : option error).

Definition collect_loop : consumer collect_pc :=
  {| recv_errs c :=
       match c with
       | Collecting collection =>
           Some (fun err =>
                   match err with
                   | Some e => Returned None (Some e)
                   | None => Collecting collection
                   end)
       | Returned _ _ => None
       end;
     recv_objects c :=
       match c with
       | Collecting collection =>
           Some (fun o =>
                   match o with
                   | None => Returned (Some collection) None
                   | Some _ => Collecting (collection ++ [o])
                   end)
       | Returned _ _ => None
       end;
     local c := None |}.

(** [p.collect()] under a schedule: the trace and the state reached, or
    [None] when the schedule asks a blocked goroutine to move. *)
Definition collect (p : paginated) (sched : list action)
    : option (list event * state collect_pc) :=
  exec collect_loop p sched (channel p (Collecting [])).

(** ** A caller that keeps receiving *)

(** What [files] and [folders] expect of their caller: the range loop
    over [p.objects] and a loop over [p.errs], together taking every value
    until the channels are closed. *)
Definition reader : consumer unit :=
  {| recv_errs _ := Some (fun _ => tt);
     recv_objects _ := Some (fun _ => tt);
     local _ := None |}.

(** A consumer that is ready to receive on both channels at every
    moment, as [reader] is. *)
Definition keeps_receiving {C : Type} (K : consumer C) : Prop :=
  forall c, is_Some (recv_errs K c) /\ is_Some (recv_objects K c).

(** ** onlyFiles and onlyFolders *)

(** What an error handler does with [quit] before it returns: nothing,
    one send, or the three statements of [defaultErrorHandler], the last
    of which is a panic. *)
Inductive handler_behaviour := Continue | Cancel | Fatal.

Definition handler : Type := error -> handler_behaviour.

Definition defaultErrorHandler : handler := fun _ => Fatal.

(** The goroutine of [onlyFiles].  [quit] counts the values buffered in
    the [quit] channel, whose capacity is 1.  The goroutine starts with
    [defer close(results)]: the close runs when the loop returns, and it
    runs as well when [handle] panics, while the panic unwinds the
    goroutine and before it ends the program. *)
Inductive adapter_pc :=
| AdSelect (quit : nat)               (* at the [select] *)
| AdHandle (e : error) (quit : nat)   (* inside [handle(err, quit)] *)
| AdForward (o : object) (quit : nat) (* blocked in [results <- f] *)
| AdReturn                            (* left the loop; [close(results)] deferred *)
| AdClosed
| AdUnwinding (e : error)             (* [handle] panicked on [e]; [results] closed *)
| AdPanicked.

Definition adapter_loop (handle : handler) : consumer adapter_pc :=
  {| recv_errs c :=
       match c with
       | AdSelect quit =>
           Some (fun err =>
                   match err with
                   | Some e => AdHandle e quit
                   | None => AdSelect quit
                   end)
       | _ => None
       end;
     recv_objects c :=
       match c with
       | AdSelect quit =>
           Some (fun f =>
                   match f with
                   | None => AdReturn
                   | Some o => AdForward o quit
                   end)
       | _ => None
       end;
     local c :=
       match c with
       | AdSelect quit =>
           if (0 <? quit)%nat then Some (LQuit, AdReturn) else None
       | AdHandle e quit =>
           match handle e with
           | Continue => Some (LHandle e, AdSelect quit)
           | Cancel =>
               if (quit <? 1)%nat then Some (LHandle e, AdSelect (S quit)) else None
           | Fatal =>
               if (quit <? 1)%nat then Some (LCloseResults, AdUnwinding e) else None
           end
       | AdForward o quit => Some (LForward o, AdSelect quit)
       | AdReturn => Some (LCloseResults, AdClosed)
       | AdUnwinding _ => Some (LPanic, AdPanicked)
       | AdClosed | AdPanicked => None
       end |}.

(** The two adapters differ only in the type they assert, [*File] or
    [*Folder]; the objects are taken to have it. *)
Definition onlyFiles (p : paginated) (handle : handler) (sched : list action)
    : option (list event * state adapter_pc) :=
  exec (adapter_loop handle) p sched (channel p (AdSelect 0)).

Definition onlyFolders (p : paginated) (handle : handler) (sched : list action)
    : option (list event * state adapter_pc) :=
  exec (adapter_loop handle) p sched (channel p (AdSelect 0)).

(** ** Reading a trace *)

(** The objects and the errors that the page jobs handed over, in order. *)
Definition objects_of (evs : list event) : list obj :=
  omap (fun ev => match ev with EvObj _ o => Some o | _ => None end) evs.

Definition errors_of (evs : list event) : list error :=
  omap (fun ev => match ev with EvErr _ e => Some e | _ => None end) evs.

(** The same, for one job. *)
Definition objects_from (i : nat) (evs : list event) : list obj :=
  omap (fun ev => match ev with
                  | EvObj j o => if bool_decide (j = i) then Some o else None
                  | _ => None
                  end) evs.

Definition errors_from (i : nat) (evs : list event) : list error :=
  omap (fun ev => match ev with
                  | EvErr j e => if bool_decide (j = i) then Some e else None
                  | _ => None
                  end) evs.

(** What the code of a consumer makes of an event: its state after it
    has received the value that the event names, or has taken a step of
    its own; [None] when it is not ready for that. *)
Definition consumer_after {C : Type} (K : consumer C) (c : C) (ev : event) : option C :=
  match ev with
  | EvFirstErr e | EvErr _ e => (fun k => k (Some e)) <$> recv_errs K c
  | EvErrsClosed => (fun k => k None) <$> recv_errs K c
  | EvObj _ o => (fun k => k o) <$> recv_objects K c
  | EvObjectsClosed => (fun k => k None) <$> recv_objects K c
  | EvLocal _ => snd <$> local K c
  | _ => Some c
  end.

(** The same for a trace: the consumer is given the values of the
    events, one after the other. *)
Fixpoint received {C : Type} (K : consumer C) (c : C) (evs : list event) : option C :=
  match evs with
  | [] => Some c
  | ev :: evs' =>
      match consumer_after K c ev with
      | Some c' => received K c' evs'
      | None => None
      end
  end.

Definition forwarded (evs : list event) : list object :=
  omap (fun ev => match ev with EvLocal (LForward o) => Some o | _ => None end) evs.

Definition is_close_objects (ev : event) : bool :=
  match ev with EvCloseObjects => true | _ => false end.

Definition is_close_errs (ev : event) : bool :=
  match ev with EvCloseErrs => true | _ => false end.

Definition is_done (i : nat) (ev : event) : bool :=
  match ev with EvDone j => bool_decide (j = i) | _ => false end.

Definition count (f : event -> bool) (evs : list event) : nat :=
  length (filter (fun ev => f ev = true) evs).

Definition flag (b : bool) : nat := if b then 1 else 0.

Definition ok_list (r : result (list obj)) : list obj :=
  match r with Ok l => l | Err _ => [] end.

Definition err_list (r : result (list obj)) : list error :=
  match r with Ok _ => [] | Err e => [e] end.

(** What each job will put on the channels, read off the transport and the
    decode function: the outcome of page [i + 1]. *)
Definition page_outcome (p : paginated) (resp1 : Response) (i : nat) : result (list obj) :=
  match i with
  | O => init p 1 (resp_Body resp1)
  | S _ =>
      let page := Z.of_nat i + 1 in
      match get (do p) (path p) (page_query p page) with
      | Err e => Err e
      | Ok resp => init p page (resp_Body resp)
      end
  end.

(** The objects of the pages [1..n], page after page. *)
Definition decoded_objects (p : paginated) (resp1 : Response) (n : nat) : list obj :=
  concat ((fun i => ok_list (page_outcome p resp1 i)) <$> seq 0 n).

Definition is_Returned (c : collect_pc) : bool :=
  match c with Returned _ _ => true | Collecting _ => false end.

Definition is_stopped (c : adapter_pc) : bool :=
  match c with AdReturn | AdClosed => true | _ => false end.

Definition is_AdClosed (c : adapter_pc) : bool :=
  match c with AdClosed => true | _ => false end.

(** The states in which [close(results)] has run: after the return from
    the loop, or under the panic of the handler. *)
Definition results_closed (c : adapter_pc) : bool :=
  match c with AdClosed | AdUnwinding _ | AdPanicked => true | _ => false end.

Definition is_close_results (ev : event) : bool :=
  match ev with EvLocal LCloseResults => true | _ => false end.

(** The events after which the goroutine of the adapter has left its
    loop: the receive from [quit], a nil object, and the closed object
    channel. *)
Definition leaves_loop (ev : event) : Prop :=
  ev = EvLocal LQuit \/ ev = EvObjectsClosed \/ exists i, ev = EvObj i None.

End Definitions.

Arguments recv_errs {_ _} _ _.
Arguments recv_objects {_ _} _ _.
Arguments local {_ _} _ _.
Arguments caller {_ _} _.
Arguments jobs {_ _} _.
Arguments wg {_ _} _.
Arguments closer {_ _} _.
Arguments objects_closed {_ _} _.
Arguments errs_closed {_ _} _.
Arguments cons {_ _} _.
Arguments calls {_ _} _.
Arguments panicked {_ _} _.

(** ** A small world to run the definitions in

    URLs are kept as text and never fail to parse; the query is what
    follows the first [?], cut at each [&] and at the first [=] of each
    piece, with no unescaping.  On URLs without escapes or fragment this
    is what [net/url] computes.  The transport is a function, [Join] puts
    the caller's parameters after [page] and [per_page], and objects are
    numbers. *)

Fixpoint after_char (c : ascii) (s : string) : option string :=
  match s with
  | EmptyString => None
  | String d s' => if bool_decide (d = c) then Some s' else after_char c s'
  end.

Fixpoint split_on (c : ascii) (s : string) : list string :=
  match s with
  | EmptyString => [EmptyString]
  | String d s' =>
      if bool_decide (d = c) then EmptyString :: split_on c s'
      else
        match split_on c s' with
        | [] => [String d EmptyString]
        | w :: ws => String d w :: ws
        end
  end.

Fixpoint before_char (c : ascii) (s : string) : string :=
  match s with
  | EmptyString => EmptyString
  | String d s' => if bool_decide (d = c) then EmptyString else String d (before_char c s')
  end.

Fixpoint first_value (key : string) (pieces : list string) : string :=
  match pieces with
  | [] => EmptyString
  | w :: ws =>
      if bool_decide (before_char "=" w = key) then
        match after_char "=" w with
        | Some v => v
        | None => EmptyString
        end
      else first_value key ws
  end.

Definition plain_Query_Get (u key : string) : string :=
  match after_char "?" u with
  | None => EmptyString
  | Some q => first_value key (split_on "&" q)
  end.

#[export] Instance plain_world : World :=
  {| URL := string;
     url_Parse := fun s => inr s;
     url_Query_Get := plain_Query_Get;
     doer := string -> params -> result Response;
     get := fun d path q => d path q;
     Join := fun q q' => q ++ q';
     object := nat |}.

(** The header value [<urlstr>; rel=...] with the relation [rel] quoted. *)
Definition link_value (urlstr rel : string) : string :=
  String "<" (urlstr +:+ rel_sep +:+ rel +:+ String dquote EmptyString).

Definition requested_page (q : params) : string :=
  match q with
  | (_, [v]) :: _ => v
  | _ => EmptyString
  end.

(** A transport that serves every page with the same [Link] header. *)
Definition stub (linkhdr : string) : string -> params -> result Response :=
  fun _ q =>
    Ok {| resp_Header := [("Link"%string, linkhdr)];
          resp_Body := requested_page q |}.

(** The same, failing on the pages whose number is in [bad]. *)
Definition flaky (linkhdr : string) (bad : list string) : string -> params -> result Response :=
  fun path q =>
    if bool_decide (requested_page q ∈ bad) then Err (ErrExternal (requested_page q))
    else stub linkhdr path q.

(** Decodes every page into two objects, [10 * page + 1] and
    [10 * page + 2]. *)
Definition two_per_page : Z -> string -> result (list (option nat)) :=
  fun page _ => Ok [Some (Z.to_nat (10 * page + 1)); Some (Z.to_nat (10 * page + 2))].

(** Decodes page 1 into a nil between two objects, any other page into one
    object. *)
Definition nil_on_first : Z -> string -> result (list (option nat)) :=
  fun page _ => if page =? 1 then Ok [Some 1%nat; None; Some 2%nat] else Ok [Some 7%nat].

Definition last_is (n : string) : string :=
  link_value ("http://canvas.test/api/v1/courses/1/folders?page=" +:+ n) "last".

Definition three_pages : paginated :=
  newPaginatedList (stub (last_is "3")) "courses/1/folders" two_per_page [].

Definition nil_in_first_page : paginated :=
  newPaginatedList (stub (last_is "2")) "courses/1/folders" nil_on_first [].

(** Three pages of which the second cannot be fetched. *)
Definition second_page_down : paginated :=
  newPaginatedList (flaky (last_is "3") ["2"%string]) "courses/1/files" two_per_page [].

(** A transport that is down. *)
Definition down : paginated :=
  newPaginatedList (fun _ _ => Err (ErrExternal "connection refused"))
                   "courses/1/files" two_per_page [].

(** A first response that only names the next page. *)
Definition only_next : paginated :=
  newPaginatedList
    (stub (link_value "http://canvas.test/api/v1/courses/1/files?page=2" "next"))
    "courses/1/files" two_per_page [].

(** A first response without a last page whose only link has a page
    parameter that is not a number. *)
Definition bad_next : paginated :=
  newPaginatedList
    (stub (link_value "http://canvas.test/api/v1/courses/1/files?page=two" "next"))
    "courses/1/files" two_per_page [].

(** A first response whose last page is page 0. *)
Definition zero_pages : paginated :=
  newPaginatedList (stub (last_is "0")) "courses/1/files" two_per_page [].

(** The response that [stub] gives to the first request. *)
Definition first_response (linkhdr : string) : Response :=
  {| resp_Header := [("Link"%string, linkhdr)]; resp_Body := "1" |}.

(** The three jobs race, the closing goroutine closes both channels, and
    [collect] meets the closed error channel before the closed object
    channel. *)
Definition racing : list action :=
  [AStart 0; AStart 1; AStart 2; ASendObj 2; ASendObj 0; ASendObj 1;
   ASendObj 1; ADone 1; ASendObj 0; ASendObj 2; ADone 0; ADone 2;
   ACloser; ACloser; ACloser; ARecvErrsClosed; ARecvObjectsClosed]%nat.

(** The three jobs run one after the other, in page order. *)
Definition in_page_order : list action :=
  [AStart 0; ASendObj 0; ASendObj 0; ADone 0;
   AStart 1; ASendObj 1; ASendObj 1; ADone 1;
   AStart 2; ASendObj 2; ASendObj 2; ADone 2;
   ACloser; ACloser; ARecvObjectsClosed]%nat.

(** Pages 1 and 3 are delivered, then the job of page 2 hands over its
    error, and the engine finishes. *)
Definition failing_last : list action :=
  [AStart 1; AStart 0; AStart 2; ASendObj 0; ASendObj 0; ADone 0;
   ASendObj 2; ASendObj 2; ADone 2; ASendErr 1; ADone 1;
   ACloser; ACloser; ACloser]%nat.

(** The same with an adapter: one object is forwarded, then the error of
    page 2 arrives, the handler runs, [quit] is received and the typed
    channel is closed. *)
Definition cancelling : list action :=
  [AStart 0; AStart 1; ASendObj 0; ALocal; ASendErr 1; ALocal; ALocal; ALocal]%nat.

(** The first page delivers one object and then its nil. *)
Definition up_to_nil : list action := [AStart 0; AStart 1; ASendObj 0; ASendObj 0]%nat.

(** With an adapter, which forwards the object before it takes the nil,
    and then closes the typed channel. *)
Definition up_to_nil_forwarding : list action :=
  [AStart 0; AStart 1; ASendObj 0; ALocal; ASendObj 0; ALocal]%nat.

Definition racing_run : list event * state collect_pc :=
  Eval vm_compute in
    default ([], channel three_pages (Collecting [])) (collect three_pages racing).

Definition failing_run : list event * state collect_pc :=
  Eval vm_compute in
    default ([], channel second_page_down (Collecting []))
            (collect second_page_down failing_last).

Definition cancelling_run : list event * state adapter_pc :=
  Eval vm_compute in
    default ([], channel second_page_down (AdSelect 0))
            (onlyFiles second_page_down (fun _ => Cancel) cancelling).

Definition nil_run : list event * state collect_pc :=
  Eval vm_compute in
    default ([], channel nil_in_first_page (Collecting []))
            (collect nil_in_first_page up_to_nil).

Definition nil_forwarding_run : list event * state adapter_pc :=
  Eval vm_compute in
    default ([], channel nil_in_first_page (AdSelect 0))
            (onlyFolders nil_in_first_page defaultErrorHandler up_to_nil_forwarding).

(** The relations whose links parse, collected from a list of matches the
    way the specification describes the link set. *)
Fixpoint parsed_links `{World} (parts : list (string * string))
    (m : gmap string (option link)) : gmap string (option link) :=
  match parts with
  | [] => m
  | (urlstr, rel) :: parts' =>
      match newlink urlstr with
      | Ok l => parsed_links parts' (<[rel := Some l]> m)
      | Err _ => parsed_links parts' m
      end
  end.

Definition bad_page_header : Header :=
  [("Link"%string, link_value "http://canvas.test/files?page=x" "next")].

(** A good link, then one without a page parameter, then another good one. *)
Definition mixed_header : Header :=
  [("Link"%string,
    link_value "http://canvas.test/files?page=2" "next" +:+ ", "
    +:+ link_value "http://canvas.test/files?per_page=10" "prev" +:+ ", "
    +:+ link_value "http://canvas.test/files?page=9" "last")].

(** * More of the code

    What the properties of the rest of the code need: the numbers and the
    header format against which the parsers are measured, what a run tells
    about the transport and about the adapters, [ListFiles] of course.go,
    and, from the code of files and folders, [createFolder],
    [Folder.CreateFolder] and the two [ParentFolder] methods with
    [filepath.Split]. *)

(** ** What the parsers are measured against *)

(** The number that a run of decimal digits denotes, [n] being the number
    denoted by the digits before it. *)
Fixpoint decimal_value (s : string) (n : Z) : Z :=
  match s with
  | EmptyString => n
  | String c s' => decimal_value s' (10 * n + default 0 (digit_val c))
  end.

(** The number that an optionally signed run of digits denotes. *)
Definition signed_value (s : string) : Z :=
  match s with
  | EmptyString => 0
  | String c s' =>
      if is_minus c then - decimal_value s' 0
      else if is_plus c then decimal_value s' 0
      else decimal_value s 0
  end.

Fixpoint has_char (c : ascii) (s : string) : bool :=
  match s with
  | EmptyString => false
  | String d s' => bool_decide (d = c) || has_char c s'
  end.

(** A [Link] header value as servers write it: the links, each an
    angle-bracketed URL with its quoted relation, separated by a comma and
    a space. *)
Fixpoint format_links (l : list (string * string)) : string :=
  match l with
  | [] => EmptyString
  | (urlstr, rel) :: l' =>
      match l' with
      | [] => link_value urlstr rel
      | _ => link_value urlstr rel +:+ ", " +:+ format_links l'
      end
  end.

(** What such a link may hold for the regular expression to read it back:
    a URL without a closing angle bracket and a relation without a double
    quote, neither with a line feed. *)
Definition plain_link (part : string * string) : Prop :=
  has_char ">" part.1 = false /\ has_char newline part.1 = false /\
  has_char dquote part.2 = false /\ has_char newline part.2 = false.

Section MoreDefinitions.
Context `{World}.

(** The page that a job has still to ask of the transport. *)
Definition unfetched (j : job) : list Z :=
  match j with
  | JPage page => [page]
  | _ => []
  end.

Definition all_unfetched (js : list job) : list Z := concat (unfetched <$> js).

(** The errors whose handler has returned. *)
Definition handled (evs : list event) : list error :=
  omap (fun ev => match ev with EvLocal (LHandle e) => Some e | _ => None end) evs.

(** The object that an adapter has taken and not forwarded yet, and the
    error that it has taken and whose handler has not returned yet. *)
Definition holding (c : adapter_pc) : list object :=
  match c with
  | AdForward o _ => [o]
  | _ => []
  end.

Definition handling (c : adapter_pc) : list error :=
  match c with
  | AdHandle e _ | AdUnwinding e => [e]
  | _ => []
  end.

(** The number of values in the buffer of [quit]. *)
Definition quit_of (c : adapter_pc) : nat :=
  match c with
  | AdSelect quit | AdHandle _ quit | AdForward _ quit => quit
  | _ => 0
  end.

(** What holds all along a run of an adapter whose handler never sends
    on [quit], over pages without a nil object: [quit] stays empty, and
    the adapter leaves its loop only when the object channel is closed. *)
Definition continuing_inv (p : paginated) (s : state adapter_pc) : Prop :=
  engine_inv s /\ panicked s = false /\
  Forall is_Some (all_pending_objects p (jobs s)) /\
  match cons s with
  | AdSelect quit | AdHandle _ quit | AdForward _ quit => quit = 0%nat
  | AdReturn | AdClosed => objects_closed s = true
  | AdUnwinding _ | AdPanicked => False
  end.

(** What holds all along a run of an adapter: only the panic of the
    handler leads to the states of a panic, and the program has ended
    when the panic is over. *)
Definition panic_inv (handle : handler) (s : state adapter_pc) : Prop :=
  match cons s with
  | AdUnwinding e => handle e = Fatal
  | AdPanicked => panicked s = true /\ exists e, handle e = Fatal
  | _ => True
  end.

End MoreDefinitions.

Section SafetyDefinitions.
Context `{World}.

(** A consumer whose own code does not panic. *)
Definition quiet {C : Type} (K : consumer C) : Prop :=
  forall c c', local K c <> Some (LPanic, c').

End SafetyDefinitions.

(** ** course.go: ListFiles *)

Section CourseDefinitions.
Context `{World}.

(** The fields of [Course] that the file listing uses. *)
Record Course := {
  Course_ID : Z;
  Course_client : doer;
  Course_errorHandler : handler;
}.

(** [filesInitFunc] is defined in another file. *)
Variable filesInitFunc : doer -> pageInitFunction.

Definition filespath (c : Course) : string :=
  "courses/" +:+ FormatInt (Course_ID c) +:+ "/files".

Definition pagination (c : Course) (path : string) (init : pageInitFunction)
    (parameters : params) : paginated :=
  newPaginatedList (Course_client c) path init parameters.

(** What [ListFiles] returns; [ListFilesPanic] is the assertion of the
    type [*File] meeting a nil interface. *)
Inductive ListFiles_result :=
| ListFilesReturn (files : option (list object)) (err : option error)
| ListFilesPanic.

(** The loop over [objects] that asserts the type [*File] of each one
    and stores it: [None] when an assertion panics. *)
Fixpoint assert_files (objects : list obj) : option (list object) :=
  match objects with
  | [] => Some []
  | None :: _ => None
  | Some f :: objects' =>
      match assert_files objects' with
      | Some files => Some (f :: files)
      | None => None
      end
  end.

(** [ListFiles] from the return of [p.collect()] on. *)
Definition ListFiles_after (objects : option (list obj)) (err : option error)
    : ListFiles_result :=
  match err with
  | Some e => ListFilesReturn None (Some e)
  | None =>
      match assert_files (default [] objects) with
      | Some files => ListFilesReturn (Some files) None
      | None => ListFilesPanic
      end
  end.

(** [ListFiles] under a schedule: [None] when the schedule is not one of
    the program or stops before [collect] has returned. *)
Definition ListFiles (c : Course) (opts : params) (sched : list action)
    : option ListFiles_result :=
  match collect (pagination c (filespath c) (filesInitFunc (Course_client c)) opts) sched with
  | Some (_, s) =>
      match cons s with
      | Returned objects err => Some (ListFiles_after objects err)
      | Collecting _ => None
      end
  | None => None
  end.

End CourseDefinitions.

(** ** path/filepath.Split

    On a system whose separator is [/] and whose paths have no volume
    name. *)

Definition IsPathSeparator (c : ascii) : bool := bool_decide (c = "/"%char).

(** The loop [for i >= 0 && !os.IsPathSeparator(path[i]) { i-- }], with
    [k] standing for [i + 1]; the index is always within the path. *)
Fixpoint Split_loop (path : string) (k : nat) : nat :=
  match k with
  | O => O
  | S i =>
      match String.get i path with
      | Some c => if IsPathSeparator c then k else Split_loop path i
      | None => Split_loop path i
      end
  end.

Definition Split (path : string) : string * string :=
  let k := Split_loop path (String.length path) in
  (substring 0 k path, substring k (String.length path - k) path).

(** ** Files and folders *)

Section FolderDefinitions.
Context `{World}.

(** The fields of [Folder] and [File] that the code below reads or
    writes; [Folder_parent] and [File_folder] are pointers, [None] being
    nil. *)
#[warnings="-register-all"] Inductive Folder := {
  Folder_ID : Z;
  ParentFolderID : Z;
  Foldername : string;
  FullName : string;
  Folder_client : doer;
  Folder_parent : option Folder;
}.

Record File := {
  File_ID : Z;
  FolderID : Z;
  DisplayName : string;
  File_client : doer;
  File_folder : option Folder;
}.

(** The package functions and library functions that the file calls and
    does not define.  [getjson d v format args] is the folder that [v]
    points to after [getjson(d, v, nil, format, args...)], with the error;
    [json_Decode body v] the same for [json.NewDecoder(body).Decode(v)];
    [Option] is the package's request option, [params_Set] and [params_Add]
    the methods [Set] and [Add] of [params]. *)
Class FolderApi := {
  Option : Type;
  params_Set : params -> string -> string -> params;
  params_Add : params -> list Option -> params;
  post : doer -> string -> params -> result Response;
  Sprintf : string -> list Z -> string;
  getjson : doer -> Folder -> string -> list Z -> Folder * option error;
  json_Decode : string -> Folder -> Folder * option error;
}.
Context `{FolderApi}.

(** [&Folder{client: d}] *)
Definition new_Folder (d : doer) : Folder :=
  {| Folder_ID := 0; ParentFolderID := 0; Foldername := EmptyString;
     FullName := EmptyString; Folder_client := d; Folder_parent := None |}.

Definition set_parent (g : Folder) (f : Folder) : Folder :=
  {| Folder_ID := Folder_ID f; ParentFolderID := ParentFolderID f;
     Foldername := Foldername f; FullName := FullName f;
     Folder_client := Folder_client f; Folder_parent := Some g |}.

Definition set_folder (g : Folder) (f : File) : File :=
  {| File_ID := File_ID f; FolderID := FolderID f; DisplayName := DisplayName f;
     File_client := File_client f; File_folder := Some g |}.

(** A method with a pointer receiver returns the receiver as it has left
    it, what the Go method returns, and the requests it has made, each a
    format with its arguments. *)
Definition request : Type := string * list Z.

Definition Folder_ParentFolder (f : Folder)
    : Folder * (Folder * option error) * list request :=
  match Folder_parent f with
  | Some g => (f, (g, None), [])
  | None =>
      let '(g, err) :=
        getjson (Folder_client f) (new_Folder (Folder_client f))
                "folders/%d" [ParentFolderID f] in
      (set_parent g f, (g, err), [("folders/%d"%string, [ParentFolderID f])])
  end.

Definition File_ParentFolder (f : File)
    : File * (Folder * option error) * list request :=
  let fetch :=
    let '(g, err) :=
      getjson (File_client f) (new_Folder (File_client f))
              "folders/%d" [FolderID f] in
    (set_folder g f, (g, err), [("folders/%d"%string, [FolderID f])]) in
  match File_folder f with
  | Some g =>
      if bool_decide (Folder_ID g = FolderID f) then (f, (g, None), [])
      else fetch
  | None => fetch
  end.

(** [createFolder]: the short variable declaration of its first line
    assigns to the parameter [name]. *)
Definition createFolder (d : doer) (path name : string) (opts : list Option)
    (respath : string) (v : list Z) : option Folder * option error :=
  let '(parentpath, name) := Split path in
  let q := [("name"%string, [name])] in
  let q := if bool_decide (parentpath <> EmptyString)
           then params_Set q "parent_folder_path" parentpath else q in
  let q := params_Add q opts in
  match post d (Sprintf respath v) q with
  | Err e => (None, Some e)
  | Ok resp =>
      let '(f, err) := json_Decode (resp_Body resp) (new_Folder d) in
      (Some f, err)
  end.

Definition Folder_CreateFolder (f : Folder) (path : string) (opts : list Option)
    : option Folder * option error :=
  let '(dir, name) := Split path in
  createFolder (Folder_client f) dir name opts "/folders/%d/folders" [Folder_ID f].

End FolderDefinitions.

(** ** More to run the definitions on *)

Definition two_links : list (string * string) :=
  [("http://canvas.test/files?page=2", "next");
   ("http://canvas.test/files?page=9", "last")]%string.

(** A response without a [Link] header. *)
Definition no_link_header : Header :=
  [("Content-Type"%string, "application/json"%string)].

(** Two links of the same relation. *)
Definition twice_next : Header :=
  [("Link"%string,
    link_value "http://canvas.test/files?page=2" "next" +:+ ", "
    +:+ link_value "http://canvas.test/files?page=3" "next")].

(** With a handler that lets the adapter go on: every object of the pages
    1 and 3 is forwarded, the error of page 2 is handled in between, and
    the typed channel is closed at the end. *)
Definition carrying_on : list action :=
  [AStart 0; AStart 1; AStart 2; ASendObj 0; ALocal; ASendErr 1; ALocal;
   ASendObj 0; ALocal; ADone 0; ADone 1; ASendObj 2; ALocal; ASendObj 2; ALocal;
   ADone 2; ACloser; ACloser; ACloser; ARecvObjectsClosed; ALocal]%nat.

Definition carrying_on_run : list event * state adapter_pc :=
  Eval vm_compute in
    default ([], channel second_page_down (AdSelect 0))
            (onlyFiles second_page_down (fun _ => Continue) carrying_on).

(** With the default handler, up to the error of page 2. *)
Definition up_to_error : list action :=
  [AStart 0; AStart 1; ASendObj 0; ALocal; ASendErr 1]%nat.

Definition up_to_error_run : list event * state adapter_pc :=
  Eval vm_compute in
    default ([], channel second_page_down (AdSelect 0))
            (onlyFiles second_page_down defaultErrorHandler up_to_error).

Definition in_page_order_run : list event * state collect_pc :=
  Eval vm_compute in
    default ([], channel three_pages (Collecting [])) (collect three_pages in_page_order).

(** Course 1 on a server of three pages. *)
Definition course_one : Course :=
  {| Course_ID := 1; Course_client := stub (last_is "3");
     Course_errorHandler := defaultErrorHandler |}.

Definition listed : ListFiles_result :=
  Eval vm_compute in
    default ListFilesPanic (ListFiles (fun _ => two_per_page) course_one [] racing).

(** A server on which no folder is found.  Options are pairs, [Set] and
    [Add] put their entries in front and behind, and a format is not
    filled in. *)
#[export] Instance plain_api : FolderApi :=
  {| Option := string * string;
     params_Set := fun q key value => (key, [value]) :: q;
     params_Add := fun q opts => q ++ ((fun o => (o.1, [o.2])) <$> opts);
     post := fun d path q => d path q;
     Sprintf := fun format _ => format;
     getjson := fun _ v _ _ => (v, Some (ErrExternal "not found"));
     json_Decode := fun _ v => (v, None) |}.

Definition orphan : Folder :=
  {| Folder_ID := 7; ParentFolderID := 3; Foldername := "notes";
     FullName := "docs/notes"; Folder_client := stub EmptyString;
     Folder_parent := None |}.

(** [collect] returns on the error of page 2 while the job of page 1 holds
    its two objects; then the job of page 3 starts. *)
Definition returning_early : list action := [AStart 1; AStart 0; ASendErr 1]%nat.

Definition returning_early_run : list event * state collect_pc :=
  Eval vm_compute in
    default ([], channel second_page_down (Collecting []))
            (collect second_page_down returning_early).

Definition left_behind_run : list event * state collect_pc :=
  Eval vm_compute in
    default ([], returning_early_run.2)
            (exec collect_loop second_page_down [AStart 2]%nat returning_early_run.2).






(** An adapter up to the nil object of page 1, the close not yet done. *)
Definition up_to_nil_taken : list action :=
  [AStart 0; AStart 1; ASendObj 0; ALocal; ASendObj 0]%nat.

Definition nil_taken_run : list event * state adapter_pc :=
  Eval vm_compute in
    default ([], channel nil_in_first_page (AdSelect 0))
            (onlyFiles nil_in_first_page (fun _ => Continue) up_to_nil_taken).

(** With the default handler, through the panic of the handler to the end
    of the program. *)
Definition panicking_run : list event * state adapter_pc :=
  Eval vm_compute in
    default ([], channel second_page_down (AdSelect 0))
            (onlyFolders second_page_down defaultErrorHandler
                         (up_to_error ++ [ALocal; ALocal])).

(** A caller that keeps receiving, after the first object of page 1. *)
Definition reading : list action := [AStart 0; AStart 1; ASendObj 0]%nat.

Definition reading_run : list event * state unit :=
  Eval vm_compute in
    default ([], channel second_page_down tt)
            (exec reader second_page_down reading (channel second_page_down tt)).

(** * Properties *)

(** ** The matcher never runs out of fuel *)

Lemma strip_prefix_length pat s rest :
  strip_prefix pat s = Some rest ->
  String.length s = (String.length pat + String.length rest)%nat.
Proof.
  revert s. induction pat as [|a pat IH]; intros s Hs; simpl in *.
  - by simplify_eq.
  - destruct s as [|c s]; [done|]. case_bool_decide; [|done].
    simpl. by rewrite (IH _ Hs).
Qed.

Lemma lazy_until_length pat s g rest :
  lazy_until pat s = Some (g, rest) ->
  String.length s = (String.length g + String.length pat + String.length rest)%nat.
Proof.
  revert g. induction s as [|c s IH]; intros g Hl; simpl in Hl.
  - destruct (strip_prefix pat EmptyString) eqn:Hp; [|done].
    simplify_eq. by apply strip_prefix_length in Hp.
  - destruct (strip_prefix pat (String c s)) eqn:Hp.
    + simplify_eq. by apply strip_prefix_length in Hp.
    + case_bool_decide; [done|].
      destruct (lazy_until pat s) as [[g' rest']|] eqn:Hr; [|done].
      simplify_eq. simpl. rewrite (IH _ eq_refl). lia.
Qed.

Lemma match_here_shorter s url rel r2 :
  match_here s = Some (url, rel, r2) -> (String.length r2 < String.length s)%nat.
Proof.
  unfold match_here. intros Hm.
  destruct (lazy_until rel_sep s) as [[u r1]|] eqn:H1; [|done].
  destruct (lazy_until _ r1) as [[r r2']|] eqn:H2; [|done].
  simplify_eq. apply lazy_until_length in H1, H2. simpl in *. lia.
Qed.

Lemma find_all_enough fuel1 fuel2 s :
  (String.length s <= fuel1)%nat -> (String.length s <= fuel2)%nat ->
  find_all fuel1 s = find_all fuel2 s.
Proof.
  revert fuel2 s. induction fuel1 as [|fuel1 IH]; intros fuel2 s H1 H2.
  - destruct s; simpl in *; [|lia]. by destruct fuel2.
  - destruct s as [|c s]; [by destruct fuel2|].
    destruct fuel2 as [|fuel2]; simpl in *; [lia|].
    case_bool_decide; [|apply IH; lia].
    destruct (match_here s) as [[[url rel] r2]|] eqn:Hm; [|apply IH; lia].
    apply match_here_shorter in Hm. f_equal. apply IH; lia.
Qed.

(** [FindAllStringSubmatch] without the fuel. *)
Lemma FindAllStringSubmatch_cons c s :
  FindAllStringSubmatch (String c s)
  = if bool_decide (c = "<"%char) then
      match match_here s with
      | Some (url, rel, r2) => (url, rel) :: FindAllStringSubmatch r2
      | None => FindAllStringSubmatch s
      end
    else FindAllStringSubmatch s.
Proof.
  unfold FindAllStringSubmatch. simpl. case_bool_decide; [|done].
  destruct (match_here s) as [[[url rel] r2]|] eqn:Hm; [|done].
  apply match_here_shorter in Hm. f_equal. apply find_all_enough; lia.
Qed.

Section ParserProperties.
Context `{World}.

Lemma ParseUint_loop_all_digits s n v :
  ParseUint_loop s n = inr v -> all_digits s = true.
Proof.
  revert n. induction s as [|c s IH]; intros n Hp; simpl in *; [done|].
  destruct (digit_val c) as [d|] eqn:Hd; [|done].
  rewrite bool_decide_true by eauto. simpl.
  destruct (10 * n + d >? 2 ^ 32 - 1); [done|]. eauto.
Qed.

Lemma ParseInt_is_numeric s v : ParseInt s = inr v -> is_numeric s = true.
Proof.
  unfold ParseInt, is_numeric, ParseUint. destruct s as [|c s]; [done|].
  destruct (is_plus c || is_minus c).
  - destruct s as [|d s]; [done|].
    destruct (ParseUint_loop (String d s) 0) eqn:Hp; [done|].
    intros _. eapply ParseUint_loop_all_digits, Hp.
  - destruct (ParseUint_loop (String c s) 0) eqn:Hp; [done|].
    intros _. eapply ParseUint_loop_all_digits, Hp.
Qed.

Lemma ParseInt_not_numeric s :
  is_numeric s = false -> exists c, ParseInt s = inl c.
Proof.
  intros Hn. destruct (ParseInt s) as [c|v] eqn:Hp; [eauto|].
  apply ParseInt_is_numeric in Hp. congruence.
Qed.

Lemma newlink_error_is_parse_error urlstr e :
  newlink urlstr = Err e -> is_parse_error e = true.
Proof.
  unfold newlink. destruct (url_Parse urlstr) as [msg|u].
  - intros [= <-]. done.
  - destruct (ParseInt _); intros [= <-]. done.
Qed.

Lemma newlink_bad_page urlstr u :
  url_Parse urlstr = inr u ->
  is_numeric (url_Query_Get u "page") = false ->
  exists c, newlink urlstr = Err (ErrPageNum c).
Proof.
  intros Hu Hn. unfold newlink. rewrite Hu.
  destruct (ParseInt_not_numeric _ Hn) as [c ->]. eauto.
Qed.

Lemma link_loop_fails parts m urlstr rel e :
  (urlstr, rel) ∈ parts ->
  newlink urlstr = Err e ->
  exists e', (link_loop parts m).2 = Some e' /\ is_parse_error e' = true.
Proof.
  intros Hin Hbad. revert m.
  induction parts as [|[u r] parts IH]; intros m.
  - by apply elem_of_nil in Hin.
  - simpl. destruct (newlink u) as [l|e0] eqn:Hu.
    + apply elem_of_cons in Hin as [[= -> ->]|Hin]; [congruence|]. by apply IH.
    + simpl. eauto using newlink_error_is_parse_error.
Qed.

Lemma link_loop_prefix pre urlstr rel post e m :
  Forall (fun part => exists l, newlink part.1 = Ok l) pre ->
  newlink urlstr = Err e ->
  link_loop (pre ++ (urlstr, rel) :: post) m
  = ({| links := <[rel := None]> (parsed_links pre m) |}, Some e).
Proof.
  intros Hpre Hbad. revert m.
  induction Hpre as [|[u r] pre [l Hl] _ IH]; intros m; simpl in *.
  - by rewrite Hbad.
  - rewrite Hl. apply IH.
Qed.

Lemma link_loop_no_nil parts m r :
  link_loop parts m = (r, None) ->
  (forall k, m !! k <> Some None) -> forall k, links r !! k <> Some None.
Proof.
  revert m. induction parts as [|[u rel] parts IH]; intros m Hl Hm k; simpl in *.
  - simplify_eq. apply Hm.
  - destruct (newlink u) as [l|e]; [|done].
    eapply IH; [done|]. intros k'.
    destruct (decide (rel = k')) as [->|Hne].
    + by rewrite lookup_insert_eq.
    + rewrite lookup_insert_ne by done. apply Hm.
Qed.

(** The dereference [lastpage.page] of [firstReq] is safe. *)
Lemma firstReq_no_panic p calls : (firstReq p calls).2 <> FirstPanic.
Proof.
  unfold firstReq. destruct (get _ _ _) as [resp|e]; [|done].
  destruct (newLinkedResource (resp_Header resp)) as [pages [e|]] eqn:Hl; [done|].
  destruct (links pages !! "last"%string) as [[l|]|] eqn:Hlast; [done| |done].
  exfalso. unfold newLinkedResource in Hl.
  eapply (link_loop_no_nil _ _ _ Hl); [|exact Hlast].
  intros k. by rewrite lookup_empty.
Qed.

(** C7: a matched link whose URL parses but whose [page] parameter is
    missing or is not a number makes [newlink] fail with the error
    "could not parse page num", and makes [newLinkedResource] return a
    parse error, whatever the other links of the header are; [newlink]
    gives no link for it, so no page number is made up. *)
Theorem bad_page_is_a_parse_error (header : Header) (urlstr rel : string) (u : URL) :
  (urlstr, rel) ∈ FindAllStringSubmatch (Header_Get header "Link") ->
  url_Parse urlstr = inr u ->
  url_Query_Get u "page" = EmptyString \/ is_numeric (url_Query_Get u "page") = false ->
  (exists c, newlink urlstr = Err (ErrPageNum c)) /\
  (exists e, (newLinkedResource header).2 = Some e /\ is_parse_error e = true) /\
  (forall l, newlink urlstr <> Ok l).
Proof.
  intros Hin Hu Hbad.
  assert (Hn : is_numeric (url_Query_Get u "page") = false).
  { destruct Hbad as [-> | ?]; done. }
  destruct (newlink_bad_page _ _ Hu Hn) as [c Hc].
  split; [eauto|]. split.
  - eapply link_loop_fails; eauto.
  - intros l Hl. congruence.
Qed.

(** C10, amended: when the link at some match fails to parse and all the
    matches before it parse, [newLinkedResource] returns the error of that
    link together with a map that holds the links parsed before it and,
    under the relation name of the failing match, a nil link (which
    replaces an earlier link of the same name); the matches after it add
    nothing. *)
Theorem partial_links_on_error (header : Header) pre urlstr rel post e :
  FindAllStringSubmatch (Header_Get header "Link") = pre ++ (urlstr, rel) :: post ->
  Forall (fun part => exists l, newlink part.1 = Ok l) pre ->
  newlink urlstr = Err e ->
  newLinkedResource header
  = ({| links := <[rel := None]> (parsed_links pre ∅) |}, Some e).
Proof.
  intros Hparts Hpre Hbad. unfold newLinkedResource. rewrite Hparts.
  by apply link_loop_prefix.
Qed.

End ParserProperties.

Lemma bad_page_matches :
  FindAllStringSubmatch (Header_Get bad_page_header "Link")
  = [("http://canvas.test/files?page=x", "next")]%string.
Proof. vm_compute. reflexivity. Qed.

Lemma bad_page_is_a_parse_error_witness :
  (exists c, newlink "http://canvas.test/files?page=x" = Err (ErrPageNum c)) /\
  (exists e, (newLinkedResource bad_page_header).2 = Some e /\ is_parse_error e = true) /\
  (forall l, newlink "http://canvas.test/files?page=x" <> Ok l).
Proof.
  apply (@bad_page_is_a_parse_error plain_world bad_page_header
           "http://canvas.test/files?page=x" "next" "http://canvas.test/files?page=x").
  - rewrite bad_page_matches. apply list_elem_of_here.
  - reflexivity.
  - right. vm_compute. reflexivity.
Defined.

Lemma mixed_matches :
  FindAllStringSubmatch (Header_Get mixed_header "Link")
  = [("http://canvas.test/files?page=2", "next")]
      ++ ("http://canvas.test/files?per_page=10", "prev")
      :: [("http://canvas.test/files?page=9", "last")]%string.
Proof. vm_compute. reflexivity. Qed.

(** C10 as stated fails on [mixed_header]: the link of "prev" has no page
    parameter; the map returned with the error is not the map of the links
    parsed before it, since it also binds "prev", to a nil link. *)
Lemma failing_relation_is_recorded :
  (newLinkedResource mixed_header).2 = Some (ErrPageNum ErrSyntax) /\
  links (newLinkedResource mixed_header).1 !! "prev"%string = Some None /\
  parsed_links [("http://canvas.test/files?page=2", "next")]%string ∅ !! "prev"%string = None /\
  links (newLinkedResource mixed_header).1
  <> parsed_links [("http://canvas.test/files?page=2", "next")]%string ∅.
Proof.
  assert (H1 : links (newLinkedResource mixed_header).1 !! "prev"%string = Some None)
    by (vm_compute; reflexivity).
  assert (H2 : parsed_links [("http://canvas.test/files?page=2", "next")]%string ∅
               !! "prev"%string = None) by (vm_compute; reflexivity).
  split; [vm_compute; reflexivity|]. split; [exact H1|]. split; [exact H2|].
  intros Heq. rewrite Heq in H1. congruence.
Qed.

Lemma partial_links_on_error_witness :
  newLinkedResource mixed_header
  = ({| links := <["prev"%string := None]>
                   (parsed_links [("http://canvas.test/files?page=2", "next")]%string ∅) |},
     Some (ErrPageNum ErrSyntax)).
Proof.
  apply (@partial_links_on_error plain_world mixed_header _ _ _ _ _ mixed_matches).
  - repeat constructor. simpl. eexists. vm_compute. reflexivity.
  - vm_compute. reflexivity.
Defined.

(** Case analysis on one transition. *)
Ltac unfold_step := unfold step, errs_receiver, objects_receiver.
Ltac unfold_step_in H := unfold step, errs_receiver, objects_receiver in H.

Ltac step_inv H :=
  unfold step, errs_receiver, objects_receiver in H;
  repeat case_match; simplify_eq; simpl in *.

(** Splits on whether the job looked up is the one that moved. *)
Ltac lookup_insert :=
  match goal with
  | Hj : jobs ?s !! ?i0 = Some _ |- context [<[?i0 := _]> (jobs ?s) !! ?i] =>
      destruct (decide (i0 = i)) as [->|?];
      [rewrite list_lookup_insert_eq by (eapply lookup_lt_Some, Hj); rewrite ?Hj
      |rewrite list_lookup_insert_ne by done]
  end;
  rewrite ?bool_decide_true by done; rewrite ?bool_decide_false by done.

(** Case analysis on the matches of the hypotheses, the goal left alone. *)
Ltac cases_hyps :=
  repeat match goal with
         | H : context [match ?x with _ => _ end] |- _ => destruct x eqn:?
         end.

Section EngineProperties.
Context `{World} {C : Type} (K : consumer C) (p : paginated).

Local Abbreviation step := (step K p).
Local Abbreviation exec := (exec K p).

Lemma exec_app sched1 sched2 s :
  exec (sched1 ++ sched2) s =
  match exec sched1 s with
  | Some (evs1, s1) =>
      match exec sched2 s1 with
      | Some (evs2, s2) => Some (evs1 ++ evs2, s2)
      | None => None
      end
  | None => None
  end.
Proof.
  revert s. induction sched1 as [|a sched1 IH]; intros s; simpl.
  - by destruct (exec sched2 s) as [[??]|].
  - destruct (step a s) as [[ev s1]|]; [|done]. rewrite IH.
    destruct (exec sched1 s1) as [[evs1 s2]|]; [|done].
    by destruct (exec sched2 s2) as [[??]|].
Qed.

Lemma exec_extend sched sched' s evs s1 evs' s' :
  exec sched s = Some (evs, s1) -> exec sched' s1 = Some (evs', s') ->
  exec (sched ++ sched') s = Some (evs ++ evs', s').
Proof. intros H1 H2. by rewrite exec_app, H1, H2. Qed.

Lemma exec_app_inv sched sched' s evs1 s1 evs s' :
  exec sched s = Some (evs1, s1) -> exec (sched ++ sched') s = Some (evs, s') ->
  exists evs', exec sched' s1 = Some (evs', s') /\ evs = evs1 ++ evs'.
Proof.
  intros H1. rewrite exec_app, H1.
  destruct (exec sched' s1) as [[evs' s2]|]; [|done].
  intros [= <- <-]. eauto.
Qed.

Lemma exec_cons_inv a sched s evs s' :
  exec (a :: sched) s = Some (evs, s') ->
  exists ev s1 evs', step a s = Some (ev, s1) /\ exec sched s1 = Some (evs', s')
                     /\ evs = ev :: evs'.
Proof.
  simpl. destruct (step a s) as [[ev s1]|]; [|done].
  destruct (exec sched s1) as [[evs' s2]|] eqn:Hex; [|done].
  intros [= <- <-]. by exists ev, s1, evs'.
Qed.

Lemma exec_split sched s pre ev post s' :
  exec sched s = Some (pre ++ ev :: post, s') ->
  exists sched1 a sched2 s1 s2,
    sched = sched1 ++ a :: sched2 /\
    exec sched1 s = Some (pre, s1) /\
    step a s1 = Some (ev, s2) /\
    exec sched2 s2 = Some (post, s').
Proof.
  revert sched s. induction pre as [|e0 pre IH]; intros sched s Hex.
  - destruct sched as [|a sched]; [done|].
    apply exec_cons_inv in Hex as (ev' & s1 & evs' & Hst & Hex & Heq).
    simplify_eq/=. by exists [], a, sched, s, s1.
  - destruct sched as [|a sched]; [done|].
    apply exec_cons_inv in Hex as (ev' & s1 & evs' & Hst & Hex & Heq).
    simplify_eq/=.
    apply IH in Hex as (sched1 & a' & sched2 & s2 & s3 & -> & Hpre & Hst' & Hpost).
    exists (a :: sched1), a', sched2, s2, s3. simpl. rewrite Hst, Hpre. done.
Qed.

Lemma exec_invariant (I : state C -> Prop) :
  (forall a s ev s', I s -> step a s = Some (ev, s') -> I s') ->
  forall sched s evs s', I s -> exec sched s = Some (evs, s') -> I s'.
Proof.
  intros Hstep sched. induction sched as [|a sched IH]; intros s evs s' HI Hex.
  - by simplify_eq/=.
  - apply exec_cons_inv in Hex as (ev & s1 & evs' & Hst & Hex & ->). eauto.
Qed.

Lemma count_cons f ev evs : count f (ev :: evs) = (flag (f ev) + count f evs)%nat.
Proof.
  unfold count. rewrite filter_cons.
  case_decide as Hd; destruct (f ev); simplify_eq; done.
Qed.

Lemma count_app f evs1 evs2 : count f (evs1 ++ evs2) = (count f evs1 + count f evs2)%nat.
Proof. unfold count. by rewrite filter_app, length_app. Qed.

Lemma objects_from_cons i ev evs :
  objects_from i (ev :: evs) = objects_from i [ev] ++ objects_from i evs.
Proof. unfold objects_from. simpl. by repeat case_match. Qed.

Lemma errors_from_cons i ev evs :
  errors_from i (ev :: evs) = errors_from i [ev] ++ errors_from i evs.
Proof. unfold errors_from. simpl. by repeat case_match. Qed.

Lemma run_job_stands j cs j' : run_job p j = Some (cs, j') -> run_job p j' = None.
Proof.
  unfold run_job, decode, after_loop. intros Hr.
  repeat case_match; simplify_eq; done.
Qed.

Lemma run_job_not_done j cs j' : run_job p j = Some (cs, j') -> is_JDone j' = false.
Proof.
  unfold run_job, decode, after_loop. intros Hr.
  repeat case_match; simplify_eq; done.
Qed.

Lemma will_send_run_job j cs j' : run_job p j = Some (cs, j') -> will_send p j' = will_send p j.
Proof.
  intros Hr. unfold will_send at 2. rewrite Hr.
  unfold will_send. by rewrite (run_job_stands _ _ _ Hr).
Qed.

Lemma will_send_after_loop l : will_send p (after_loop l) = (l, []).
Proof. by destruct l. Qed.

Lemma is_JDone_after_loop l : is_JDone (after_loop l) = false.
Proof. by destruct l. Qed.

(** *** What one step does to one job's stock *)

Lemma step_pending_objects a s ev s' i :
  step a s = Some (ev, s') ->
  pending_objects p s i = objects_from i [ev] ++ pending_objects p s' i.
Proof.
  intros Hst. step_inv Hst; unfold pending_objects; simpl; try done.
  all: lookup_insert; try done.
  - by erewrite <- will_send_run_job.
  - by rewrite will_send_after_loop.
Qed.

Lemma step_pending_errors a s ev s' i :
  step a s = Some (ev, s') ->
  pending_errors p s i = errors_from i [ev] ++ pending_errors p s' i.
Proof.
  intros Hst. step_inv Hst; unfold pending_errors; simpl; try done.
  all: lookup_insert; try done.
  - by erewrite <- will_send_run_job.
  - by rewrite will_send_after_loop.
Qed.

Lemma step_has_finished a s ev s' i :
  step a s = Some (ev, s') ->
  flag (has_finished s' i) = (count (is_done i) [ev] + flag (has_finished s i))%nat.
Proof.
  intros Hst. rewrite count_cons.
  step_inv Hst; unfold has_finished, count; simpl; try done.
  all: lookup_insert; try done.
  - erewrite run_job_not_done by done.
    destruct j; simplify_eq/=; done.
  - by rewrite is_JDone_after_loop.
Qed.

Lemma step_objects_closed a s ev s' :
  step a s = Some (ev, s') ->
  flag (objects_closed s') = (count is_close_objects [ev] + flag (objects_closed s))%nat.
Proof.
  intros Hst. rewrite count_cons.
  step_inv Hst; unfold count; simpl; try done.
  all: by match goal with Hc : objects_closed _ = _ |- _ => rewrite Hc end.
Qed.

Lemma step_errs_closed a s ev s' :
  step a s = Some (ev, s') ->
  flag (errs_closed s') = (count is_close_errs [ev] + flag (errs_closed s))%nat.
Proof.
  intros Hst. rewrite count_cons.
  step_inv Hst; unfold count; simpl; try done.
  all: by match goal with Hc : errs_closed _ = _ |- _ => rewrite Hc end.
Qed.

(** *** The same along a run *)

Lemma exec_pending_objects sched s evs s' i :
  exec sched s = Some (evs, s') ->
  pending_objects p s i = objects_from i evs ++ pending_objects p s' i.
Proof.
  revert s evs. induction sched as [|a sched IH]; intros s evs Hex.
  - by simplify_eq/=.
  - apply exec_cons_inv in Hex as (ev & s1 & evs' & Hst & Hex & ->).
    rewrite objects_from_cons, <- app_assoc, <- (IH _ _ Hex).
    eapply step_pending_objects, Hst.
Qed.

Lemma exec_pending_errors sched s evs s' i :
  exec sched s = Some (evs, s') ->
  pending_errors p s i = errors_from i evs ++ pending_errors p s' i.
Proof.
  revert s evs. induction sched as [|a sched IH]; intros s evs Hex.
  - by simplify_eq/=.
  - apply exec_cons_inv in Hex as (ev & s1 & evs' & Hst & Hex & ->).
    rewrite errors_from_cons, <- app_assoc, <- (IH _ _ Hex).
    eapply step_pending_errors, Hst.
Qed.

Lemma exec_has_finished sched s evs s' i :
  exec sched s = Some (evs, s') ->
  flag (has_finished s' i) = (count (is_done i) evs + flag (has_finished s i))%nat.
Proof.
  revert s evs. induction sched as [|a sched IH]; intros s evs Hex.
  - by simplify_eq/=.
  - apply exec_cons_inv in Hex as (ev & s1 & evs' & Hst & Hex & ->).
    rewrite (IH _ _ Hex), (step_has_finished _ _ _ _ _ Hst).
    change (ev :: evs') with ([ev] ++ evs'). rewrite count_app. lia.
Qed.

Lemma exec_objects_closed sched s evs s' :
  exec sched s = Some (evs, s') ->
  flag (objects_closed s') = (count is_close_objects evs + flag (objects_closed s))%nat.
Proof.
  revert s evs. induction sched as [|a sched IH]; intros s evs Hex.
  - by simplify_eq/=.
  - apply exec_cons_inv in Hex as (ev & s1 & evs' & Hst & Hex & ->).
    rewrite (IH _ _ Hex), (step_objects_closed _ _ _ _ Hst).
    change (ev :: evs') with ([ev] ++ evs'). rewrite count_app. lia.
Qed.

Lemma exec_errs_closed sched s evs s' :
  exec sched s = Some (evs, s') ->
  flag (errs_closed s') = (count is_close_errs evs + flag (errs_closed s))%nat.
Proof.
  revert s evs. induction sched as [|a sched IH]; intros s evs Hex.
  - by simplify_eq/=.
  - apply exec_cons_inv in Hex as (ev & s1 & evs' & Hst & Hex & ->).
    rewrite (IH _ _ Hex), (step_errs_closed _ _ _ _ Hst).
    change (ev :: evs') with ([ev] ++ evs'). rewrite count_app. lia.
Qed.

(** *** The wait group counts the live jobs *)

Lemma live_cons j js : live (j :: js) = (flag (negb (is_JDone j)) + live js)%nat.
Proof.
  unfold live. rewrite filter_cons. case_decide as Hd; destruct (is_JDone j); done.
Qed.

Lemma live_insert js i j j' :
  js !! i = Some j ->
  (live (<[i := j']> js) + flag (negb (is_JDone j))
   = live js + flag (negb (is_JDone j')))%nat.
Proof.
  revert i. induction js as [|j0 js IH]; intros i Hi; [done|].
  destruct i as [|i]; simpl in *.
  - simplify_eq. rewrite !live_cons. lia.
  - rewrite !live_cons. specialize (IH _ Hi). lia.
Qed.

Lemma live_zero js i j : live js = 0%nat -> js !! i = Some j -> is_JDone j = true.
Proof.
  revert i. induction js as [|j0 js IH]; intros i Hl Hi; [done|].
  rewrite live_cons in Hl. destruct i as [|i]; simpl in *.
  - simplify_eq. destruct (is_JDone j); [done|simpl in Hl; lia].
  - eapply IH; [lia|done].
Qed.

Lemma live_all_done js : live js = 0%nat -> Forall (fun j => j = JDone) js.
Proof.
  intros Hl. apply Forall_lookup. intros i j Hi.
  pose proof (live_zero _ _ _ Hl Hi). by destruct j.
Qed.

Lemma step_engine_inv a s ev s' :
  engine_inv s -> step a s = Some (ev, s') -> engine_inv s'.
Proof.
  unfold engine_inv. intros (Hc & Hwg & Hcl) Hst.
  step_inv Hst; try done.
  all: try (split; [done|]).
  all: try match goal with
       | Hj : jobs ?s0 !! ?i = Some ?j |- context [<[?i := ?j']> (jobs ?s0)] =>
           pose proof (live_insert _ _ _ j' Hj) as Hlive; simpl in Hlive
       end.
  all: try match goal with
       | Hr : run_job _ ?j = Some (_, ?j') |- _ =>
           pose proof (run_job_not_done _ _ _ Hr) as Hnd; rewrite Hnd in Hlive;
           assert (is_JDone j = false) as Hnd' by (by destruct j);
           rewrite Hnd' in Hlive; simpl in Hlive
       end.
  all: try rewrite is_JDone_after_loop in Hlive; simpl in *.
  all: try (split; [lia|]).
  all: try (destruct (closer s); intuition (try done; try lia)).
  all: try (intuition (try done; try lia)).
Qed.

(** Under the invariant only the consumer's own code can panic. *)
Lemma step_engine_no_panic a s ev s' :
  engine_inv s -> step a s = Some (ev, s') -> panicked s' = true -> a = ALocal.
Proof.
  unfold engine_inv. intros (Hc & Hwg & Hcl) Hst Hp.
  step_inv Hst; try done.
  all: try match goal with
       | Hj : jobs ?s0 !! ?i = Some ?j |- _ =>
           assert (live (jobs s0) <> 0%nat)
             by (intros Hz; by pose proof (live_zero _ _ _ Hz Hj))
       end.
  all: try congruence.
  all: destruct (closer s); intuition (try done; try lia).
Qed.

Lemma exec_engine_inv sched s evs s' :
  engine_inv s -> exec sched s = Some (evs, s') -> engine_inv s'.
Proof. apply (exec_invariant engine_inv). intros. by eapply step_engine_inv. Qed.

Lemma step_jobs_length a s ev s' :
  step a s = Some (ev, s') -> length (jobs s') = length (jobs s).
Proof. intros Hst. step_inv Hst; by rewrite ?length_insert. Qed.

Lemma exec_jobs_length sched s evs s' :
  exec sched s = Some (evs, s') -> length (jobs s') = length (jobs s).
Proof.
  revert s evs. induction sched as [|a sched IH]; intros s evs Hex.
  - by simplify_eq/=.
  - apply exec_cons_inv in Hex as (ev & s1 & evs' & Hst & Hex & ->).
    rewrite (IH _ _ Hex). by eapply step_jobs_length.
Qed.

(** *** The state that [channel] builds *)

Lemma channel_launched (c0 : C) cs n resp :
  firstReq p [] = (cs, FirstOk n resp) -> 0 <= n ->
  channel p c0
  = {| caller := Consuming;
       jobs := JFirst (resp_Body resp) :: (JPage <$> later_pages n);
       wg := n; closer := CWait;
       objects_closed := false; errs_closed := false;
       cons := c0; calls := cs; panicked := false |}.
Proof.
  intros Hf Hn. unfold channel. rewrite Hf.
  destruct (n <? 0) eqn:Hlt; [lia|done].
Qed.

Lemma channel_cons (c0 : C) : cons (channel p c0) = c0.
Proof.
  unfold channel. destruct (firstReq p []) as [cs r].
  destruct r as [n resp| |]; simpl; [|done..]. by destruct (n <? 0).
Qed.

Lemma live_pages l : live (JPage <$> l) = length l.
Proof.
  induction l as [|z l IH]; [done|]. rewrite fmap_cons, live_cons, IH. done.
Qed.

Lemma channel_jobs_length (c0 : C) cs n resp :
  firstReq p [] = (cs, FirstOk n resp) -> 1 <= n ->
  length (jobs (channel p c0)) = Z.to_nat n.
Proof.
  intros Hf Hn. rewrite (channel_launched _ _ _ _ Hf) by lia. simpl.
  unfold later_pages. rewrite length_fmap, length_seqZ. lia.
Qed.

Lemma channel_engine_inv (c0 : C) cs n resp :
  firstReq p [] = (cs, FirstOk n resp) -> 1 <= n -> engine_inv (channel p c0).
Proof.
  intros Hf Hn. rewrite (channel_launched _ _ _ _ Hf) by lia.
  unfold engine_inv. simpl. split; [done|]. split; [|done].
  rewrite live_cons, live_pages. unfold later_pages. rewrite length_seqZ.
  simpl. lia.
Qed.

Lemma channel_lookup (c0 : C) cs n resp i :
  firstReq p [] = (cs, FirstOk n resp) -> 1 <= n -> (i < Z.to_nat n)%nat ->
  jobs (channel p c0) !! i
  = Some (match i with
          | O => JFirst (resp_Body resp)
          | S _ => JPage (Z.of_nat i + 1)
          end).
Proof.
  intros Hf Hn Hi. rewrite (channel_launched _ _ _ _ Hf) by lia. simpl.
  destruct i as [|k]; [done|]. simpl.
  rewrite list_lookup_fmap. unfold later_pages.
  rewrite lookup_seqZ_lt by lia. simpl. f_equal. f_equal. lia.
Qed.

Lemma sending_decode page body :
  sending (decode p page body) = (ok_list (init p page body), err_list (init p page body)).
Proof.
  unfold decode. destruct (init p page body) as [l|e]; [|done]. by destruct l.
Qed.

Lemma channel_will_send (c0 : C) cs n resp i j :
  firstReq p [] = (cs, FirstOk n resp) -> 1 <= n -> (i < Z.to_nat n)%nat ->
  jobs (channel p c0) !! i = Some j ->
  will_send p j = (ok_list (page_outcome p resp i), err_list (page_outcome p resp i)).
Proof.
  intros Hf Hn Hi Hj. rewrite (channel_lookup _ _ _ _ _ Hf Hn Hi) in Hj.
  simplify_eq. destruct i as [|k]; unfold will_send, page_outcome; simpl.
  - apply sending_decode.
  - destruct (get _ _ _) as [r|e]; [|done]. apply sending_decode.
Qed.

Lemma channel_pending_objects (c0 : C) cs n resp i :
  firstReq p [] = (cs, FirstOk n resp) -> 1 <= n -> (i < Z.to_nat n)%nat ->
  pending_objects p (channel p c0) i = ok_list (page_outcome p resp i).
Proof.
  intros Hf Hn Hi. unfold pending_objects.
  pose proof (channel_lookup c0 _ _ _ _ Hf Hn Hi) as Hl. rewrite Hl.
  by rewrite (channel_will_send _ _ _ _ _ _ Hf Hn Hi Hl).
Qed.

Lemma channel_pending_errors (c0 : C) cs n resp i :
  firstReq p [] = (cs, FirstOk n resp) -> 1 <= n -> (i < Z.to_nat n)%nat ->
  pending_errors p (channel p c0) i = err_list (page_outcome p resp i).
Proof.
  intros Hf Hn Hi. unfold pending_errors.
  pose proof (channel_lookup c0 _ _ _ _ Hf Hn Hi) as Hl. rewrite Hl.
  by rewrite (channel_will_send _ _ _ _ _ _ Hf Hn Hi Hl).
Qed.

Lemma channel_has_finished (c0 : C) cs n resp i :
  firstReq p [] = (cs, FirstOk n resp) -> 1 <= n ->
  has_finished (channel p c0) i = false.
Proof.
  intros Hf Hn. rewrite (channel_launched _ _ _ _ Hf) by lia.
  unfold has_finished. simpl. destruct i as [|k]; [done|]. simpl.
  rewrite list_lookup_fmap. by destruct (later_pages n !! k).
Qed.

(** *** The closing goroutine *)

Lemma live_done js : Forall (fun j => is_JDone j = true) js -> live js = 0%nat.
Proof.
  induction 1 as [|j js Hj _ IH]; [done|]. rewrite live_cons, IH, Hj. done.
Qed.

Lemma all_finished_live (s : state C) :
  (forall i, (i < length (jobs s))%nat -> has_finished s i = true) ->
  live (jobs s) = 0%nat.
Proof.
  intros Hall. apply live_done, Forall_lookup. intros i j Hi.
  specialize (Hall i (lookup_lt_Some _ _ _ Hi)).
  unfold has_finished in Hall. by rewrite Hi in Hall.
Qed.

Lemma live_zero_finished (s : state C) i :
  live (jobs s) = 0%nat -> (i < length (jobs s))%nat -> has_finished s i = true.
Proof.
  intros Hl Hi. unfold has_finished.
  destruct (lookup_lt_is_Some_2 _ _ Hi) as [j Hj]. rewrite Hj.
  eapply live_zero; eauto.
Qed.

Lemma step_close_needs_zero a s ev s' :
  engine_inv s -> step a s = Some (ev, s') ->
  is_close_objects ev = true \/ is_close_errs ev = true ->
  wg s = 0.
Proof.
  unfold engine_inv. intros (Hc & Hwg & Hcl) Hst Hev.
  step_inv Hst; try (destruct Hev; done); try congruence.
  all: intuition congruence.
Qed.

Lemma closer_step_wait (s : state C) :
  panicked s = false -> closer s = CWait -> wg s = 0 ->
  step ACloser s = Some (EvWait, set_closer CCloseObjects s).
Proof. intros Hp Hk Hz. unfold_step. by rewrite Hp, Hk, Hz. Qed.

Lemma closer_step_objects (s : state C) :
  panicked s = false -> closer s = CCloseObjects -> objects_closed s = false ->
  step ACloser s = Some (EvCloseObjects, set_closer CCloseErrs (close_objects s)).
Proof. intros Hp Hk Ho. unfold_step. by rewrite Hp, Hk, Ho. Qed.

Lemma closer_step_errs (s : state C) :
  panicked s = false -> closer s = CCloseErrs -> errs_closed s = false ->
  step ACloser s = Some (EvCloseErrs, set_closer CDone (close_errs s)).
Proof. intros Hp Hk He. unfold_step. by rewrite Hp, Hk, He. Qed.

Lemma closer_finishes (s : state C) :
  engine_inv s -> panicked s = false -> wg s = 0 ->
  exists k evs' s', (k <= 3)%nat /\
    exec (replicate k ACloser) s = Some (evs', s') /\ closer s' = CDone.
Proof.
  unfold engine_inv. intros (Hc & Hwg & Hcl) Hp Hz.
  destruct (closer s) eqn:Hk; [done|..].
  - destruct Hcl as [Ho He]. exists 3%nat. do 2 eexists. split; [lia|].
    simpl. rewrite closer_step_wait by done.
    rewrite closer_step_objects by done.
    rewrite closer_step_errs by done. done.
  - destruct Hcl as (_ & Ho & He). exists 2%nat. do 2 eexists. split; [lia|].
    simpl. rewrite closer_step_objects by done.
    rewrite closer_step_errs by done. done.
  - destruct Hcl as (_ & Ho & He). exists 1%nat. do 2 eexists. split; [lia|].
    simpl. rewrite closer_step_errs by done. done.
  - exists 0%nat. do 2 eexists. split; [lia|]. simpl. done.
Qed.

Lemma finished_nothing_pending (s : state C) i :
  has_finished s i = true ->
  pending_objects p s i = [] /\ pending_errors p s i = [].
Proof.
  unfold has_finished, pending_objects, pending_errors.
  destruct (jobs s !! i) as [j|]; [|done]. by destruct j.
Qed.

(** *** Nothing is lost and nothing is made up *)

Lemma concat_fmap_insert {A B} (f : A -> list B) (js : list A) i j j' x :
  js !! i = Some j -> f j = x ++ f j' ->
  concat (f <$> js) ≡ₚ x ++ concat (f <$> <[i := j']> js).
Proof.
  revert i. induction js as [|j0 js IH]; intros i Hi Hf; [done|].
  destruct i as [|i]; simpl in *.
  - simplify_eq. by rewrite Hf, <- app_assoc.
  - rewrite (IH _ Hi Hf). rewrite !app_assoc.
    apply Permutation_app_tail, Permutation_app_comm.
Qed.

Lemma concat_fmap_insert_same {A B} (f : A -> list B) (js : list A) i j j' :
  js !! i = Some j -> f j = f j' ->
  concat (f <$> js) ≡ₚ concat (f <$> <[i := j']> js).
Proof. intros Hi Hf. apply (concat_fmap_insert f js i j j' [] Hi Hf). Qed.

Lemma concat_fmap_insert_cons {A B} (f : A -> list B) (js : list A) i j j' o :
  js !! i = Some j -> f j = o :: f j' ->
  concat (f <$> js) ≡ₚ o :: concat (f <$> <[i := j']> js).
Proof. intros Hi Hf. apply (concat_fmap_insert f js i j j' [o] Hi Hf). Qed.

Lemma step_all_pending_objects a s ev s' :
  step a s = Some (ev, s') ->
  all_pending_objects p (jobs s) ≡ₚ objects_of [ev] ++ all_pending_objects p (jobs s').
Proof.
  intros Hst. unfold all_pending_objects. step_inv Hst; try reflexivity.
  all: first [eapply concat_fmap_insert_cons | eapply concat_fmap_insert_same];
    [eassumption|]; try done.
  - by erewrite <- will_send_run_job.
  - by rewrite will_send_after_loop.
Qed.

Lemma step_all_pending_errors a s ev s' :
  step a s = Some (ev, s') ->
  all_pending_errors p (jobs s) ≡ₚ errors_of [ev] ++ all_pending_errors p (jobs s').
Proof.
  intros Hst. unfold all_pending_errors. step_inv Hst; try reflexivity.
  all: first [eapply concat_fmap_insert_cons | eapply concat_fmap_insert_same];
    [eassumption|]; try done.
  - by erewrite <- will_send_run_job.
  - by rewrite will_send_after_loop.
Qed.

Lemma objects_of_cons ev evs : objects_of (ev :: evs) = objects_of [ev] ++ objects_of evs.
Proof. unfold objects_of. simpl. by repeat case_match. Qed.

Lemma errors_of_cons ev evs : errors_of (ev :: evs) = errors_of [ev] ++ errors_of evs.
Proof. unfold errors_of. simpl. by repeat case_match. Qed.

Lemma objects_of_app evs1 evs2 : objects_of (evs1 ++ evs2) = objects_of evs1 ++ objects_of evs2.
Proof. apply omap_app. Qed.

Lemma errors_of_app evs1 evs2 : errors_of (evs1 ++ evs2) = errors_of evs1 ++ errors_of evs2.
Proof. apply omap_app. Qed.

Lemma exec_all_pending_objects sched s evs s' :
  exec sched s = Some (evs, s') ->
  all_pending_objects p (jobs s) ≡ₚ objects_of evs ++ all_pending_objects p (jobs s').
Proof.
  revert s evs. induction sched as [|a sched IH]; intros s evs Hex.
  - by simplify_eq/=.
  - apply exec_cons_inv in Hex as (ev & s1 & evs' & Hst & Hex & ->).
    rewrite objects_of_cons, <- app_assoc, <- (IH _ _ Hex).
    eapply step_all_pending_objects, Hst.
Qed.

Lemma exec_all_pending_errors sched s evs s' :
  exec sched s = Some (evs, s') ->
  all_pending_errors p (jobs s) ≡ₚ errors_of evs ++ all_pending_errors p (jobs s').
Proof.
  revert s evs. induction sched as [|a sched IH]; intros s evs Hex.
  - by simplify_eq/=.
  - apply exec_cons_inv in Hex as (ev & s1 & evs' & Hst & Hex & ->).
    rewrite errors_of_cons, <- app_assoc, <- (IH _ _ Hex).
    eapply step_all_pending_errors, Hst.
Qed.

Lemma all_done_nothing_pending js :
  live js = 0%nat -> all_pending_objects p js = [] /\ all_pending_errors p js = [].
Proof.
  intros Hl. apply live_all_done in Hl. unfold all_pending_objects, all_pending_errors.
  induction Hl as [|j js -> _ [IH1 IH2]]; [done|].
  rewrite !fmap_cons. cbn [concat]. by rewrite IH1, IH2.
Qed.

Lemma channel_will_send_all (c0 : C) cs n resp :
  firstReq p [] = (cs, FirstOk n resp) -> 1 <= n ->
  will_send p <$> jobs (channel p c0)
  = (fun i => (ok_list (page_outcome p resp i), err_list (page_outcome p resp i)))
      <$> seq 0 (Z.to_nat n).
Proof.
  intros Hf Hn. apply list_eq. intros i. rewrite !list_lookup_fmap.
  destruct (decide (i < Z.to_nat n)%nat) as [Hi|Hi].
  - rewrite lookup_seq_lt by done. simpl.
    pose proof (channel_lookup c0 _ _ _ _ Hf Hn Hi) as Hl. rewrite Hl. simpl.
    f_equal. by eapply channel_will_send.
  - rewrite lookup_seq_ge by lia.
    rewrite lookup_ge_None_2; [done|].
    rewrite (channel_jobs_length c0 _ _ _ Hf Hn). lia.
Qed.

Lemma channel_all_pending_objects (c0 : C) cs n resp :
  firstReq p [] = (cs, FirstOk n resp) -> 1 <= n ->
  all_pending_objects p (jobs (channel p c0)) = decoded_objects p resp (Z.to_nat n).
Proof.
  intros Hf Hn. unfold all_pending_objects, decoded_objects.
  change (fun j => (will_send p j).1) with (fst ∘ will_send p).
  rewrite list_fmap_compose, (channel_will_send_all c0 _ _ _ Hf Hn).
  by rewrite <- list_fmap_compose.
Qed.

Lemma channel_all_pending_errors (c0 : C) cs n resp :
  firstReq p [] = (cs, FirstOk n resp) -> 1 <= n ->
  all_pending_errors p (jobs (channel p c0))
  = concat ((fun i => err_list (page_outcome p resp i)) <$> seq 0 (Z.to_nat n)).
Proof.
  intros Hf Hn. unfold all_pending_errors.
  change (fun j => (will_send p j).2) with (snd ∘ will_send p).
  rewrite list_fmap_compose, (channel_will_send_all c0 _ _ _ Hf Hn).
  by rewrite <- list_fmap_compose.
Qed.

(** *** A failed first request *)

Lemma blocked_in_channel (s : state C) e a :
  caller s = InChannelSendErr e -> jobs s = [] -> closer s = CNotLaunched ->
  errs_closed s = false -> objects_closed s = false ->
  step a s = None.
Proof.
  intros Hc Hj Hk He Ho. unfold_step. rewrite Hc, Hj, Hk, He, Ho.
  destruct (panicked s); [done|]. by destruct a.
Qed.

Lemma exec_blocked (s : state C) sched evs s' :
  (forall a, step a s = None) -> exec sched s = Some (evs, s') ->
  sched = [] /\ evs = [] /\ s' = s.
Proof.
  intros Hb Hex. destruct sched as [|a sched]; [by simplify_eq/=|].
  simpl in Hex. by rewrite Hb in Hex.
Qed.

Lemma link_loop_absent parts m r k :
  link_loop parts m = (r, None) -> k ∉ parts.*2 -> links r !! k = m !! k.
Proof.
  revert m. induction parts as [|[u rel] parts IH]; intros m Hl Hk; simpl in *.
  - by simplify_eq.
  - apply not_elem_of_cons in Hk as [Hne Hk].
    destruct (newlink u) as [l|e]; [|done].
    rewrite (IH _ Hl Hk). by rewrite lookup_insert_ne.
Qed.

(** C5, on the code: when the transport fails on the first request,
    [channel] leaves its caller in [p.errs <- err] with one page asked of
    the transport, no job and no closing goroutine, and both channels
    open; from there no goroutine can move under any schedule, so the
    error is never handed over, neither channel is ever closed and the
    code after [p.channel()] never runs. *)
Theorem first_request_failure_blocks (c0 : C) e :
  get (do p) (path p) (page_query p 1) = Err e ->
  caller (channel p c0) = InChannelSendErr e /\
  calls (channel p c0) = [1] /\
  jobs (channel p c0) = [] /\
  objects_closed (channel p c0) = false /\
  errs_closed (channel p c0) = false /\
  (forall a, step a (channel p c0) = None) /\
  (forall sched evs s, exec sched (channel p c0) = Some (evs, s) ->
     sched = [] /\ evs = [] /\ s = channel p c0).
Proof.
  intros Hg.
  assert (Hch : channel p c0
                = {| caller := InChannelSendErr e; jobs := []; wg := 0;
                     closer := CNotLaunched; objects_closed := false;
                     errs_closed := false; cons := c0; calls := [1];
                     panicked := false |}).
  { unfold channel, firstReq. by rewrite Hg. }
  rewrite Hch. simpl. repeat (split; [done|]).
  assert (Hb : forall a, step a (channel p c0) = None).
  { intros a. rewrite Hch. by eapply blocked_in_channel. }
  rewrite <- Hch. split; [done|]. intros sched evs s. by apply exec_blocked.
Qed.

(** C4, amended: when the first response has a link header that parses
    without error and holds no "last" relation, [firstReq] fails with
    "could not find last page" after exactly one call of the transport,
    [channel] starts no page job and no closing goroutine, and in every
    run the transport has been called exactly once. *)
Theorem no_last_relation_no_fetch (c0 : C) resp :
  get (do p) (path p) (page_query p 1) = Ok resp ->
  (newLinkedResource (resp_Header resp)).2 = None ->
  "last"%string ∉ (FindAllStringSubmatch (Header_Get (resp_Header resp) "Link")).*2 ->
  firstReq p [] = ([1], FirstErr ErrLastPage) /\
  jobs (channel p c0) = [] /\
  closer (channel p c0) = CNotLaunched /\
  (forall sched evs s, exec sched (channel p c0) = Some (evs, s) ->
     calls s = [1] /\ jobs s = [] /\ closer s = CNotLaunched).
Proof.
  intros Hg Hparse Hlast.
  assert (Hf : firstReq p [] = ([1], FirstErr ErrLastPage)).
  { unfold firstReq. rewrite Hg.
    destruct (newLinkedResource (resp_Header resp)) as [pages err] eqn:Hl.
    simpl in Hparse. subst err. unfold newLinkedResource in Hl.
    by rewrite (link_loop_absent _ _ _ _ Hl Hlast), lookup_empty. }
  assert (Hch : channel p c0
                = {| caller := InChannelSendErr ErrLastPage; jobs := []; wg := 0;
                     closer := CNotLaunched; objects_closed := false;
                     errs_closed := false; cons := c0; calls := [1];
                     panicked := false |}).
  { unfold channel. by rewrite Hf. }
  split; [done|]. rewrite Hch. simpl. split; [done|]. split; [done|].
  intros sched evs s Hex.
  apply exec_blocked in Hex as (_ & _ & ->); [done|].
  intros a. by eapply blocked_in_channel.
Qed.

Lemma live_pos_lookup js :
  live js <> 0%nat -> exists i j, js !! i = Some j /\ is_JDone j = false.
Proof.
  induction js as [|j js IH]; [done|]. rewrite live_cons. intros Hl.
  destruct (is_JDone j) eqn:Hj.
  - destruct IH as (i & j' & Hi & Hd); [simpl in Hl; lia|]. by exists (S i), j'.
  - by exists 0%nat, j.
Qed.

Lemma sum_list_insert_lt (f : job -> nat) js i j j' :
  js !! i = Some j -> (f j' < f j)%nat ->
  (sum_list (f <$> <[i := j']> js) < sum_list (f <$> js))%nat.
Proof.
  revert i. induction js as [|j0 js IH]; intros i Hi Hlt; [done|].
  destruct i as [|i]; simpl in *.
  - simplify_eq. by apply Nat.add_lt_mono_r.
  - by apply Nat.add_lt_mono_l, IH.
Qed.

Lemma run_job_measure j cs j' :
  run_job p j = Some (cs, j') -> (job_measure p j' < job_measure p j)%nat.
Proof.
  intros Hr. destruct j; simplify_eq/=.
  all: unfold will_send, decode, after_loop; simpl.
  all: repeat case_match; simplify_eq/=; try lia.
  all: rewrite !sending_decode;
    match goal with Hi : init _ _ _ = _ |- _ => rewrite Hi end; simpl; lia.
Qed.

Lemma after_loop_measure o l :
  (job_measure p (after_loop l) < job_measure p (JSendObjs o l))%nat.
Proof. destruct l; simpl; lia. Qed.

(** *** Who is running after [channel] *)

Lemma step_caller a s ev s' :
  caller s = Consuming -> step a s = Some (ev, s') -> caller s' = Consuming.
Proof. intros Hc Hst. step_inv Hst; done. Qed.

Lemma panicked_blocked (s : state C) a : panicked s = true -> step a s = None.
Proof. intros Hp. unfold_step. by rewrite Hp. Qed.

(** Either the goroutine that called [channel] is past the call, or
    nothing has happened and nothing is closed. *)
Lemma channel_run_cases (c0 : C) sched evs s :
  exec sched (channel p c0) = Some (evs, s) ->
  caller s = Consuming \/
  (evs = [] /\ s = channel p c0 /\
   objects_closed s = false /\ errs_closed s = false).
Proof.
  intros Hex. unfold channel in *.
  destruct (firstReq p []) as [cs r]. destruct r as [n resp|e|].
  - destruct (n <? 0).
    + right. apply exec_blocked in Hex as (_ & -> & ->); [done|].
      intros a. by apply panicked_blocked.
    + left. eapply (exec_invariant (fun s => caller s = Consuming)); [| |exact Hex].
      * intros a s0 ev s1. apply step_caller.
      * reflexivity.
  - right. apply exec_blocked in Hex as (_ & -> & ->); [done|].
    intros a. by eapply blocked_in_channel.
  - right. apply exec_blocked in Hex as (_ & -> & ->); [done|].
    intros a. by apply panicked_blocked.
Qed.

Lemma channel_run_caller (c0 : C) sched evs s :
  exec sched (channel p c0) = Some (evs, s) ->
  evs <> [] \/ objects_closed s = true -> caller s = Consuming.
Proof.
  intros Hex Hne.
  destruct (channel_run_cases _ _ _ _ Hex) as [?|(-> & _ & Ho & _)]; [done|].
  destruct Hne; congruence.
Qed.

(** *** The engine is never stuck while its consumer receives *)

Lemma engine_progress (s : state C) :
  engine_inv s -> panicked s = false ->
  is_Some (recv_errs K (cons s)) -> is_Some (recv_objects K (cons s)) ->
  closer s <> CDone ->
  exists a ev s', step a s = Some (ev, s') /\ a <> ALocal /\
                  (measure p s' < measure p s)%nat.
Proof.
  intros (Hc & Hwg & Hcl) Hp [ke Hke] [ko Hko] Hnd.
  destruct (decide (live (jobs s) = 0%nat)) as [Hz|Hnz].
  - rewrite Hz in Hwg. destruct (closer s) eqn:Hk; [done| | | |done].
    + exists ACloser. do 2 eexists. split; [by apply closer_step_wait|].
      split; [done|]. unfold measure. simpl. rewrite Hk. simpl. lia.
    + exists ACloser. do 2 eexists. split; [apply closer_step_objects; tauto|].
      split; [done|]. unfold measure. simpl. rewrite Hk. simpl. lia.
    + exists ACloser. do 2 eexists. split; [apply closer_step_errs; tauto|].
      split; [done|]. unfold measure. simpl. rewrite Hk. simpl. lia.
  - destruct (live_pos_lookup _ Hnz) as (i & j & Hi & Hd).
    assert (Hopen : objects_closed s = false /\ errs_closed s = false).
    { destruct (closer s); intuition (try done; try lia). }
    destruct Hopen as [Ho He].
    destruct (run_job p j) as [[cs j']|] eqn:Hr.
    + exists (AStart i). do 2 eexists. split.
      * unfold_step. by rewrite Hp, Hi, Hr.
      * split; [done|]. unfold measure. simpl.
        pose proof (sum_list_insert_lt (job_measure p) _ _ _ j' Hi
                      (run_job_measure _ _ _ Hr)). lia.
    + destruct j; simplify_eq/=.
      * exists (ASendErr i). do 2 eexists. split.
        -- unfold_step. by rewrite Hp, Hi, He, Hc, Hke.
        -- split; [done|]. unfold measure. simpl.
           pose proof (sum_list_insert_lt (job_measure p) _ _ _ JReturn Hi).
           simpl in *. lia.
      * exists (ASendObj i). do 2 eexists. split.
        -- unfold_step. by rewrite Hp, Hi, Ho, Hc, Hko.
        -- split; [done|]. unfold measure. simpl.
           pose proof (sum_list_insert_lt (job_measure p) _ _ _ (after_loop l) Hi
                         (after_loop_measure _ _)). lia.
      * exists (ADone i). do 2 eexists. split.
        -- unfold_step. rewrite Hp, Hi.
           destruct (wg s - 1 <? 0) eqn:Hlt; [lia|done].
        -- split; [done|]. unfold measure. simpl.
           pose proof (sum_list_insert_lt (job_measure p) _ _ _ JDone Hi).
           simpl in *. lia.
Qed.

(** *** What the consumer receives *)

Lemma step_consumer_after a s ev s' :
  step a s = Some (ev, s') -> panicked s' = false ->
  consumer_after K (cons s) ev = Some (cons s').
Proof.
  intros Hst Hp. unfold_step_in Hst.
  repeat case_match; simplify_eq; simpl in *; try done.
  all: repeat match goal with
              | Hk : _ = Some _ |- _ => rewrite Hk
              end; done.
Qed.

Lemma exec_received sched s evs s' :
  exec sched s = Some (evs, s') -> panicked s' = false ->
  received K (cons s) evs = Some (cons s').
Proof.
  revert s evs. induction sched as [|a sched IH]; intros s evs Hex Hp.
  - by simplify_eq/=.
  - apply exec_cons_inv in Hex as (ev & s1 & evs' & Hst & Hex & ->).
    assert (Hp1 : panicked s1 = false).
    { destruct (panicked s1) eqn:Hp1; [|done].
      apply exec_blocked in Hex as (_ & _ & ->); [congruence|].
      intros a'. by apply panicked_blocked. }
    simpl. rewrite (step_consumer_after _ _ _ _ Hst Hp1). by apply IH.
Qed.

(** *** A consumer that keeps receiving lets the engine finish *)

Lemma receiver_can_finish (s : state C) :
  keeps_receiving K -> engine_inv s -> panicked s = false ->
  exists sched evs s', exec sched s = Some (evs, s') /\ closer s' = CDone /\
    engine_inv s' /\ panicked s' = false /\ (length sched <= measure p s)%nat.
Proof.
  intros Hk. remember (measure p s) as m eqn:Hm. revert s Hm.
  induction (lt_wf m) as [m _ IH]. intros s -> Hinv Hp.
  assert (Hdec : closer s = CDone \/ closer s <> CDone)
    by (destruct (closer s); (by left) || (by right)).
  destruct Hdec as [Hd|Hd].
  - exists [], [], s. simpl. repeat (split; [done|]). lia.
  - destruct (engine_progress s Hinv Hp) as (a & ev & s1 & Hst & Ha & Hlt);
      [apply Hk..|done|].
    assert (Hp1 : panicked s1 = false).
    { destruct (panicked s1) eqn:Hp1; [|done].
      by pose proof (step_engine_no_panic _ _ _ _ Hinv Hst Hp1). }
    destruct (IH _ Hlt s1 eq_refl) as (sched & evs & s2 & Hex & Hd2 & Hinv2 & Hp2 & Hlen);
      [by eapply step_engine_inv|done|].
    exists (a :: sched), (ev :: evs), s2. simpl. rewrite Hst, Hex.
    repeat (split; [done|]). lia.
Qed.

End EngineProperties.

Section EngineClaims.
Context `{World} {C : Type} (K : consumer C) (p : paginated).

Lemma closed_when_done (c0 : C) cs n resp sched evs s :
  firstReq p [] = (cs, FirstOk n resp) -> 1 <= n ->
  exec K p sched (channel p c0) = Some (evs, s) ->
  (count is_close_objects evs <= 1)%nat /\
  (count is_close_errs evs <= 1)%nat /\
  (closer s = CDone ->
     count is_close_objects evs = 1%nat /\ count is_close_errs evs = 1%nat).
Proof.
  intros Hf Hn Hex.
  pose proof (channel_engine_inv p c0 _ _ _ Hf Hn) as Hinv0.
  pose proof (exec_engine_inv K p _ _ _ _ Hinv0 Hex) as Hinv.
  pose proof (exec_objects_closed K p _ _ _ _ Hex) as Hco.
  pose proof (exec_errs_closed K p _ _ _ _ Hex) as Hce.
  rewrite (channel_launched p c0 _ _ _ Hf) in Hco, Hce by lia. simpl in Hco, Hce.
  split; [destruct (objects_closed s); simpl in Hco; lia|].
  split; [destruct (errs_closed s); simpl in Hce; lia|].
  intros Hk. destruct Hinv as (_ & _ & Hcl). rewrite Hk in Hcl.
  destruct Hcl as (_ & Ho & He). rewrite Ho in Hco. rewrite He in Hce.
  simpl in Hco, Hce. lia.
Qed.

Lemma run_engine_inv (c0 : C) cs n resp sched evs s :
  firstReq p [] = (cs, FirstOk n resp) -> 1 <= n ->
  exec K p sched (channel p c0) = Some (evs, s) ->
  engine_inv s.
Proof.
  intros Hf Hn Hex. eapply exec_engine_inv; [|exact Hex].
  by eapply channel_engine_inv.
Qed.

(** From every state of a run whose consumer keeps receiving, the run
    can go on until every job is done and both channels are closed. *)
Lemma receiver_completes (c0 : C) cs n resp sched evs s :
  firstReq p [] = (cs, FirstOk n resp) -> 1 <= n ->
  exec K p sched (channel p c0) = Some (evs, s) ->
  keeps_receiving K -> panicked s = false ->
  exists sched' evs' s',
    exec K p (sched ++ sched') (channel p c0) = Some (evs ++ evs', s') /\
    closer s' = CDone /\ panicked s' = false.
Proof.
  intros Hf Hn Hex Hk Hp.
  pose proof (run_engine_inv _ _ _ _ _ _ _ Hf Hn Hex) as Hinv.
  destruct (receiver_can_finish K p s Hk Hinv Hp)
    as (sched' & evs' & s' & Hex' & Hd & _ & Hp' & _).
  exists sched', evs', s'. split; [by eapply exec_extend|done].
Qed.

(** C3: in a run that got past the first request with [n >= 1] pages,
    whatever the consumer and the schedule: [wg] starts at [n]; each of
    the two channels is closed at most once; a close is preceded by the
    [wg.Done()] of every one of the [n] jobs, and the closing goroutine is
    past [wg.Wait()] only when the counter is zero; when the closing
    goroutine has finished each channel has been closed exactly once;
    once the [n] jobs are done the closing goroutine is never blocked:
    at most three of its steps close both channels; and when the consumer
    keeps receiving, the run can go on to a run in which each channel has
    been closed exactly once. *)
Theorem closed_once_after_all_jobs (c0 : C) cs n resp sched evs s :
  firstReq p [] = (cs, FirstOk n resp) ->
  1 <= n ->
  exec K p sched (channel p c0) = Some (evs, s) ->
  wg (channel p c0) = n /\
  (count is_close_objects evs <= 1)%nat /\
  (count is_close_errs evs <= 1)%nat /\
  (forall pre ev post, evs = pre ++ ev :: post ->
     is_close_objects ev = true \/ is_close_errs ev = true ->
     forall i, (i < Z.to_nat n)%nat -> count (is_done i) pre = 1%nat) /\
  (closer s <> CWait -> wg s = 0) /\
  (closer s = CDone ->
     count is_close_objects evs = 1%nat /\ count is_close_errs evs = 1%nat) /\
  ((forall i, (i < Z.to_nat n)%nat -> count (is_done i) evs = 1%nat) ->
   panicked s = false ->
   exists k evs' s', (k <= 3)%nat /\
     exec K p (replicate k ACloser) s = Some (evs', s') /\ closer s' = CDone) /\
  (keeps_receiving K -> panicked s = false ->
   exists sched' evs' s',
     exec K p (sched ++ sched') (channel p c0) = Some (evs ++ evs', s') /\
     closer s' = CDone /\
     count is_close_objects (evs ++ evs') = 1%nat /\
     count is_close_errs (evs ++ evs') = 1%nat).
Proof.
  intros Hf Hn Hex.
  pose proof (channel_engine_inv p c0 _ _ _ Hf Hn) as Hinv0.
  pose proof (exec_engine_inv K p _ _ _ _ Hinv0 Hex) as Hinv.
  pose proof (channel_jobs_length p c0 _ _ _ Hf Hn) as Hlen0.
  destruct (closed_when_done _ _ _ _ _ _ _ Hf Hn Hex) as (Hco & Hce & Hdone).
  split; [by rewrite (channel_launched p c0 _ _ _ Hf) by lia|].
  split; [done|]. split; [done|].
  split; [|split; [|split; [done|split]]].
  - intros pre ev post -> Hev i Hi.
    apply exec_split in Hex as (sched1 & a & sched2 & s1 & s2 & -> & Hpre & Hst & _).
    pose proof (exec_engine_inv K p _ _ _ _ Hinv0 Hpre) as Hinv1.
    pose proof (step_close_needs_zero K p _ _ _ _ Hinv1 Hst Hev) as Hz.
    destruct Hinv1 as (_ & Hwg & _).
    assert (Hfin : has_finished s1 i = true).
    { apply live_zero_finished; [lia|].
      rewrite (exec_jobs_length K p _ _ _ _ Hpre). lia. }
    pose proof (exec_has_finished K p _ _ _ _ i Hpre) as Hcnt.
    rewrite Hfin, (channel_has_finished p c0 _ _ _ i Hf Hn) in Hcnt.
    simpl in Hcnt. lia.
  - intros Hk. destruct Hinv as (_ & _ & Hcl).
    destruct (closer s); intuition done.
  - intros Hall Hp. apply closer_finishes; [done..|].
    destruct Hinv as (_ & Hwg & _). rewrite Hwg.
    rewrite all_finished_live; [done|].
    intros i Hi. rewrite (exec_jobs_length K p _ _ _ _ Hex), Hlen0 in Hi.
    pose proof (exec_has_finished K p _ _ _ _ i Hex) as Hcnt.
    rewrite (Hall i Hi), (channel_has_finished p c0 _ _ _ i Hf Hn) in Hcnt.
    by destruct (has_finished s i).
  - intros Hk Hp.
    destruct (receiver_completes _ _ _ _ _ _ _ Hf Hn Hex Hk Hp)
      as (sched' & evs' & s' & Hex' & Hd & _).
    exists sched', evs', s'. split; [done|]. split; [done|].
    destruct (closed_when_done _ _ _ _ _ _ _ Hf Hn Hex') as (_ & _ & Hdone').
    by apply Hdone'.
Qed.

(** C2: in a run that got past the first request with [n >= 1] pages,
    whatever the consumer and the schedule.  For every page job: what the
    job has handed over on the object channel followed by what it still
    holds is the list its page decodes to, and likewise its errors are at
    most the one error of its failed GET or decode; once the job has
    terminated it has handed over every object of its page exactly once,
    in order, and exactly one error if it failed.  What is handed over is
    received: as long as nothing has panicked, the consumer is in the
    state in which its own code is after receiving the values of the
    trace, one after the other; a hand-over needs the consumer to be
    ready, gives it that value and no other, makes a failed job return,
    and touches no other job.  When the closing goroutine has finished
    every job has terminated; and when the consumer keeps receiving, the
    run can go on to a run in which every page has been handed over in
    full. *)
Theorem every_page_is_delivered_once (c0 : C) cs n resp sched evs s :
  firstReq p [] = (cs, FirstOk n resp) ->
  1 <= n ->
  exec K p sched (channel p c0) = Some (evs, s) ->
  (forall i, (i < Z.to_nat n)%nat ->
     objects_from i evs ++ pending_objects p s i = ok_list (page_outcome p resp i) /\
     errors_from i evs ++ pending_errors p s i = err_list (page_outcome p resp i) /\
     (length (errors_from i evs) <= 1)%nat /\
     (has_finished s i = true ->
        objects_from i evs = ok_list (page_outcome p resp i) /\
        errors_from i evs = err_list (page_outcome p resp i))) /\
  (panicked s = false -> received K c0 evs = Some (cons s)) /\
  (forall i e ev s', jobs s !! i = Some (JSendErr e) ->
     step K p (ASendErr i) s = Some (ev, s') ->
     exists k, recv_errs K (cons s) = Some k /\ cons s' = k (Some e) /\
       ev = EvErr i e /\ panicked s' = false /\ jobs s' !! i = Some JReturn /\
       forall j, j <> i -> jobs s' !! j = jobs s !! j) /\
  (forall i o l ev s', jobs s !! i = Some (JSendObjs o l) ->
     step K p (ASendObj i) s = Some (ev, s') ->
     exists k, recv_objects K (cons s) = Some k /\ cons s' = k o /\
       ev = EvObj i o /\ panicked s' = false /\ jobs s' !! i = Some (after_loop l) /\
       forall j, j <> i -> jobs s' !! j = jobs s !! j) /\
  (closer s = CDone -> forall i, (i < Z.to_nat n)%nat -> has_finished s i = true) /\
  (keeps_receiving K -> panicked s = false ->
   exists sched' evs' s',
     exec K p (sched ++ sched') (channel p c0) = Some (evs ++ evs', s') /\
     closer s' = CDone /\ panicked s' = false /\
     forall i, (i < Z.to_nat n)%nat ->
       objects_from i (evs ++ evs') = ok_list (page_outcome p resp i) /\
       errors_from i (evs ++ evs') = err_list (page_outcome p resp i)).
Proof.
  intros Hf Hn Hex.
  assert (Hpages : forall sched evs s,
            exec K p sched (channel p c0) = Some (evs, s) ->
            forall i, (i < Z.to_nat n)%nat ->
              objects_from i evs ++ pending_objects p s i
              = ok_list (page_outcome p resp i) /\
              errors_from i evs ++ pending_errors p s i
              = err_list (page_outcome p resp i) /\
              (length (errors_from i evs) <= 1)%nat /\
              (has_finished s i = true ->
                 objects_from i evs = ok_list (page_outcome p resp i) /\
                 errors_from i evs = err_list (page_outcome p resp i))).
  { clear sched evs s Hex. intros sched evs s Hex i Hi.
    pose proof (exec_pending_objects K p _ _ _ _ i Hex) as Ho.
    pose proof (exec_pending_errors K p _ _ _ _ i Hex) as He.
    rewrite (channel_pending_objects p c0 _ _ _ _ Hf Hn Hi) in Ho.
    rewrite (channel_pending_errors p c0 _ _ _ _ Hf Hn Hi) in He.
    split; [done|]. split; [done|]. split.
    - apply (f_equal length) in He. rewrite length_app in He.
      destruct (page_outcome p resp i); simpl in He; lia.
    - intros Hfin. destruct (finished_nothing_pending p _ _ Hfin) as [Hpo Hpe].
      rewrite Hpo in Ho. rewrite Hpe in He. by rewrite !app_nil_r in *. }
  assert (Hdone : forall sched evs s,
            exec K p sched (channel p c0) = Some (evs, s) -> closer s = CDone ->
            forall i, (i < Z.to_nat n)%nat -> has_finished s i = true).
  { clear sched evs s Hex. intros sched evs s Hex Hk i Hi.
    destruct (run_engine_inv _ _ _ _ _ _ _ Hf Hn Hex) as (_ & Hwg & Hcl).
    rewrite Hk in Hcl. apply live_zero_finished; [lia|].
    rewrite (exec_jobs_length K p _ _ _ _ Hex), (channel_jobs_length p c0 _ _ _ Hf Hn).
    lia. }
  pose proof (run_engine_inv _ _ _ _ _ _ _ Hf Hn Hex) as Hinv.
  split; [by apply (Hpages sched)|].
  split; [|split; [|split; [|split]]].
  - intros Hp. rewrite <- (channel_cons p c0) at 1. by eapply exec_received.
  - intros i e ev s' Hj Hst.
    assert (Hnp : panicked s' = false).
    { destruct (panicked s') eqn:Hp; [|done].
      by pose proof (step_engine_no_panic K p _ _ _ _ Hinv Hst Hp). }
    destruct Hinv as (Hcaller & _).
    unfold_step_in Hst. rewrite Hj, Hcaller in Hst.
    destruct (panicked s); [done|]. destruct (errs_closed s); [by simplify_eq|].
    destruct (recv_errs K (cons s)) as [k|]; [|done]. simplify_eq.
    exists k. simpl.
    rewrite list_lookup_insert_eq by (by eapply lookup_lt_Some).
    repeat (split; [done|]).
    intros j Hne. by rewrite list_lookup_insert_ne.
  - intros i o l ev s' Hj Hst.
    assert (Hnp : panicked s' = false).
    { destruct (panicked s') eqn:Hp; [|done].
      by pose proof (step_engine_no_panic K p _ _ _ _ Hinv Hst Hp). }
    destruct Hinv as (Hcaller & _).
    unfold_step_in Hst. rewrite Hj, Hcaller in Hst.
    destruct (panicked s); [done|]. destruct (objects_closed s); [by simplify_eq|].
    destruct (recv_objects K (cons s)) as [k|]; [|done]. simplify_eq.
    exists k. simpl.
    rewrite list_lookup_insert_eq by (by eapply lookup_lt_Some).
    repeat (split; [done|]).
    intros j Hne. by rewrite list_lookup_insert_ne.
  - by apply (Hdone sched evs).
  - intros Hk Hp.
    destruct (receiver_completes _ _ _ _ _ _ _ Hf Hn Hex Hk Hp)
      as (sched' & evs' & s' & Hex' & Hd & Hp').
    exists sched', evs', s'. repeat (split; [done|]).
    intros i Hi. destruct (Hpages _ _ _ Hex' i Hi) as (_ & _ & _ & Hfin).
    apply Hfin. by eapply Hdone.
Qed.

End EngineClaims.

Section CollectProperties.
Context `{World} (p : paginated).

Local Abbreviation step := (step collect_loop p).
Local Abbreviation exec := (exec collect_loop p).

Lemma collect_step a s ev s' c0 :
  cons s = Collecting c0 -> step a s = Some (ev, s') ->
  (cons s' = Collecting (c0 ++ objects_of [ev]) /\ errors_of [ev] = [] /\
   Forall is_Some (objects_of [ev]))
  \/ (exists i e, ev = EvErr i e /\ cons s' = Returned None (Some e))
  \/ ((ev = EvObjectsClosed \/ exists i, ev = EvObj i None) /\
      cons s' = Returned (Some c0) None).
Proof.
  intros Hc Hst. unfold_step_in Hst. rewrite ?Hc in Hst. simpl in Hst.
  repeat case_match; simplify_eq; simpl.
  all: rewrite ?app_nil_r; eauto 10.
  destruct o as [x|].
  - left. split; [done|]. split; [done|]. repeat constructor. eauto.
  - right. right. eauto.
Qed.

Lemma returned_step a s ev s' objs err :
  cons s = Returned objs err -> step a s = Some (ev, s') ->
  cons s' = Returned objs err /\ objects_of [ev] = [] /\ errors_of [ev] = [].
Proof.
  intros Hc Hst. unfold_step_in Hst. rewrite ?Hc in Hst. simpl in Hst.
  repeat case_match; simplify_eq; simpl; done.
Qed.

Lemma exec_returned sched s evs s' objs err :
  cons s = Returned objs err -> exec sched s = Some (evs, s') ->
  cons s' = Returned objs err /\ objects_of evs = [] /\ errors_of evs = [].
Proof.
  revert s evs. induction sched as [|a sched IH]; intros s evs Hc Hex.
  - by simplify_eq/=.
  - apply exec_cons_inv in Hex as (ev & s1 & evs' & Hst & Hex & ->).
    destruct (returned_step _ _ _ _ _ _ Hc Hst) as (Hc1 & Ho & He).
    destruct (IH _ _ Hc1 Hex) as (Hc2 & Ho' & He').
    by rewrite (objects_of_cons ev evs'), (errors_of_cons ev evs'), Ho, He, Ho', He'.
Qed.

(** The whole select loop: while it runs it has appended every object
    received, all of them non-nil, and has met no error; after it
    returned, the event on which it did and its result. *)
Lemma collect_trace sched s evs s' c0 :
  cons s = Collecting c0 -> exec sched s = Some (evs, s') ->
  match cons s' with
  | Collecting coll =>
      coll = c0 ++ objects_of evs /\ errors_of evs = [] /\
      Forall is_Some (objects_of evs)
  | Returned objs err =>
      exists pre ev post,
        evs = pre ++ ev :: post /\
        errors_of pre = [] /\ Forall is_Some (objects_of pre) /\
        objects_of post = [] /\ errors_of post = [] /\
        ((exists i e, ev = EvErr i e /\ objs = None /\ err = Some e) \/
         ((ev = EvObjectsClosed \/ exists i, ev = EvObj i None) /\
          objs = Some (c0 ++ objects_of pre) /\ err = None))
  end.
Proof.
  revert s evs c0. induction sched as [|a sched IH]; intros s evs c0 Hc Hex.
  - simplify_eq/=. rewrite Hc. by rewrite app_nil_r.
  - apply exec_cons_inv in Hex as (ev & s1 & evs' & Hst & Hex & ->).
    destruct (collect_step _ _ _ _ _ Hc Hst)
      as [(Hc1 & He1 & Ho1)|[(i & e & -> & Hc1)|(Hev & Hc1)]].
    + specialize (IH _ _ _ Hc1 Hex). destruct (cons s') as [coll|objs err].
      * destruct IH as (-> & He & Ho).
        rewrite (objects_of_cons ev evs'), (errors_of_cons ev evs'), He1, He, app_assoc.
        split; [done|]. split; [done|]. by apply Forall_app.
      * destruct IH as (pre & ev' & post & -> & Hpe & Hpo & Hqo & Hqe & Hres).
        exists (ev :: pre), ev', post.
        rewrite (objects_of_cons ev pre), (errors_of_cons ev pre), He1, Hpe.
        split; [done|]. split; [done|]. split; [by apply Forall_app|].
        split; [done|]. split; [done|].
        destruct Hres as [?|(? & -> & ->)]; [by left|right].
        by rewrite app_assoc.
    + destruct (exec_returned _ _ _ _ _ _ Hc1 Hex) as (-> & Ho & He).
      exists [], (EvErr i e), evs'. simpl. eauto 15.
    + destruct (exec_returned _ _ _ _ _ _ Hc1 Hex) as (-> & Ho & He).
      exists [], ev, evs'. simpl. rewrite app_nil_r.
      split; [done|]. split; [done|]. split; [done|]. split; [done|].
      split; [done|]. right. done.
Qed.

(** *** collect always can return *)

Lemma collect_local_blocked (s : state collect_pc) : step ALocal s = None.
Proof. unfold_step. by repeat case_match. Qed.

Lemma collect_step_no_panic a s ev s' :
  engine_inv s -> step a s = Some (ev, s') -> panicked s' = false.
Proof.
  intros Hinv Hst. destruct (panicked s') eqn:Hp; [|done].
  pose proof (step_engine_no_panic _ _ _ _ _ _ Hinv Hst Hp) as ->.
  by rewrite collect_local_blocked in Hst.
Qed.

Lemma collect_progress (s : state collect_pc) coll :
  engine_inv s -> panicked s = false -> cons s = Collecting coll ->
  exists a ev s', step a s = Some (ev, s') /\
    ((measure p s' < measure p s)%nat \/ is_Returned (cons s') = true).
Proof.
  intros (Hc & Hwg & Hcl) Hp Hcons.
  destruct (decide (live (jobs s) = 0%nat)) as [Hz|Hnz].
  - rewrite Hz in Hwg. destruct (closer s) eqn:Hk; [done|..].
    + exists ACloser. do 2 eexists. split; [by apply closer_step_wait|].
      left. unfold measure. simpl. rewrite Hk. simpl. lia.
    + exists ACloser. do 2 eexists. split; [apply closer_step_objects; tauto|].
      left. unfold measure. simpl. rewrite Hk. simpl. lia.
    + exists ARecvObjectsClosed. do 2 eexists. split.
      * unfold_step. rewrite Hp, Hc, Hcons. destruct Hcl as (_ & -> & _). done.
      * by right.
    + exists ARecvObjectsClosed. do 2 eexists. split.
      * unfold_step. rewrite Hp, Hc, Hcons. destruct Hcl as (_ & -> & _). done.
      * by right.
  - destruct (live_pos_lookup _ Hnz) as (i & j & Hi & Hd).
    assert (Hopen : objects_closed s = false /\ errs_closed s = false).
    { destruct (closer s); intuition (try done; try lia). }
    destruct Hopen as [Ho He].
    destruct (run_job p j) as [[cs j']|] eqn:Hr.
    + exists (AStart i). do 2 eexists. split.
      * unfold_step. by rewrite Hp, Hi, Hr.
      * left. unfold measure. simpl.
        pose proof (sum_list_insert_lt (job_measure p) _ _ _ j' Hi
                      (run_job_measure p _ _ _ Hr)). lia.
    + destruct j; simplify_eq/=.
      * exists (ASendErr i). do 2 eexists. split.
        -- unfold_step. by rewrite Hp, Hi, He, Hc, Hcons.
        -- by right.
      * exists (ASendObj i). do 2 eexists. split.
        -- unfold_step. by rewrite Hp, Hi, Ho, Hc, Hcons.
        -- left. unfold measure. simpl.
           pose proof (sum_list_insert_lt (job_measure p) _ _ _ (after_loop l) Hi
                         (after_loop_measure p _ _)). lia.
      * exists (ADone i). do 2 eexists. split.
        -- unfold_step. rewrite Hp, Hi.
           destruct (wg s - 1 <? 0) eqn:Hlt; [lia|done].
        -- left. unfold measure. simpl.
           pose proof (sum_list_insert_lt (job_measure p) _ _ _ JDone Hi). simpl in *. lia.
Qed.

Lemma collect_can_return (s : state collect_pc) :
  engine_inv s -> panicked s = false ->
  exists sched evs s', exec sched s = Some (evs, s') /\ is_Returned (cons s') = true /\
    (length sched <= measure p s + 1)%nat.
Proof.
  remember (measure p s) as m eqn:Hm. revert s Hm.
  induction (lt_wf m) as [m _ IH]. intros s -> Hinv Hp.
  destruct (cons s) as [coll|objs err] eqn:Hcons.
  - destruct (collect_progress _ _ Hinv Hp Hcons) as (a & ev & s1 & Hst & Hcase).
    destruct (is_Returned (cons s1)) eqn:Hret.
    + exists [a], [ev], s1. simpl. rewrite Hst. split; [done|]. split; [done|]. lia.
    + destruct Hcase as [Hlt|?]; [|done].
      destruct (IH _ Hlt s1 eq_refl) as (sched & evs & s2 & Hex & Hr & Hlen).
      * by eapply step_engine_inv.
      * by eapply collect_step_no_panic.
      * exists (a :: sched), (ev :: evs), s2. simpl. rewrite Hst, Hex.
        split; [done|]. split; [done|]. lia.
  - exists [], [], s. simpl. rewrite Hcons. split; [done|]. split; [done|]. lia.
Qed.

Lemma collect_reachable sched evs s cs n resp :
  firstReq p [] = (cs, FirstOk n resp) -> 1 <= n ->
  collect p sched = Some (evs, s) ->
  engine_inv s /\ panicked s = false.
Proof.
  intros Hf Hn Hex. unfold collect in Hex.
  eapply (exec_invariant collect_loop p
            (fun s => engine_inv s /\ panicked s = false)); [| |exact Hex].
  - intros a s0 ev s1 [Hinv Hp] Hst. split.
    + by eapply step_engine_inv.
    + by eapply collect_step_no_panic.
  - split; [by eapply channel_engine_inv|].
    by rewrite (channel_launched _ _ _ _ _ Hf) by lia.
Qed.

Lemma concat_fmap_nil {A B} (f : A -> list B) (l : list A) :
  (forall x, x ∈ l -> f x = []) -> concat (f <$> l) = [].
Proof.
  induction l as [|x l IH]; intros Hf; [done|].
  rewrite fmap_cons. cbn [concat]. rewrite (Hf x) by apply list_elem_of_here.
  apply IH. intros y Hy. apply Hf. by apply list_elem_of_further.
Qed.

Lemma Forall_concat_fmap {A B} (P : B -> Prop) (f : A -> list B) (l : list A) :
  (forall x, x ∈ l -> Forall P (f x)) -> Forall P (concat (f <$> l)).
Proof.
  induction l as [|x l IH]; intros Hf; [by constructor|].
  rewrite fmap_cons. cbn [concat]. apply Forall_app. split.
  - apply Hf, list_elem_of_here.
  - apply IH. intros y Hy. apply Hf. by apply list_elem_of_further.
Qed.

Lemma length_concat_fmap {A B} (f : A -> list B) (l : list A) :
  length (concat (f <$> l)) = sum_list ((fun x => length (f x)) <$> l).
Proof.
  induction l as [|x l IH]; [done|].
  rewrite !fmap_cons. cbn [concat sum_list sum_list_with]. by rewrite length_app, IH.
Qed.

Lemma step_objects_closed_event a s s' :
  engine_inv s -> step a s = Some (EvObjectsClosed, s') -> live (jobs s) = 0%nat.
Proof.
  intros (Hc & Hwg & Hcl) Hst. step_inv Hst.
  all: intuition (try congruence; try lia).
Qed.

(** C1, amended: when the first response advertises a last page
    [n >= 1], every page is fetched and decoded without error and no
    decoded list holds a nil object, then whatever the schedule, if
    [collect] has returned it has returned a nil error and a sequence that
    is a rearrangement of the decoded objects of the pages [1..n], so
    that its length is the sum of the lengths of the decoded lists; and
    from every state of such a run [collect] can still return. *)
Theorem collect_returns_every_object sched evs s cs n resp :
  firstReq p [] = (cs, FirstOk n resp) ->
  1 <= n ->
  (forall i, (i < Z.to_nat n)%nat ->
     exists l, page_outcome p resp i = Ok l /\ Forall is_Some l) ->
  collect p sched = Some (evs, s) ->
  (forall objs err, cons s = Returned objs err ->
     err = None /\
     exists coll, objs = Some coll /\
       coll ≡ₚ decoded_objects p resp (Z.to_nat n) /\
       length coll
       = sum_list ((fun i => length (ok_list (page_outcome p resp i)))
                     <$> seq 0 (Z.to_nat n))) /\
  (exists sched' evs' s',
     exec sched' s = Some (evs', s') /\ is_Returned (cons s') = true).
Proof.
  intros Hf Hn Hall Hex.
  destruct (collect_reachable _ _ _ _ _ _ Hf Hn Hex) as [Hinv Hp].
  split.
  2:{ destruct (collect_can_return _ Hinv Hp) as (sched' & evs' & s' & ? & ? & _).
      eauto. }
  intros objs err Hret. unfold collect in Hex.
  pose proof (channel_engine_inv p (Collecting []) _ _ _ Hf Hn) as Hinv0.
  assert (Herrs : errors_of evs = []).
  { pose proof (exec_all_pending_errors _ _ _ _ _ _ Hex) as Hperm.
    rewrite (channel_all_pending_errors _ _ _ _ _ Hf Hn) in Hperm.
    rewrite concat_fmap_nil in Hperm.
    - apply Permutation_nil_l in Hperm. symmetry in Hperm.
      by apply app_eq_nil in Hperm as [? _].
    - intros i Hi%elem_of_seq. destruct (Hall i) as (l & -> & _); [lia|done]. }
  assert (Hdec : Forall is_Some (decoded_objects p resp (Z.to_nat n))).
  { apply Forall_concat_fmap. intros i Hi%elem_of_seq.
    destruct (Hall i) as (l & -> & Hl); [lia|done]. }
  assert (Hobjs : Forall is_Some (objects_of evs)).
  { pose proof (exec_all_pending_objects _ _ _ _ _ _ Hex) as Hperm.
    rewrite (channel_all_pending_objects _ _ _ _ _ Hf Hn) in Hperm.
    rewrite Hperm in Hdec. by apply Forall_app in Hdec as [? _]. }
  pose proof (collect_trace _ _ _ _ _ (channel_cons p _) Hex) as Htr.
  rewrite Hret in Htr. simpl in Htr.
  destruct Htr as (pre & ev & post & -> & Hpe & Hpo & Hqo & Hqe & Hres).
  destruct Hres as [(i & e & -> & _ & _)|([->|[i ->]] & -> & ->)].
  - rewrite errors_of_app, (errors_of_cons (EvErr i e) post) in Herrs.
    by apply app_eq_nil in Herrs as [_ ?].
  - split; [done|]. eexists. split; [done|].
    apply exec_split in Hex as (sched1 & a & sched2 & s1 & s2 & -> & Hpre & Hst & _).
    pose proof (exec_engine_inv _ _ _ _ _ _ Hinv0 Hpre) as Hinv1.
    pose proof (step_objects_closed_event _ _ _ Hinv1 Hst) as Hz.
    pose proof (exec_all_pending_objects _ _ _ _ _ _ Hpre) as Hperm.
    rewrite (channel_all_pending_objects _ _ _ _ _ Hf Hn) in Hperm.
    destruct (all_done_nothing_pending p _ Hz) as [Hnp _].
    rewrite Hnp, app_nil_r in Hperm. split; [done|].
    rewrite <- Hperm. apply length_concat_fmap.
  - rewrite objects_of_app, (objects_of_cons (EvObj i None) post) in Hobjs.
    apply Forall_app in Hobjs as [_ Hobjs]. simpl in Hobjs.
    apply Forall_cons in Hobjs as [[x Hx] _]. done.
Qed.




(** What [collect] makes of a nil value, whether it comes from a job or
    from the closed channel. *)
Lemma collect_nil_value sched evs s pre ev post :
  collect p sched = Some (evs, s) ->
  evs = pre ++ ev :: post ->
  ev = EvObjectsClosed \/ (exists i, ev = EvObj i None) ->
  cons s = Returned (Some (objects_of pre)) None.
Proof.
  intros Hex -> Hev. unfold collect in Hex.
  apply exec_split in Hex as (sched1 & a & sched2 & s1 & s2 & -> & Hpre & Hst & Hpost).
  pose proof (collect_trace _ _ _ _ _ (channel_cons p _) Hpre) as Htr.
  destruct (cons s1) as [coll|objs err] eqn:Hc1.
  - destruct Htr as (-> & _ & _). simpl in Hc1.
    destruct (collect_step _ _ _ _ _ Hc1 Hst)
      as [(Hc2 & _ & Ho)|[(i & e & -> & _)|(_ & Hc2)]].
    + destruct Hev as [->|[i ->]]; simpl in Ho.
      * unfold_step_in Hst. rewrite Hc1 in Hst.
        repeat case_match; simplify_eq; simpl in *.
        match goal with Hk : Some _ = Some _ |- _ => injection Hk as <- end. done.
      * apply Forall_cons in Ho as [[x Hx] _]. done.
    + destruct Hev as [?|[? ?]]; done.
    + by destruct (exec_returned _ _ _ _ _ _ Hc2 Hpost) as (-> & _).
  - destruct (returned_step _ _ _ _ _ _ Hc1 Hst) as (_ & Ho & _).
    destruct Hev as [->|[i ->]]; [|done].
    unfold_step_in Hst. rewrite Hc1 in Hst. repeat case_match; simplify_eq.
Qed.

End CollectProperties.

Section AdapterProperties.
Context `{World} (p : paginated) (handle : handler).

Local Abbreviation step := (step (adapter_loop handle) p).
Local Abbreviation exec := (exec (adapter_loop handle) p).

Lemma stopped_step a s ev s' :
  is_stopped (cons s) = true -> step a s = Some (ev, s') ->
  is_stopped (cons s') = true /\
  forwarded [ev] = [] /\ objects_of [ev] = [] /\ errors_of [ev] = [] /\
  flag (is_AdClosed (cons s'))
  = (count is_close_results [ev] + flag (is_AdClosed (cons s)))%nat.
Proof.
  intros Hs Hst. rewrite count_cons. unfold count.
  destruct (cons s) eqn:Hc; try done.
  all: unfold_step_in Hst; rewrite ?Hc in Hst; simpl in Hst.
  all: repeat case_match; simplify_eq; simpl; rewrite ?Hc; done.
Qed.

Lemma exec_stopped sched s evs s' :
  is_stopped (cons s) = true -> exec sched s = Some (evs, s') ->
  is_stopped (cons s') = true /\
  forwarded evs = [] /\ objects_of evs = [] /\ errors_of evs = [] /\
  flag (is_AdClosed (cons s'))
  = (count is_close_results evs + flag (is_AdClosed (cons s)))%nat.
Proof.
  revert s evs. induction sched as [|a sched IH]; intros s evs Hs Hex.
  - by simplify_eq/=.
  - apply exec_cons_inv in Hex as (ev & s1 & evs' & Hst & Hex & ->).
    destruct (stopped_step _ _ _ _ Hs Hst) as (Hs1 & Hf & Ho & He & Hc).
    destruct (IH _ _ Hs1 Hex) as (Hs2 & Hf' & Ho' & He' & Hc').
    split; [done|].
    change (ev :: evs') with ([ev] ++ evs').
    unfold forwarded in *. rewrite omap_app, Hf, Hf'.
    rewrite objects_of_app, errors_of_app, Ho, Ho', He, He', count_app.
    repeat (split; [done|]). lia.
Qed.

Lemma leaving_step a s ev s' :
  leaves_loop ev -> step a s = Some (ev, s') -> cons s' = AdReturn.
Proof.
  intros Hev Hst. unfold_step_in Hst.
  destruct (cons s) eqn:Hc; simpl in Hst.
  all: repeat case_match; simplify_eq; simpl.
  all: try (destruct Hev as [?|[?|[? ?]]]; simplify_eq; done).
Qed.

Lemma adapter_after_leaving sched s0 evs s pre ev post :
  exec sched s0 = Some (evs, s) ->
  evs = pre ++ ev :: post ->
  leaves_loop ev ->
  forwarded post = [] /\ objects_of post = [] /\ errors_of post = [] /\
  (cons s = AdReturn \/ cons s = AdClosed) /\
  (cons s = AdClosed -> count is_close_results post = 1%nat) /\
  (cons s = AdReturn -> caller s = Consuming -> panicked s = false ->
   step ALocal s = Some (EvLocal LCloseResults, set_cons AdClosed s)).
Proof.
  intros Hex -> Hev.
  apply exec_split in Hex as (sched1 & a & sched2 & s1 & s2 & -> & _ & Hst & Hpost).
  pose proof (leaving_step _ _ _ _ Hev Hst) as Hc2.
  destruct (exec_stopped _ _ _ _ ltac:(by rewrite Hc2) Hpost)
    as (Hs & Hf & Ho & He & Hc).
  rewrite Hc2 in Hc. simpl in Hc.
  repeat (split; [done|]). split; [|split].
  - destruct (cons s); try done; eauto.
  - intros Hk. rewrite Hk in Hc. simpl in Hc. lia.
  - intros Hk Hcaller Hp. unfold_step. by rewrite Hp, Hcaller, Hk.
Qed.



Lemma close_is_ready (s : state adapter_pc) :
  cons s = AdReturn -> caller s = Consuming -> panicked s = false ->
  step ALocal s = Some (EvLocal LCloseResults, set_cons AdClosed s).
Proof. intros Hc Hcaller Hp. unfold_step. by rewrite Hp, Hcaller, Hc. Qed.

(** A run in which the adapter has left its loop. *)
Lemma run_after_leaving sched evs s pre ev post :
  exec sched (channel p (AdSelect 0)) = Some (evs, s) ->
  evs = pre ++ ev :: post ->
  leaves_loop ev ->
  forwarded post = [] /\ objects_of post = [] /\ errors_of post = [] /\
  (cons s = AdReturn \/ cons s = AdClosed) /\
  (cons s = AdClosed -> count is_close_results post = 1%nat) /\
  (cons s = AdReturn -> panicked s = false ->
   exec (sched ++ [ALocal]) (channel p (AdSelect 0))
   = Some (evs ++ [EvLocal LCloseResults], set_cons AdClosed s)).
Proof.
  intros Hex Hevs Hev.
  destruct (adapter_after_leaving _ _ _ _ _ _ _ Hex Hevs Hev)
    as (? & ? & ? & ? & ? & _).
  assert (Hcaller : caller s = Consuming).
  { eapply channel_run_caller; [exact Hex|]. left. rewrite Hevs. by destruct pre. }
  repeat (split; [done|]).
  intros Hc Hp. eapply exec_extend; [exact Hex|].
  simpl. by rewrite (close_is_ready _ Hc Hcaller Hp).
Qed.








End AdapterProperties.

Section NilObject.
Context `{World} (p : paginated).

(** C9: a nil object taken from a job and the zero value taken from the
    closed object channel end a consumer in the same way, and nothing is
    asked of the other jobs.  [collect] returns the objects received
    before that value with a nil error; [onlyFiles] and [onlyFolders]
    forward nothing more, leave their loop and close the typed channel:
    the close is the one thing they still do, nothing can block it, and
    it happens once. *)
Theorem nil_object_is_taken_for_close :
  (forall sched evs s pre ev post,
     collect p sched = Some (evs, s) ->
     evs = pre ++ ev :: post ->
     ev = EvObjectsClosed \/ (exists i, ev = EvObj i None) ->
     cons s = Returned (Some (objects_of pre)) None) /\
  (forall handle sched evs s pre ev post,
     onlyFiles p handle sched = Some (evs, s) ->
     evs = pre ++ ev :: post ->
     ev = EvObjectsClosed \/ (exists i, ev = EvObj i None) ->
     forwarded post = [] /\ objects_of post = [] /\ errors_of post = [] /\
     (cons s = AdReturn \/ cons s = AdClosed) /\
     (cons s = AdClosed -> count is_close_results post = 1%nat) /\
     (cons s = AdReturn -> panicked s = false ->
      onlyFiles p handle (sched ++ [ALocal])
      = Some (evs ++ [EvLocal LCloseResults], set_cons AdClosed s))) /\
  (forall handle sched evs s pre ev post,
     onlyFolders p handle sched = Some (evs, s) ->
     evs = pre ++ ev :: post ->
     ev = EvObjectsClosed \/ (exists i, ev = EvObj i None) ->
     forwarded post = [] /\ objects_of post = [] /\ errors_of post = [] /\
     (cons s = AdReturn \/ cons s = AdClosed) /\
     (cons s = AdClosed -> count is_close_results post = 1%nat) /\
     (cons s = AdReturn -> panicked s = false ->
      onlyFolders p handle (sched ++ [ALocal])
      = Some (evs ++ [EvLocal LCloseResults], set_cons AdClosed s))).
Proof.
  split; [|split].
  - intros sched evs s pre ev post Hex Hevs Hev. by eapply collect_nil_value.
  - intros handle sched evs s pre ev post Hex Hevs Hev.
    apply (run_after_leaving p handle _ _ _ _ _ _ Hex Hevs).
    destruct Hev as [->|[i ->]]; [right; by left|right; right; eauto].
  - intros handle sched evs s pre ev post Hex Hevs Hev.
    apply (run_after_leaving p handle _ _ _ _ _ _ Hex Hevs).
    destruct Hev as [->|[i ->]]; [right; by left|right; right; eauto].
Qed.

End NilObject.

(** * Properties of more of the code *)

(** ** strconv.ParseInt against the number it reads *)

Lemma digit_val_range c d : digit_val c = Some d -> 0 <= d <= 9.
Proof.
  unfold digit_val. case_match eqn:Hc; [|done]. intros [= <-].
  apply andb_true_iff in Hc as [H1%Nat.leb_le H2%Nat.leb_le]. lia.
Qed.

Lemma decimal_value_ge s n : 0 <= n -> all_digits s = true -> n <= decimal_value s n.
Proof.
  revert n. induction s as [|c s IH]; intros n Hn Hd; simpl in *; [lia|].
  apply andb_true_iff in Hd as [Hc%bool_decide_eq_true Hd].
  destruct Hc as [d Hc]. rewrite Hc. simpl.
  pose proof (digit_val_range _ _ Hc).
  etrans; [|apply IH; [lia|done]]. lia.
Qed.

Lemma ParseUint_loop_spec s n v :
  0 <= n <= 2 ^ 32 - 1 ->
  ParseUint_loop s n = inr v <->
  all_digits s = true /\ decimal_value s n = v /\ v <= 2 ^ 32 - 1.
Proof.
  revert n. induction s as [|c s IH]; intros n Hn; simpl.
  - split; [intros [= <-]; lia|intros (_ & <- & _); done].
  - destruct (digit_val c) as [d|] eqn:Hc; simpl.
    2:{ split; [done|]. by intros [? _]. }
    pose proof (digit_val_range _ _ Hc).
    destruct (10 * n + d >? 2 ^ 32 - 1) eqn:Hgt.
    + apply Z.gtb_lt in Hgt. split; [done|]. intros (Hd & <- & Hle).
      pose proof (decimal_value_ge s (10 * n + d) ltac:(lia) Hd). lia.
    + apply IH. rewrite Z.gtb_ltb in Hgt. apply Z.ltb_ge in Hgt. lia.
Qed.

Lemma ParseUint_spec s v :
  ParseUint s = inr v <->
  s <> EmptyString /\ all_digits s = true /\ decimal_value s 0 = v /\ v <= 2 ^ 32 - 1.
Proof.
  unfold ParseUint. destruct s as [|c s].
  - split; [done|by intros [? _]].
  - rewrite ParseUint_loop_spec by lia. split; [by intros ?|by intros [_ ?]].
Qed.

Lemma decimal_value_nonneg s n : 0 <= n -> 0 <= decimal_value s n.
Proof.
  revert n. induction s as [|c s IH]; intros n Hn; simpl; [done|].
  apply IH. destruct (digit_val c) as [d|] eqn:Hc; simpl; [|lia].
  pose proof (digit_val_range _ _ Hc). lia.
Qed.

Lemma ParseInt_inv s v :
  ParseInt s = inr v ->
  is_numeric s = true /\ signed_value s = v /\ - 2 ^ 31 <= v <= 2 ^ 31 - 1.
Proof.
  intros Hp. split; [by eapply ParseInt_is_numeric|].
  unfold ParseInt, signed_value in *. destruct s as [|c s]; [done|].
  destruct (ParseUint _) as [e|un] eqn:Hu; [done|].
  apply ParseUint_spec in Hu as (Hne & Hd & Hv & Hle).
  pose proof (decimal_value_nonneg (if is_plus c || is_minus c then s else String c s) 0
                ltac:(lia)) as Hpos.
  rewrite Hv in Hpos.
  destruct (is_minus c) eqn:Hm; cbn [negb andb] in Hp.
  - rewrite orb_true_r in *.
    destruct (2 ^ 31 <? un) eqn:Hlt; [done|]. apply Z.ltb_ge in Hlt.
    injection Hp as <-. rewrite Hv. lia.
  - rewrite orb_false_r in *.
    destruct (2 ^ 31 <=? un) eqn:Hlt; [done|]. apply Z.leb_gt in Hlt.
    injection Hp as <-. destruct (is_plus c); rewrite Hv; lia.
Qed.

Lemma ParseInt_intro s v :
  is_numeric s = true -> signed_value s = v -> - 2 ^ 31 <= v <= 2 ^ 31 - 1 ->
  ParseInt s = inr v.
Proof.
  intros Hn Hv Hr.
  unfold ParseInt, signed_value, is_numeric in *. destruct s as [|c s]; [done|].
  set (body := if is_plus c || is_minus c then s else String c s) in *.
  assert (Hne : body <> EmptyString) by (by destruct body).
  assert (Hd : all_digits body = true) by (by destruct body).
  assert (Hval : decimal_value body 0 = if is_minus c then - v else v).
  { subst body. destruct (is_minus c).
    - rewrite orb_true_r. lia.
    - rewrite orb_false_r. by destruct (is_plus c). }
  pose proof (decimal_value_nonneg body 0 ltac:(lia)) as Hpos.
  destruct (ParseUint body) as [e|un] eqn:Hu.
  - exfalso. assert (Hok : ParseUint body = inr (decimal_value body 0)).
    { apply ParseUint_spec. repeat (split; [done|]). destruct (is_minus c); lia. }
    congruence.
  - apply ParseUint_spec in Hu as (_ & _ & Hun & _). rewrite Hval in Hun. subst un.
    destruct (is_minus c); cbn [negb andb].
    + destruct (2 ^ 31 <? - v) eqn:Hlt; [apply Z.ltb_lt in Hlt; lia|].
      f_equal. lia.
    + destruct (2 ^ 31 <=? v) eqn:Hlt; [apply Z.leb_le in Hlt; lia|done].
Qed.

(** X1: [ParseInt] succeeds exactly on an optionally signed run of decimal
    digits whose value fits an int32, and then returns that value. *)
Theorem ParseInt_reads_int32 (s : string) (v : Z) :
  ParseInt s = inr v <->
  is_numeric s = true /\ signed_value s = v /\ - 2 ^ 31 <= v <= 2 ^ 31 - 1.
Proof.
  split; [apply ParseInt_inv|]. intros (Hn & Hv & Hr). by apply ParseInt_intro.
Qed.

(** ** strconv.FormatInt and strconv.ParseInt *)

Lemma digit_val_pretty_N_char y :
  (y < 10)%N -> digit_val (pretty_N_char y) = Some (Z.of_N y).
Proof.
  intros Hy.
  assert (y = 0 \/ y = 1 \/ y = 2 \/ y = 3 \/ y = 4 \/ y = 5 \/ y = 6 \/ y = 7
          \/ y = 8 \/ y = 9)%N as Hc by lia.
  repeat (destruct Hc as [->|Hc]; [by vm_compute|]). subst. by vm_compute.
Qed.

Lemma pretty_N_go_digits x s :
  all_digits s = true -> all_digits (pretty_N_go x s) = true.
Proof.
  revert s. induction (N.lt_wf_0 x) as [x _ IH]; intros s Hs.
  assert (x = 0 \/ 0 < x)%N as [->|Hx] by lia; [by rewrite pretty_N_go_0|].
  rewrite pretty_N_go_step by done. apply IH; [by apply N.div_lt|].
  simpl. rewrite digit_val_pretty_N_char by (by apply N.mod_lt).
  rewrite bool_decide_true by eauto. done.
Qed.

Lemma pretty_N_go_value x s :
  decimal_value (pretty_N_go x s) 0 = decimal_value s (Z.of_N x).
Proof.
  revert s. induction (N.lt_wf_0 x) as [x _ IH]; intros s.
  assert (x = 0 \/ 0 < x)%N as [->|Hx] by lia; [by rewrite pretty_N_go_0|].
  rewrite pretty_N_go_step by done. rewrite IH by (by apply N.div_lt).
  simpl. rewrite digit_val_pretty_N_char by (by apply N.mod_lt). simpl.
  f_equal. change 10 with (Z.of_N 10).
  rewrite <- N2Z.inj_mul, <- N2Z.inj_add. f_equal. symmetry. by apply N.div_mod.
Qed.

Lemma pretty_N_go_nonempty x s : (0 < x)%N -> pretty_N_go x s <> EmptyString.
Proof.
  revert s. induction (N.lt_wf_0 x) as [x _ IH]; intros s Hx.
  rewrite pretty_N_go_step by done.
  destruct (N.eq_0_gt_0_cases (x `div` 10)) as [->|Hd].
  - by rewrite pretty_N_go_0.
  - apply IH; [by apply N.div_lt|done].
Qed.

Lemma digit_not_sign c d : digit_val c = Some d -> is_plus c = false /\ is_minus c = false.
Proof.
  unfold digit_val, is_plus, is_minus. case_match eqn:Hc; [|done]. intros _.
  apply andb_true_iff in Hc as [H1%Nat.leb_le H2%Nat.leb_le].
  split; apply Nat.eqb_neq; lia.
Qed.

Lemma digits_numeric s :
  s <> EmptyString -> all_digits s = true ->
  is_numeric s = true /\ signed_value s = decimal_value s 0.
Proof.
  intros Hne Hd. destruct s as [|c s]; [done|].
  pose proof Hd as Hd'. simpl in Hd'.
  apply andb_true_iff in Hd' as [[d Hc]%bool_decide_eq_true _].
  destruct (digit_not_sign _ _ Hc) as [Hp Hm].
  unfold is_numeric, signed_value. rewrite Hp, Hm. done.
Qed.

Lemma FormatInt_numeric z :
  is_numeric (FormatInt z) = true /\ signed_value (FormatInt z) = z.
Proof.
  unfold FormatInt, pretty, pretty_Z. destruct z as [|x|x].
  - by vm_compute.
  - unfold pretty, pretty_positive, pretty, pretty_N.
    rewrite decide_False by done.
    destruct (digits_numeric (pretty_N_go (N.pos x) EmptyString)) as [Hn Hv].
    + by apply pretty_N_go_nonempty.
    + by apply pretty_N_go_digits.
    + split; [done|]. by rewrite Hv, pretty_N_go_value.
  - unfold pretty, pretty_positive, pretty, pretty_N.
    rewrite decide_False by done.
    pose proof (pretty_N_go_nonempty (N.pos x) EmptyString ltac:(done)) as Hne.
    pose proof (pretty_N_go_digits (N.pos x) EmptyString eq_refl) as Hd.
    pose proof (pretty_N_go_value (N.pos x) EmptyString) as Hv.
    change (decimal_value EmptyString (Z.of_N (N.pos x))) with (Z.pos x) in Hv.
    set (body := pretty_N_go (N.pos x) EmptyString) in *.
    change ("-" +:+ body) with (String "-" body).
    unfold is_numeric, signed_value.
    change (is_plus "-") with false. change (is_minus "-") with true. cbn [orb].
    rewrite Hv. split; [|done]. by destruct body.
Qed.

(** X2: a page number that fits an int32, written by [FormatInt] the way
    [page_query] writes it into a request, is read back by [ParseInt] as
    the same number. *)
Theorem ParseInt_FormatInt (z : Z) :
  - 2 ^ 31 <= z <= 2 ^ 31 - 1 -> ParseInt (FormatInt z) = inr z.
Proof.
  intros Hz. destruct (FormatInt_numeric z) as [Hn Hv]. by apply ParseInt_intro.
Qed.

(** ** The regular expression against the header format *)

Lemma append_cons c s1 s2 : String c s1 +:+ s2 = String c (s1 +:+ s2).
Proof. reflexivity. Qed.

Lemma append_nil_l s : EmptyString +:+ s = s.
Proof. reflexivity. Qed.

Lemma append_assoc s1 s2 s3 : (s1 +:+ s2) +:+ s3 = s1 +:+ s2 +:+ s3.
Proof.
  induction s1 as [|c s1 IH]; [done|]. rewrite !append_cons. by f_equal.
Qed.

Lemma append_nil_r s : s +:+ EmptyString = s.
Proof. induction s as [|c s IH]; [done|]. rewrite append_cons. by f_equal. Qed.

Lemma strip_prefix_app pat rest : strip_prefix pat (pat +:+ rest) = Some rest.
Proof.
  induction pat as [|c pat IH]; [done|].
  rewrite append_cons. simpl. by rewrite bool_decide_true.
Qed.

Lemma strip_prefix_inv pat s rest : strip_prefix pat s = Some rest -> s = pat +:+ rest.
Proof.
  revert s. induction pat as [|c pat IH]; intros s Hs; simpl in *; [by simplify_eq|].
  destruct s as [|d s]; [done|]. case_bool_decide; [|done]. subst.
  by rewrite (IH _ Hs).
Qed.

Lemma lazy_until_inv pat s g rest :
  lazy_until pat s = Some (g, rest) ->
  s = g +:+ pat +:+ rest /\ has_char newline g = false.
Proof.
  revert g. induction s as [|c s IH]; intros g Hl; simpl in Hl.
  - destruct (strip_prefix pat EmptyString) eqn:Hp; [|done].
    simplify_eq. split; [|done]. by apply strip_prefix_inv in Hp.
  - destruct (strip_prefix pat (String c s)) eqn:Hp.
    + simplify_eq. split; [|done]. by apply strip_prefix_inv in Hp.
    + case_bool_decide as Hc; [done|].
      destruct (lazy_until pat s) as [[g' rest']|] eqn:Hr; [|done].
      simplify_eq. destruct (IH _ eq_refl) as [-> Hg]. split; [done|].
      simpl. by rewrite bool_decide_false.
Qed.

Lemma lazy_until_char c s g rest :
  lazy_until (String c EmptyString) s = Some (g, rest) -> has_char c g = false.
Proof.
  revert g. induction s as [|d s IH]; intros g Hl; simpl in Hl; [done|].
  case_bool_decide as Hcd; [by simplify_eq|].
  case_bool_decide; [done|].
  destruct (lazy_until _ s) as [[g' rest']|] eqn:Hr; [|done].
  simplify_eq. simpl. rewrite (IH _ eq_refl).
  rewrite bool_decide_false; [done|]. by intros ->.
Qed.

Lemma lazy_until_exact p0 pat g rest :
  has_char p0 g = false -> has_char newline g = false ->
  lazy_until (String p0 pat) (g +:+ String p0 pat +:+ rest) = Some (g, rest).
Proof.
  induction g as [|c g IH]; intros Hp Hn.
  - rewrite append_nil_l, append_cons. simpl.
    by rewrite bool_decide_true, strip_prefix_app.
  - simpl in Hp, Hn. apply orb_false_iff in Hp as [Hp1 Hp2], Hn as [Hn1 Hn2].
    apply bool_decide_eq_false in Hp1, Hn1.
    rewrite append_cons. simpl. rewrite bool_decide_false by (by intros ->).
    rewrite bool_decide_false by done. by rewrite IH.
Qed.

Lemma match_here_exact urlstr rel rest :
  has_char ">" urlstr = false -> has_char newline urlstr = false ->
  has_char dquote rel = false -> has_char newline rel = false ->
  match_here (urlstr +:+ rel_sep +:+ rel +:+ String dquote rest)
  = Some (urlstr, rel, rest).
Proof.
  intros Hu1 Hu2 Hr1 Hr2. unfold match_here.
  unfold rel_sep at 1 2. rewrite lazy_until_exact by done.
  change (String dquote rest) with (String dquote EmptyString +:+ rest).
  by rewrite (lazy_until_exact dquote EmptyString).
Qed.

Lemma link_value_app urlstr rel rest :
  link_value urlstr rel +:+ rest
  = String "<" (urlstr +:+ rel_sep +:+ rel +:+ String dquote rest).
Proof.
  unfold link_value. rewrite append_cons. f_equal.
  rewrite !append_assoc. done.
Qed.

Lemma link_is_matched urlstr rel rest :
  plain_link (urlstr, rel) ->
  FindAllStringSubmatch (link_value urlstr rel +:+ rest)
  = (urlstr, rel) :: FindAllStringSubmatch rest.
Proof.
  intros (Hu1 & Hu2 & Hr1 & Hr2). rewrite link_value_app.
  rewrite FindAllStringSubmatch_cons, bool_decide_true by done.
  by rewrite match_here_exact.
Qed.

(** X3: the regular expression reads a well-formed [Link] header back:
    links whose URL holds no closing angle bracket and whose relation holds
    no double quote, neither holding a line feed, written one after the
    other with a comma and a space between them, are matched one by one, in
    order, with exactly these URLs and relations. *)
Theorem written_links_are_read_back (l : list (string * string)) :
  Forall plain_link l -> FindAllStringSubmatch (format_links l) = l.
Proof.
  induction 1 as [|[u r] l Hp Hl IH]; [done|].
  cbn [format_links]. destruct l as [|part l].
  - rewrite <- (append_nil_r (link_value u r)). by rewrite link_is_matched.
  - rewrite link_is_matched by done. f_equal.
    change (", " +:+ format_links (part :: l))
      with (String "," (String " " (format_links (part :: l)))).
    rewrite !FindAllStringSubmatch_cons, !bool_decide_false by done. exact IH.
Qed.

(** X4: whatever the header, a match never holds a line feed in its URL,
    nor a line feed or a double quote in its relation, and the text of the
    link, from the opening angle bracket to the closing double quote,
    stands in the header. *)
Theorem matches_stand_in_the_header (s urlstr rel : string) :
  (urlstr, rel) ∈ FindAllStringSubmatch s ->
  has_char newline urlstr = false /\ has_char newline rel = false /\
  has_char dquote rel = false /\
  exists before after, s = before +:+ link_value urlstr rel +:+ after.
Proof.
  unfold FindAllStringSubmatch. generalize (String.length s). intros fuel.
  revert s. induction fuel as [|fuel IH]; intros s Hin; simpl in Hin.
  { by apply elem_of_nil in Hin. }
  destruct s as [|c s]; [by apply elem_of_nil in Hin|].
  assert (Hskip : (urlstr, rel) ∈ find_all fuel s ->
    has_char newline urlstr = false /\ has_char newline rel = false /\
    has_char dquote rel = false /\
    exists before after, String c s = before +:+ link_value urlstr rel +:+ after).
  { intros Hs. destruct (IH _ Hs) as (? & ? & ? & b & a & ->).
    repeat (split; [done|]). by exists (String c b), a. }
  case_bool_decide as Hc; [|by auto]. subst c.
  destruct (match_here s) as [[[u r] r2]|] eqn:Hm; [|by auto].
  unfold match_here in Hm.
  destruct (lazy_until rel_sep s) as [[u' r1]|] eqn:H1; [|done].
  destruct (lazy_until _ r1) as [[r' r2']|] eqn:H2; [|done]. simplify_eq.
  pose proof (lazy_until_char _ _ _ _ H2) as Hq.
  apply lazy_until_inv in H1 as [-> Hu], H2 as [-> Hr].
  apply elem_of_cons in Hin as [[= -> ->]|Hin].
  - repeat (split; [done|]). exists EmptyString, r2.
    rewrite append_nil_l, link_value_app. reflexivity.
  - destruct (IH _ Hin) as (? & ? & ? & b & a & ->).
    repeat (split; [done|]). exists (link_value u r +:+ b), a.
    rewrite append_assoc, (link_value_app u r). reflexivity.
Qed.

Lemma find_all_no_angle fuel s : has_char "<" s = false -> find_all fuel s = [].
Proof.
  revert s. induction fuel as [|fuel IH]; intros s Hs; [done|].
  destruct s as [|c s]; [done|]. simpl in *.
  apply orb_false_iff in Hs as [Hc Hs]. rewrite Hc. by apply IH.
Qed.

Section LinkSetProperties.
Context `{World}.

(** X5: a response without a [Link] header, or whose [Link] header holds
    no opening angle bracket, gives the empty link set and no error. *)
Theorem no_angle_bracket_no_links (header : Header) :
  has_char "<" (Header_Get header "Link") = false ->
  newLinkedResource header = ({| links := ∅ |}, None).
Proof.
  intros Hs. unfold newLinkedResource, FindAllStringSubmatch.
  by rewrite find_all_no_angle.
Qed.

Lemma link_loop_app_ok pre post m r :
  link_loop (pre ++ post) m = (r, None) ->
  exists m', link_loop post m' = (r, None).
Proof.
  revert m. induction pre as [|[u rel] pre IH]; intros m Hl; simpl in *; [eauto|].
  destruct (newlink u); [eauto|done].
Qed.

Lemma link_loop_sound parts m r k l :
  link_loop parts m = (r, None) -> links r !! k = Some (Some l) ->
  m !! k = Some (Some l) \/ exists urlstr, (urlstr, k) ∈ parts /\ newlink urlstr = Ok l.
Proof.
  revert m. induction parts as [|[u rel] parts IH]; intros m Hl Hk; simpl in *.
  - simplify_eq. by left.
  - destruct (newlink u) as [l'|e] eqn:Hu; [|done].
    destruct (IH _ Hl Hk) as [Hm|(u' & Hin & Hu')].
    + destruct (decide (rel = k)) as [->|Hne].
      * rewrite lookup_insert_eq in Hm. simplify_eq. right. exists u.
        split; [apply list_elem_of_here|done].
      * rewrite lookup_insert_ne in Hm by done. by left.
    + right. exists u'. split; [by apply list_elem_of_further|done].
Qed.

Lemma link_loop_error parts m e :
  (link_loop parts m).2 = Some e -> is_parse_error e = true.
Proof.
  revert m. induction parts as [|[u rel] parts IH]; intros m He; simpl in *; [done|].
  destruct (newlink u) as [l|e'] eqn:Hu; [eauto|].
  simpl in He. simplify_eq. by eapply newlink_error_is_parse_error.
Qed.

Lemma newlink_page urlstr l :
  newlink urlstr = Ok l ->
  url_Parse urlstr = inr (url l) /\
  ParseInt (url_Query_Get (url l) "page") = inr (page l).
Proof.
  unfold newlink. destruct (url_Parse urlstr) as [msg|u]; [done|].
  destruct (ParseInt _) as [c|v] eqn:Hp; [done|]. by intros [= <-].
Qed.

(** X6: when [newLinkedResource] returns no error, the link set binds
    exactly the relation names that were matched, each to the link parsed
    from the last match of that name: a later link replaces an earlier
    one of the same relation, and no entry is nil. *)
Theorem last_link_of_a_relation_wins (header : Header) (r : linkedResource) :
  newLinkedResource header = (r, None) ->
  (forall pre urlstr rel post,
     FindAllStringSubmatch (Header_Get header "Link") = pre ++ (urlstr, rel) :: post ->
     rel ∉ post.*2 ->
     exists l, newlink urlstr = Ok l /\ links r !! rel = Some (Some l)) /\
  (forall rel, rel ∉ (FindAllStringSubmatch (Header_Get header "Link")).*2 ->
     links r !! rel = None) /\
  (forall rel, links r !! rel <> Some None).
Proof.
  unfold newLinkedResource. intros Hl. split; [|split].
  - intros pre urlstr rel post Hparts Hlast. rewrite Hparts in Hl.
    apply link_loop_app_ok in Hl as [m' Hl]. simpl in Hl.
    destruct (newlink urlstr) as [l|e]; [|done].
    exists l. split; [done|].
    rewrite (link_loop_absent _ _ _ _ Hl Hlast). by rewrite lookup_insert_eq.
  - intros rel Hrel. rewrite (link_loop_absent _ _ _ _ Hl Hrel). apply lookup_empty.
  - eapply link_loop_no_nil; [exact Hl|]. intros k. by rewrite lookup_empty.
Qed.

(** X7: [firstReq] asks the transport for page 1 exactly once and never
    dereferences a nil link.  A page count that it returns is the page
    number of a matched link of relation last, and fits an int32; an error
    that it returns is the transport's, an error of the link parser, or
    the error that no last page was found. *)
Theorem firstReq_outcome (p : paginated) (calls : list Z) :
  (firstReq p calls).1 = calls ++ [1] /\
  match (firstReq p calls).2 with
  | FirstPanic => False
  | FirstOk n resp =>
      get (do p) (path p) (page_query p 1) = Ok resp /\
      (newLinkedResource (resp_Header resp)).2 = None /\
      - 2 ^ 31 <= n <= 2 ^ 31 - 1 /\
      exists urlstr l,
        (urlstr, "last"%string) ∈ FindAllStringSubmatch (Header_Get (resp_Header resp) "Link") /\
        newlink urlstr = Ok l /\ page l = n
  | FirstErr e =>
      get (do p) (path p) (page_query p 1) = Err e \/
      is_parse_error e = true \/ e = ErrLastPage
  end.
Proof.
  unfold firstReq. destruct (get _ _ _) as [resp|e]; [|by split; [|left]].
  destruct (newLinkedResource (resp_Header resp)) as [pages [e|]] eqn:Hl.
  - split; [done|]. right. left. unfold newLinkedResource in Hl.
    eapply link_loop_error. by rewrite Hl.
  - destruct (links pages !! "last"%string) as [[l|]|] eqn:Hlast.
    + split; [done|]. simpl. split; [done|]. split; [by rewrite Hl|].
      unfold newLinkedResource in Hl.
      destruct (link_loop_sound _ _ _ _ _ Hl Hlast) as [Hm|(u & Hin & Hu)].
      { by rewrite lookup_empty in Hm. }
      destruct (newlink_page _ _ Hu) as [_ Hp]. apply ParseInt_inv in Hp as (_ & _ & ?).
      split; [done|]. eauto.
    + exfalso. unfold newLinkedResource in Hl.
      eapply (link_loop_no_nil _ _ _ Hl); [|exact Hlast].
      intros k. by rewrite lookup_empty.
    + split; [done|]. simpl. auto.
Qed.

End LinkSetProperties.

(** ** The pages asked of the transport *)

Section TransportProperties.
Context `{World} {C : Type} (K : consumer C) (p : paginated).

Lemma unfetched_after_loop l : unfetched (after_loop l) = [].
Proof. by destruct l. Qed.

Lemma unfetched_decode page body : unfetched (decode p page body) = [].
Proof. unfold decode. destruct (init p page body); [apply unfetched_after_loop|done]. Qed.

Lemma run_job_unfetched j cs j' :
  run_job p j = Some (cs, j') -> unfetched j = cs ++ unfetched j'.
Proof.
  destruct j; simpl; intros Hr; simplify_eq.
  - by rewrite unfetched_decode.
  - destruct (get _ _ _); [by rewrite unfetched_decode|done].
Qed.

Lemma step_calls a s ev s' :
  step K p a s = Some (ev, s') ->
  exists cs, calls s' = calls s ++ cs /\
             all_unfetched (jobs s) ≡ₚ cs ++ all_unfetched (jobs s').
Proof.
  intros Hst. unfold all_unfetched. step_inv Hst.
  all: try (exists []; split; [by rewrite app_nil_r|]; simpl;
            first [reflexivity
                  |eapply concat_fmap_insert_same; [eassumption|];
                   by rewrite ?unfetched_after_loop]).
  eexists. split; [done|].
  eapply concat_fmap_insert; [eassumption|]. by apply run_job_unfetched.
Qed.

Lemma exec_calls sched s evs s' :
  exec K p sched s = Some (evs, s') ->
  exists cs, calls s' = calls s ++ cs /\
             all_unfetched (jobs s) ≡ₚ cs ++ all_unfetched (jobs s').
Proof.
  revert s evs. induction sched as [|a sched IH]; intros s evs Hex.
  - simplify_eq/=. exists []. by rewrite app_nil_r.
  - apply exec_cons_inv in Hex as (ev & s1 & evs' & Hst & Hex & ->).
    destruct (step_calls _ _ _ _ Hst) as (cs1 & Hc1 & Hp1).
    destruct (IH _ _ Hex) as (cs2 & Hc2 & Hp2).
    exists (cs1 ++ cs2). split.
    + by rewrite Hc2, Hc1, app_assoc.
    + by rewrite Hp1, Hp2, app_assoc.
Qed.

Lemma all_unfetched_pages l : all_unfetched (JPage <$> l) = l.
Proof.
  unfold all_unfetched. induction l as [|x l IH]; [done|].
  simpl. by f_equal.
Qed.

Lemma all_unfetched_done js : live js = 0%nat -> all_unfetched js = [].
Proof.
  intros Hall%live_all_done. unfold all_unfetched.
  induction Hall as [|j js -> _ IH]; [done|]. simpl. exact IH.
Qed.

Lemma firstReq_calls cs r calls0 : firstReq p calls0 = (cs, r) -> cs = calls0 ++ [1].
Proof.
  unfold firstReq. intros Hf. repeat case_match; by simplify_eq.
Qed.

(** X8: past a first request that gives a last page [n >= 1], whatever
    the schedule and the consumer, the transport has been asked page 1
    once, by the first request, and then pages among [2..n], no page
    twice; the pages not asked yet are those of the jobs that have not
    started; and once the closing goroutine is past its wait, the pages
    asked are exactly [1..n]. *)
Theorem each_page_is_requested_once (c0 : C) cs n resp sched evs s :
  firstReq p [] = (cs, FirstOk n resp) ->
  1 <= n ->
  exec K p sched (channel p c0) = Some (evs, s) ->
  exists later,
    calls s = 1 :: later /\
    later ++ all_unfetched (jobs s) ≡ₚ later_pages n /\
    NoDup (calls s) /\
    (forall page, page ∈ calls s -> 1 <= page <= n) /\
    (closer s <> CWait -> calls s ≡ₚ seqZ 1 n).
Proof.
  intros Hf Hn Hex.
  pose proof (channel_engine_inv p c0 _ _ _ Hf Hn) as Hinv0.
  pose proof (exec_engine_inv _ _ _ _ _ _ Hinv0 Hex) as (_ & Hwg & Hcl).
  destruct (exec_calls _ _ _ _ Hex) as (later & Hcalls & Hperm).
  rewrite (channel_launched p c0 _ _ _ Hf) in Hcalls, Hperm by lia.
  simpl in Hcalls, Hperm. rewrite (firstReq_calls _ _ _ Hf) in Hcalls.
  simpl in Hcalls.
  change (all_unfetched (JFirst (resp_Body resp) :: (JPage <$> later_pages n)))
    with (all_unfetched (JPage <$> later_pages n)) in Hperm.
  rewrite all_unfetched_pages in Hperm. symmetry in Hperm.
  exists later. split; [done|]. split; [done|].
  assert (Hseq : seqZ 1 n = 1 :: later_pages n).
  { unfold later_pages. rewrite seqZ_cons by lia. done. }
  assert (Hsub : 1 :: later ++ all_unfetched (jobs s) ≡ₚ seqZ 1 n).
  { rewrite Hseq. by constructor. }
  assert (Hnd : NoDup (1 :: later ++ all_unfetched (jobs s))).
  { rewrite Hsub. apply NoDup_seqZ. }
  split; [|split].
  - rewrite Hcalls. rewrite app_comm_cons in Hnd. by apply NoDup_app in Hnd as [? _].
  - intros page Hin. rewrite Hcalls in Hin.
    assert (Hin' : page ∈ seqZ 1 n).
    { rewrite <- Hsub, app_comm_cons. apply elem_of_app. by left. }
    apply elem_of_seqZ in Hin'. lia.
  - intros Hk. assert (Hz : live (jobs s) = 0%nat).
    { destruct (closer s); intuition (try done; lia). }
    rewrite (all_unfetched_done _ Hz), app_nil_r in Hsub. by rewrite Hcalls.
Qed.

End TransportProperties.

(** ** A last page below 1 *)

Section NoPagesProperties.
Context `{World} {C : Type} (K : consumer C) (p : paginated).

Lemma no_done_step a s ev s' :
  wg s = 0 /\ Forall (fun j => is_JDone j = false) (jobs s) ->
  step K p a s = Some (ev, s') ->
  wg s' = 0 /\ Forall (fun j => is_JDone j = false) (jobs s').
Proof.
  intros [Hwg Hall] Hst. step_inv Hst; try done.
  all: try (split; [done|]; apply Forall_insert; [done|];
            first [by eapply run_job_not_done | apply is_JDone_after_loop | done]).
  rewrite Hwg in *. done.
Qed.

Lemma not_done_has_finished (s : state C) i :
  Forall (fun j => is_JDone j = false) (jobs s) -> has_finished s i = false.
Proof.
  intros Hall. unfold has_finished. destruct (jobs s !! i) as [j|] eqn:Hj; [|done].
  by apply (Forall_lookup_1 _ _ _ _ Hall Hj).
Qed.

(** X9: when the first response gives a last page below 1, a panic is
    within reach of every consumer: at once for a negative page count,
    which [wg.Add] refuses, and for a page count of 0 through the one
    job that [channel] still launches, whose send meets a closed channel
    or whose [wg.Done] takes the counter below zero.  In no run does a job
    complete. *)
Theorem page_count_below_one_panics (c0 : C) cs n resp :
  firstReq p [] = (cs, FirstOk n resp) ->
  n <= 0 ->
  (exists sched evs s,
     exec K p sched (channel p c0) = Some (evs, s) /\ panicked s = true) /\
  (forall sched evs s i,
     exec K p sched (channel p c0) = Some (evs, s) ->
     has_finished s i = false /\ count (is_done i) evs = 0%nat).
Proof.
  intros Hf Hn. destruct (decide (n < 0)) as [Hneg|Hzero].
  - assert (Hch : channel p c0
                  = panic {| caller := Consuming; jobs := []; wg := 0;
                             closer := CNotLaunched; objects_closed := false;
                             errs_closed := false; cons := c0; calls := cs;
                             panicked := false |}).
    { unfold channel. rewrite Hf. by rewrite (proj2 (Z.ltb_lt n 0)). }
    split.
    + exists [], [], (channel p c0). split; [done|]. by rewrite Hch.
    + intros sched evs s i Hex.
      apply exec_blocked in Hex as (_ & -> & ->).
      * by rewrite Hch.
      * intros a. apply panicked_blocked. by rewrite Hch.
  - assert (n = 0) as -> by lia.
    pose proof (channel_launched p c0 _ _ _ Hf ltac:(lia)) as Hch.
    change (JPage <$> later_pages 0) with (@nil job) in Hch.
    split.
    + rewrite Hch. destruct (init p 1 (resp_Body resp)) as [[|o l]|e] eqn:Hinit.
      * exists [AStart 0; ADone 0]%nat. do 2 eexists.
        unfold exec, step. simpl. unfold decode. rewrite Hinit. simpl. done.
      * exists [AStart 0; ACloser; ACloser; ASendObj 0]%nat. do 2 eexists.
        unfold exec, step. simpl. unfold decode. rewrite Hinit. simpl. done.
      * exists [AStart 0; ACloser; ACloser; ACloser; ASendErr 0]%nat. do 2 eexists.
        unfold exec, step. simpl. unfold decode. rewrite Hinit. simpl. done.
    + intros sched evs s i Hex.
      assert (Hs : wg s = 0 /\ Forall (fun j => is_JDone j = false) (jobs s)).
      { eapply (exec_invariant K p
                  (fun s => wg s = 0 /\ Forall (fun j => is_JDone j = false) (jobs s)));
          [|  |exact Hex].
        - intros a s0 ev s1. apply no_done_step.
        - rewrite Hch. simpl. split; [done|]. by repeat constructor. }
      destruct Hs as [_ Hs]. pose proof (not_done_has_finished s i Hs) as Hfin.
      split; [done|].
      pose proof (exec_has_finished _ _ _ _ _ _ i Hex) as Hcount.
      rewrite Hfin in Hcount. simpl in Hcount. lia.
Qed.

End NoPagesProperties.

(** ** What the adapters forward *)

Section AdapterRuns.
Context `{World} (p : paginated) (handle : handler).

Lemma forwarded_cons ev evs : forwarded (ev :: evs) = forwarded [ev] ++ forwarded evs.
Proof. unfold forwarded. simpl. by repeat case_match. Qed.

Lemma handled_cons ev evs : handled (ev :: evs) = handled [ev] ++ handled evs.
Proof. unfold handled. simpl. by repeat case_match. Qed.

Lemma adapter_step_objects a s ev s' :
  step (adapter_loop handle) p a s = Some (ev, s') ->
  (Some <$> holding (cons s)) ++ objects_of [ev]
  = (Some <$> forwarded [ev]) ++ (Some <$> holding (cons s'))
  \/ (objects_of [ev] = [None] /\ forwarded [ev] = [] /\ holding (cons s) = [] /\
      cons s' = AdReturn).
Proof.
  intros Hst. unfold_step_in Hst.
  destruct (cons s) eqn:Hc; simpl in Hst.
  all: repeat case_match; simplify_eq; simpl; rewrite ?Hc; auto.
  destruct o; simpl; auto.
Qed.

Lemma adapter_objects sched s evs s' :
  exec (adapter_loop handle) p sched s = Some (evs, s') ->
  exists nils,
    (Some <$> holding (cons s)) ++ objects_of evs
    = (Some <$> forwarded evs) ++ (Some <$> holding (cons s')) ++ nils /\
    (nils = [] \/ nils = [None] /\ is_stopped (cons s') = true).
Proof.
  revert s evs. induction sched as [|a sched IH]; intros s evs Hex.
  - simplify_eq/=. exists []. rewrite !app_nil_r. auto.
  - apply exec_cons_inv in Hex as (ev & s1 & evs' & Hst & Hex & ->).
    rewrite objects_of_cons, forwarded_cons, fmap_app.
    destruct (adapter_step_objects _ _ _ _ Hst) as [Heq|(Ho & Hf & Hh & Hc)].
    + destruct (IH _ _ Hex) as (nils & Heq' & Hn). exists nils. split; [|done].
      by rewrite app_assoc, Heq, <- !app_assoc, Heq'.
    + destruct (exec_stopped p handle _ _ _ _ ltac:(by rewrite Hc) Hex)
        as (Hs & Hf' & Ho' & _).
      exists [None]. split; [|by right].
      rewrite Ho, Hf, Hh, Hf', Ho'. by destruct (cons s').
Qed.

Lemma adapter_step_errors a s ev s' :
  step (adapter_loop handle) p a s = Some (ev, s') ->
  exists rest,
    handling (cons s) ++ errors_of [ev] = handled [ev] ++ rest /\
    (length rest <= 1)%nat /\
    (panicked s' = false -> rest = handling (cons s')).
Proof.
  intros Hst. unfold_step_in Hst.
  destruct (cons s) eqn:Hc; simpl in Hst.
  all: repeat case_match; simplify_eq; simpl; rewrite ?Hc.
  all: eexists; (split; [reflexivity|]); (split; [simpl; lia|]).
  all: intros ?; simplify_eq; try done.
  all: by repeat case_match.
Qed.

Lemma adapter_errors sched s evs s' :
  exec (adapter_loop handle) p sched s = Some (evs, s') ->
  exists rest,
    handling (cons s) ++ errors_of evs = handled evs ++ rest /\
    (length rest <= 1)%nat /\
    (panicked s' = false -> rest = handling (cons s')).
Proof.
  revert s evs. induction sched as [|a sched IH]; intros s evs Hex.
  - simplify_eq/=. exists (handling (cons s')).
    split; [by rewrite app_nil_r|]. split; [|done].
    destruct (cons s'); simpl; lia.
  - apply exec_cons_inv in Hex as (ev & s1 & evs' & Hst & Hex & ->).
    rewrite errors_of_cons, handled_cons.
    destruct (adapter_step_errors _ _ _ _ Hst) as (rest1 & Heq1 & Hlen1 & Hr1).
    destruct (panicked s1) eqn:Hp1.
    + apply exec_blocked in Hex as (_ & -> & ->);
        [|intros a'; by apply panicked_blocked].
      exists rest1. rewrite !app_nil_r. split; [done|]. split; [done|].
      intros Hp. congruence.
    + destruct (IH _ _ Hex) as (rest & Heq & Hlen & Hr). exists rest.
      split; [|done].
      by rewrite app_assoc, Heq1, (Hr1 eq_refl), <- !app_assoc, Heq.
Qed.

Lemma close_step a s ev s' :
  step (adapter_loop handle) p a s = Some (ev, s') ->
  flag (results_closed (cons s'))
  = (count is_close_results [ev] + flag (results_closed (cons s)))%nat.
Proof.
  intros Hst. rewrite count_cons. unfold count.
  unfold_step_in Hst. destruct (cons s) eqn:Hc; simpl in Hst.
  all: cases_hyps; simplify_eq; simpl; rewrite ?Hc; try done.
  all: by repeat case_match.
Qed.

Lemma close_exec sched s evs s' :
  exec (adapter_loop handle) p sched s = Some (evs, s') ->
  flag (results_closed (cons s'))
  = (count is_close_results evs + flag (results_closed (cons s)))%nat.
Proof.
  revert s evs. induction sched as [|a sched IH]; intros s evs Hex.
  - by simplify_eq/=.
  - apply exec_cons_inv in Hex as (ev & s1 & evs' & Hst & Hex & ->).
    rewrite count_cons, (IH _ _ Hex), (close_step _ _ _ _ Hst), count_cons.
    unfold count. simpl. lia.
Qed.

(** Once the typed channel is closed the adapter takes nothing, forwards
    nothing and handles nothing. *)
Lemma closed_step a s ev s' :
  results_closed (cons s) = true ->
  step (adapter_loop handle) p a s = Some (ev, s') ->
  forwarded [ev] = [] /\ objects_of [ev] = [] /\ errors_of [ev] = [] /\
  handled [ev] = [].
Proof.
  intros Hr Hst. unfold_step_in Hst. destruct (cons s) eqn:Hc; simpl in Hst; try done.
  all: cases_hyps; simplify_eq; simpl; done.
Qed.

Lemma closed_exec sched s evs s' :
  results_closed (cons s) = true ->
  exec (adapter_loop handle) p sched s = Some (evs, s') ->
  forwarded evs = [] /\ objects_of evs = [] /\ errors_of evs = [] /\
  handled evs = [].
Proof.
  revert s evs. induction sched as [|a sched IH]; intros s evs Hr Hex.
  - by simplify_eq/=.
  - apply exec_cons_inv in Hex as (ev & s1 & evs' & Hst & Hex & ->).
    destruct (closed_step _ _ _ _ Hr Hst) as (Hf & Ho & He & Hh).
    assert (Hr1 : results_closed (cons s1) = true).
    { pose proof (close_step _ _ _ _ Hst) as Hfl. rewrite Hr in Hfl.
      destruct (results_closed (cons s1)); [done|]. simpl in Hfl. lia. }
    destruct (IH _ _ Hr1 Hex) as (Hf' & Ho' & He' & Hh').
    by rewrite forwarded_cons, objects_of_cons, errors_of_cons, handled_cons,
      Hf, Ho, He, Hh, Hf', Ho', He', Hh'.
Qed.

Lemma panic_inv_step a s ev s' :
  panic_inv handle s -> step (adapter_loop handle) p a s = Some (ev, s') ->
  panic_inv handle s'.
Proof.
  unfold panic_inv. intros Hi Hst.
  unfold_step_in Hst. destruct (cons s) eqn:Hc; simpl in Hst.
  all: cases_hyps; simplify_eq; simpl; rewrite ?Hc; try done.
  all: try (destruct Hi; congruence).
  all: try (by repeat case_match).
  all: eauto.
Qed.

(** X10: whatever the handler and the schedule, an adapter forwards the
    non-nil objects that it took from the engine, in the order in which it
    took them, each once, holding back at most the one it is about to
    forward; a nil object is the last thing it takes.  Likewise the errors
    whose handler has returned are the errors it took, in order, but for
    the one whose handler is running or has panicked. *)
Theorem adapter_forwards_in_order sched evs s :
  onlyFiles p handle sched = Some (evs, s) \/
  onlyFolders p handle sched = Some (evs, s) ->
  (exists nils,
     objects_of evs = (Some <$> (forwarded evs ++ holding (cons s))) ++ nils /\
     (nils = [] \/ nils = [None] /\ is_stopped (cons s) = true)) /\
  (exists rest,
     errors_of evs = handled evs ++ rest /\ (length rest <= 1)%nat /\
     (panicked s = false -> rest = handling (cons s))).
Proof.
  intros Hex.
  assert (Hex' : exec (adapter_loop handle) p sched (channel p (AdSelect 0))
                 = Some (evs, s)) by (by destruct Hex).
  split.
  - destruct (adapter_objects _ _ _ _ Hex') as (nils & Heq & Hn).
    rewrite channel_cons in Heq. simpl in Heq.
    exists nils. split; [|done]. by rewrite fmap_app, <- app_assoc.
  - destruct (adapter_errors _ _ _ _ Hex') as (rest & Heq & Hlen & Hr).
    rewrite channel_cons in Heq. simpl in Heq. eauto.
Qed.

End AdapterRuns.

(** ** A handler that lets the adapter go on *)

Section ContinuingAdapter.
Context `{World} (p : paginated) (handle : handler).
Hypothesis handle_continues : forall e, handle e = Continue.

Lemma continuing_step a s ev s' :
  continuing_inv p s -> step (adapter_loop handle) p a s = Some (ev, s') ->
  continuing_inv p s'.
Proof.
  intros (Hinv & Hp & Hall & Hc) Hst.
  pose proof (step_engine_inv _ _ _ _ _ _ Hinv Hst) as Hinv'.
  pose proof (step_all_pending_objects _ _ _ _ _ _ Hst) as Hperm.
  rewrite Hperm in Hall. apply Forall_app in Hall as [Hev Hall'].
  assert (Hp' : panicked s' = false).
  { destruct (panicked s') eqn:Hp'; [|done].
    pose proof (step_engine_no_panic _ _ _ _ _ _ Hinv Hst Hp') as ->.
    unfold_step_in Hst. destruct (cons s); simpl in Hst.
    all: rewrite ?handle_continues in Hst.
    all: repeat case_match; simplify_eq; simpl in *; first [done|congruence]. }
  split; [done|]. split; [done|]. split; [done|].
  clear Hinv Hinv' Hperm Hall'.
  unfold_step_in Hst. destruct (cons s) eqn:Hcs; simpl in Hst.
  all: rewrite ?handle_continues in Hst.
  all: cases_hyps; simplify_eq; simpl in *; rewrite ?Hcs; try done.
  all: try (apply Forall_cons in Hev as [[? ?] _]; by simplify_eq).
Qed.

Lemma continuing_settle s :
  continuing_inv p s ->
  exists sched evs s',
    exec (adapter_loop handle) p sched s = Some (evs, s') /\
    continuing_inv p s' /\ measure p s' = measure p s /\
    (cons s' = AdSelect 0 \/ cons s' = AdClosed).
Proof.
  intros Hinv. pose proof Hinv as ((Hcaller & _) & Hp & _ & Hc).
  destruct (cons s) eqn:Hcs; try done; subst.
  - exists [], [], s. simpl. rewrite Hcs. auto.
  - assert (Hst : step (adapter_loop handle) p ALocal s
                  = Some (EvLocal (LHandle e), set_cons (AdSelect 0) s)).
    { unfold_step. rewrite Hp, Hcaller, Hcs. simpl. by rewrite handle_continues. }
    exists [ALocal]. do 2 eexists. simpl. rewrite Hst.
    split; [done|]. split; [by eapply continuing_step|]. auto.
  - assert (Hst : step (adapter_loop handle) p ALocal s
                  = Some (EvLocal (LForward o), set_cons (AdSelect 0) s)).
    { unfold_step. by rewrite Hp, Hcaller, Hcs. }
    exists [ALocal]. do 2 eexists. simpl. rewrite Hst.
    split; [done|]. split; [by eapply continuing_step|]. auto.
  - assert (Hst : step (adapter_loop handle) p ALocal s
                  = Some (EvLocal LCloseResults, set_cons AdClosed s)).
    { unfold_step. by rewrite Hp, Hcaller, Hcs. }
    exists [ALocal]. do 2 eexists. simpl. rewrite Hst.
    split; [done|]. split; [by eapply continuing_step|]. auto.
  - exists [], [], s. simpl. rewrite Hcs. auto.
Qed.

Lemma continuing_select_can_close s :
  continuing_inv p s -> cons s = AdSelect 0 ->
  exists sched evs s',
    exec (adapter_loop handle) p sched s = Some (evs, s') /\ cons s' = AdClosed.
Proof.
  remember (measure p s) as m eqn:Hm. revert s Hm.
  induction (lt_wf m) as [m _ IH]. intros s -> Hinv Hcs.
  pose proof Hinv as (Hengine & Hp & _ & _).
  pose proof Hengine as (Hcaller & Hwg & Hcl).
  assert (Hdec : closer s = CDone \/ closer s <> CDone)
    by (destruct (closer s); (by left) || (by right)).
  destruct Hdec as [Hk|Hk].
  - rewrite Hk in Hcl. destruct Hcl as (_ & Ho & _).
    exists [ARecvObjectsClosed; ALocal]. do 2 eexists. split.
    + unfold exec. unfold_step. simpl. rewrite Hp, Ho, Hcaller, Hcs. simpl.
      rewrite Hp, Hcaller. simpl. done.
    + done.
  - destruct (engine_progress (adapter_loop handle) p s Hengine Hp)
      as (a & ev & s1 & Hst & _ & Hlt); [rewrite Hcs; by eexists..|done|].
    pose proof (continuing_step _ _ _ _ Hinv Hst) as Hinv1.
    destruct (continuing_settle _ Hinv1) as (sched1 & evs1 & s2 & Hex1 & Hinv2 & Hm2 & Hc2).
    destruct Hc2 as [Hc2|Hc2].
    + destruct (IH (measure p s2) ltac:(lia) s2 eq_refl Hinv2 Hc2)
        as (sched2 & evs2 & s3 & Hex2 & Hc3).
      exists (a :: sched1 ++ sched2), (ev :: evs1 ++ evs2), s3.
      split; [|done]. simpl. rewrite Hst.
      by rewrite exec_app, Hex1, Hex2.
    + exists (a :: sched1), (ev :: evs1), s2. split; [|done].
      simpl. by rewrite Hst, Hex1.
Qed.

Lemma continuing_can_close s :
  continuing_inv p s ->
  exists sched evs s',
    exec (adapter_loop handle) p sched s = Some (evs, s') /\ cons s' = AdClosed.
Proof.
  intros Hinv.
  destruct (continuing_settle _ Hinv) as (sched1 & evs1 & s1 & Hex1 & Hinv1 & _ & Hc1).
  destruct Hc1 as [Hc1|Hc1]; [|by eauto].
  destruct (continuing_select_can_close _ Hinv1 Hc1) as (sched2 & evs2 & s2 & Hex2 & Hc2).
  exists (sched1 ++ sched2), (evs1 ++ evs2), s2. split; [|done].
  by rewrite exec_app, Hex1, Hex2.
Qed.

(** X11: an adapter whose handler never sends on [quit] outlives the
    errors.  Past a first request that gives a last page [n >= 1], over
    pages without a nil object, no run panics; from every state the run can
    go on until the typed channel is closed; and when it is closed, the
    objects forwarded are a rearrangement of the decoded objects of all
    the pages that were fetched and decoded, and the errors handled are a
    rearrangement of the errors of the pages that failed. *)
Theorem continuing_adapter_delivers_all sched evs s cs n resp :
  firstReq p [] = (cs, FirstOk n resp) ->
  1 <= n ->
  (forall i l, page_outcome p resp i = Ok l -> Forall is_Some l) ->
  onlyFiles p handle sched = Some (evs, s) \/
  onlyFolders p handle sched = Some (evs, s) ->
  panicked s = false /\
  (cons s = AdClosed ->
     Some <$> forwarded evs ≡ₚ decoded_objects p resp (Z.to_nat n) /\
     handled evs
     ≡ₚ concat ((fun i => err_list (page_outcome p resp i)) <$> seq 0 (Z.to_nat n))) /\
  (exists sched' evs' s',
     exec (adapter_loop handle) p sched' s = Some (evs', s') /\ cons s' = AdClosed).
Proof.
  intros Hf Hn Hnonil Hex.
  assert (Hex' : exec (adapter_loop handle) p sched (channel p (AdSelect 0))
                 = Some (evs, s)) by (by destruct Hex).
  assert (Hdec : Forall is_Some (decoded_objects p resp (Z.to_nat n))).
  { apply Forall_concat_fmap. intros i _.
    destruct (page_outcome p resp i) as [l|e] eqn:Hi; simpl; [by eapply Hnonil|done]. }
  assert (Hinv0 : continuing_inv p (channel p (AdSelect 0))).
  { split; [by eapply channel_engine_inv|]. split.
    { by rewrite (channel_launched _ _ _ _ _ Hf) by lia. }
    split; [by rewrite (channel_all_pending_objects _ _ _ _ _ Hf Hn)|].
    by rewrite channel_cons. }
  assert (Hinv : continuing_inv p s).
  { eapply (exec_invariant (adapter_loop handle) p (continuing_inv p));
      [|exact Hinv0|exact Hex'].
    intros a s0 ev s1. apply continuing_step. }
  split; [by destruct Hinv as (_ & ? & _)|]. split; [|by apply continuing_can_close].
  intros Hc. destruct Hinv as ((_ & Hwg & Hcl) & Hp & _ & Hclosed).
  rewrite Hc in Hclosed.
  assert (Hz : live (jobs s) = 0%nat).
  { destruct (closer s); intuition (try congruence; lia). }
  destruct (all_done_nothing_pending p _ Hz) as [Hno Hne].
  pose proof (exec_all_pending_objects _ _ _ _ _ _ Hex') as Hpo.
  rewrite (channel_all_pending_objects _ _ _ _ _ Hf Hn), Hno, app_nil_r in Hpo.
  pose proof (exec_all_pending_errors _ _ _ _ _ _ Hex') as Hpe.
  rewrite (channel_all_pending_errors _ _ _ _ _ Hf Hn), Hne, app_nil_r in Hpe.
  destruct (adapter_objects _ _ _ _ _ _ Hex') as (nils & Heq & Hnils).
  destruct (adapter_errors _ _ _ _ _ _ Hex') as (rest & Heq' & _ & Hrest).
  rewrite channel_cons in Heq, Heq'. rewrite Hc in Heq. simpl in Heq, Heq'.
  rewrite (Hrest Hp), Hc in Heq'. simpl in Heq'. rewrite app_nil_r in Heq'.
  split; [|by rewrite <- Heq'].
  destruct Hnils as [->|[-> _]].
  - rewrite app_nil_r in Heq. by rewrite <- Heq.
  - exfalso. rewrite Hpo, Heq in Hdec.
    apply Forall_app in Hdec as [_ Hdec].
    apply Forall_cons in Hdec as [[? ?] _]. done.
Qed.

End ContinuingAdapter.

(** ** The default handler *)

Section DefaultHandler.
Context `{World} (p : paginated).

Lemma fatal_quit_step a s ev s' :
  quit_of (cons s) = 0%nat ->
  step (adapter_loop defaultErrorHandler) p a s = Some (ev, s') ->
  quit_of (cons s') = 0%nat.
Proof.
  intros Hq Hst. unfold_step_in Hst. destruct (cons s) eqn:Hc; simpl in Hst.
  all: cases_hyps; simplify_eq; simpl in *; rewrite ?Hc; try done.
  all: by repeat case_match.
Qed.

Lemma error_step handle a s i e s' :
  step (adapter_loop handle) p a s = Some (EvErr i e, s') ->
  cons s' = AdHandle e (quit_of (cons s)) /\ results_closed (cons s) = false.
Proof.
  intros Hst. unfold_step_in Hst. destruct (cons s) eqn:Hc; simpl in Hst.
  all: cases_hyps; simplify_eq; simpl in *; done.
Qed.

Lemma fatal_step a s ev s' e :
  cons s = AdHandle e 0 \/ cons s = AdUnwinding e ->
  step (adapter_loop defaultErrorHandler) p a s = Some (ev, s') ->
  forwarded [ev] = [] /\ objects_of [ev] = [] /\ errors_of [ev] = [] /\
  handled [ev] = [] /\
  (cons s' = AdHandle e 0 \/ cons s' = AdUnwinding e \/
   cons s' = AdPanicked /\ panicked s' = true).
Proof.
  intros [Hc|Hc] Hst.
  all: unfold_step_in Hst; rewrite ?Hc in Hst; simpl in Hst.
  all: repeat case_match; simplify_eq; simpl; rewrite ?Hc; auto 10.
Qed.

Lemma fatal_exec sched s evs s' e :
  cons s = AdHandle e 0 \/ cons s = AdUnwinding e ->
  exec (adapter_loop defaultErrorHandler) p sched s = Some (evs, s') ->
  forwarded evs = [] /\ objects_of evs = [] /\ errors_of evs = [] /\
  handled evs = [] /\
  (cons s' = AdHandle e 0 \/ cons s' = AdUnwinding e \/
   cons s' = AdPanicked /\ panicked s' = true).
Proof.
  revert s evs. induction sched as [|a sched IH]; intros s evs Hc Hex.
  - simplify_eq/=. repeat (split; [done|]). destruct Hc; auto.
  - apply exec_cons_inv in Hex as (ev & s1 & evs' & Hst & Hex & ->).
    destruct (fatal_step _ _ _ _ _ Hc Hst) as (Hf & Ho & He & Hh & Hc1).
    rewrite forwarded_cons, objects_of_cons, errors_of_cons, handled_cons.
    rewrite Hf, Ho, He, Hh. simpl.
    destruct Hc1 as [Hc1|[Hc1|[Hc1 Hp1]]].
    + exact (IH _ _ (or_introl Hc1) Hex).
    + exact (IH _ _ (or_intror Hc1) Hex).
    + apply exec_blocked in Hex as (_ & -> & ->);
        [|intros a'; by apply panicked_blocked].
      repeat (split; [done|]). auto.
Qed.

(** X12: with the default error handler the first error is the end.  In
    every run of [onlyFiles] or [onlyFolders] under it the typed channel
    is open when the adapter takes an error, and from then on the adapter
    forwards nothing, takes nothing more from the engine, and no handler
    returns.  Its two steps left are those of the panic of the handler,
    which nothing can block: the goroutine unwinds, so that its deferred
    close runs and the typed channel is closed, once, and then the
    program ends. *)
Theorem default_handler_ends_the_program sched evs s pre i e post :
  onlyFiles p defaultErrorHandler sched = Some (evs, s) \/
  onlyFolders p defaultErrorHandler sched = Some (evs, s) ->
  evs = pre ++ EvErr i e :: post ->
  forwarded post = [] /\ objects_of post = [] /\ errors_of post = [] /\
  handled post = [] /\
  count is_close_results pre = 0%nat /\
  (cons s = AdHandle e 0 /\ count is_close_results post = 0%nat \/
   cons s = AdUnwinding e /\ count is_close_results post = 1%nat \/
   cons s = AdPanicked /\ panicked s = true /\ count is_close_results post = 1%nat) /\
  (cons s = AdHandle e 0 -> panicked s = false ->
   exec (adapter_loop defaultErrorHandler) p [ALocal; ALocal] s
   = Some ([EvLocal LCloseResults; EvPanic], panic (set_cons AdPanicked s))) /\
  (cons s = AdUnwinding e -> panicked s = false ->
   step (adapter_loop defaultErrorHandler) p ALocal s
   = Some (EvPanic, panic (set_cons AdPanicked s))).
Proof.
  intros Hex Hevs.
  assert (Hex' : exec (adapter_loop defaultErrorHandler) p sched (channel p (AdSelect 0))
                 = Some (evs, s)) by (by destruct Hex).
  assert (Hcaller : caller s = Consuming).
  { eapply channel_run_caller; [exact Hex'|]. left. rewrite Hevs. by destruct pre. }
  subst evs.
  apply exec_split in Hex' as (sched1 & a & sched2 & s1 & s2 & -> & Hpre & Hst & Hpost).
  assert (Hq : quit_of (cons s1) = 0%nat).
  { eapply (exec_invariant (adapter_loop defaultErrorHandler) p
              (fun s => quit_of (cons s) = 0%nat)); [| |exact Hpre].
    - intros a0 s0 ev s0'. apply fatal_quit_step.
    - by rewrite channel_cons. }
  destruct (error_step _ _ _ _ _ _ Hst) as [Hc2 Hopen]. rewrite Hq in Hc2.
  destruct (fatal_exec _ _ _ _ _ (or_introl Hc2) Hpost) as (? & ? & ? & ? & Hc).
  pose proof (close_exec _ _ _ _ _ _ Hpre) as Hn1.
  rewrite channel_cons, Hopen in Hn1. simpl in Hn1.
  pose proof (close_exec _ _ _ _ _ _ Hpost) as Hn2.
  rewrite Hc2 in Hn2. simpl in Hn2.
  repeat (split; [done|]). split; [lia|]. split; [|split].
  - destruct Hc as [Hc|[Hc|[Hc Hp]]]; rewrite Hc in Hn2; simpl in Hn2.
    + left. split; [done|lia].
    + right. left. split; [done|lia].
    + right. right. split; [done|]. split; [done|lia].
  - intros Hcs Hp. simpl. unfold_step. simpl. rewrite Hp, Hcaller, Hcs. simpl.
    rewrite Hp, Hcaller. done.
  - intros Hcs Hp. unfold_step. rewrite Hp, Hcaller, Hcs. done.
Qed.

End DefaultHandler.

(** ** The engine does not panic on its own *)

Section EngineSafety.
Context `{World} {C : Type} (K : consumer C) (p : paginated).

Lemma quiet_local_step (s : state C) ev s' :
  quiet K -> step K p ALocal s = Some (ev, s') -> panicked s' = panicked s.
Proof.
  intros Hq Hst. unfold_step_in Hst.
  destruct (panicked s) eqn:Hp; [done|].
  destruct (caller s); try done.
  destruct (local K (cons s)) as [[l c']|] eqn:Hl; [|done].
  destruct l; simplify_eq; try done.
  by destruct (Hq _ _ Hl).
Qed.

(** X13: past a first request that gives a last page [n >= 1], the engine
    never panics on its own, whatever the schedule and whatever the
    consumer does with the two channels: no job sends on a closed
    channel, the counter of the wait group never goes below zero, and no
    channel is closed twice.  Only a step of the consumer's own code can
    panic, and none does when that code is free of panics. *)
Theorem engine_never_panics_on_its_own (c0 : C) cs n resp sched evs s :
  firstReq p [] = (cs, FirstOk n resp) ->
  1 <= n ->
  exec K p sched (channel p c0) = Some (evs, s) ->
  (quiet K -> panicked s = false) /\
  (forall a ev s', step K p a s = Some (ev, s') -> panicked s' = true -> a = ALocal) /\
  0 <= wg s <= n.
Proof.
  intros Hf Hn Hex.
  pose proof (channel_engine_inv p c0 _ _ _ Hf Hn) as Hinv0.
  split; [|split].
  - intros Hq.
    assert (Hs : engine_inv s /\ panicked s = false); [|by destruct Hs].
    eapply (exec_invariant K p (fun s => engine_inv s /\ panicked s = false));
      [| |exact Hex].
    + intros a s0 ev s1 [Hinv Hp] Hst. split; [by eapply step_engine_inv|].
      destruct (panicked s1) eqn:Hp1; [|done].
      pose proof (step_engine_no_panic _ _ _ _ _ _ Hinv Hst Hp1) as ->.
      rewrite (quiet_local_step _ _ _ Hq Hst) in Hp1. congruence.
    + split; [done|]. by rewrite (channel_launched _ _ _ _ _ Hf) by lia.
  - intros a ev s' Hst Hp'.
    pose proof (exec_engine_inv _ _ _ _ _ _ Hinv0 Hex) as Hinv.
    by eapply step_engine_no_panic.
  - pose proof (exec_engine_inv _ _ _ _ _ _ Hinv0 Hex) as (_ & Hwg & _).
    pose proof (exec_jobs_length _ _ _ _ _ _ Hex) as Hlen.
    rewrite (channel_jobs_length _ _ _ _ _ Hf Hn) in Hlen.
    assert (Hle : (live (jobs s) <= length (jobs s))%nat).
    { unfold live. apply length_filter. }
    lia.
Qed.

End EngineSafety.

(** ** The typed channel is closed once *)

Section AdapterClose.
Context `{World} (p : paginated) (handle : handler).

(** X14: whatever the handler and the schedule, an adapter closes its
    typed channel at most once, and exactly once when its goroutine has
    ended, be it by a return from the loop or by the panic of the
    handler, under which the deferred close runs as well; after the close
    it forwards nothing, so that it never sends on the closed channel,
    takes nothing more from the engine and calls no handler.  The states
    of a panic are reached under a handler that panics only, and the
    program has then ended. *)
Theorem adapter_closes_once sched evs s :
  onlyFiles p handle sched = Some (evs, s) \/
  onlyFolders p handle sched = Some (evs, s) ->
  count is_close_results evs = flag (results_closed (cons s)) /\
  (forall e, cons s = AdUnwinding e -> handle e = Fatal) /\
  (cons s = AdPanicked -> panicked s = true /\ exists e, handle e = Fatal) /\
  ((forall e, handle e <> Fatal) ->
   count is_close_results evs = flag (is_AdClosed (cons s))) /\
  (forall pre post, evs = pre ++ EvLocal LCloseResults :: post ->
     results_closed (cons s) = true /\ count is_close_results pre = 0%nat /\
     count is_close_results post = 0%nat /\
     forwarded post = [] /\ objects_of post = [] /\ errors_of post = [] /\
     handled post = []).
Proof.
  intros Hex.
  assert (Hex' : exec (adapter_loop handle) p sched (channel p (AdSelect 0))
                 = Some (evs, s)) by (by destruct Hex).
  pose proof (close_exec _ _ _ _ _ _ Hex') as Hcount.
  rewrite channel_cons in Hcount. simpl in Hcount. rewrite Nat.add_0_r in Hcount.
  assert (Hinv : panic_inv handle s).
  { eapply (exec_invariant (adapter_loop handle) p (panic_inv handle));
      [| |exact Hex'].
    - intros a s0 ev s1. apply panic_inv_step.
    - unfold panic_inv. by rewrite channel_cons. }
  unfold panic_inv in Hinv.
  split; [done|]. split; [|split; [|split]].
  - intros e Hc. by rewrite Hc in Hinv.
  - intros Hc. by rewrite Hc in Hinv.
  - intros Hnf. rewrite <- Hcount.
    destruct (cons s) eqn:Hc; try done.
    + by destruct (Hnf e).
    + destruct Hinv as (_ & e & He). by destruct (Hnf e).
  - intros pre post ->.
    apply exec_split in Hex' as (sched1 & a & sched2 & s1 & s2 & -> & Hpre & Hst & Hpost).
    pose proof (close_exec _ _ _ _ _ _ Hpre) as Hc1.
    rewrite channel_cons in Hc1. simpl in Hc1.
    pose proof (close_step _ _ _ _ _ _ Hst) as Hc2.
    rewrite count_cons in Hc2. unfold count in Hc2. simpl in Hc2.
    assert (Hclosed : results_closed (cons s2) = true).
    { destruct (results_closed (cons s2)); [done|]. simpl in Hc2. lia. }
    destruct (closed_exec _ _ _ _ _ _ Hclosed Hpost) as (Hf & Ho & He & Hh).
    pose proof (close_exec _ _ _ _ _ _ Hpost) as Hc3.
    rewrite Hclosed in Hc2, Hc3. simpl in Hc2, Hc3.
    assert (Hs : results_closed (cons s) = true).
    { destruct (results_closed (cons s)); [done|]. simpl in Hc3. lia. }
    rewrite Hs in Hc3. simpl in Hc3.
    split; [done|]. split; [lia|]. split; [lia|]. done.
Qed.

End AdapterClose.

(** ** ListFiles *)

Section ListFilesProperties.
Context `{World} (filesInitFunc : doer -> pageInitFunction).

Lemma assert_files_some (l : list obj) :
  Forall is_Some l -> exists files, assert_files l = Some files /\ Some <$> files = l.
Proof.
  induction 1 as [|o l [f ->] _ (files & Hf & Hl)]; [by exists []|].
  exists (f :: files). simpl. rewrite Hf. split; [done|]. by rewrite <- Hl.
Qed.

(** X15: the type assertions of [ListFiles] never meet a nil, whatever the
    pages hold: it returns either the error of [collect] with a nil slice,
    or a nil error with the objects that [collect] took from the engine,
    in the order in which it took them, up to the closed channel or the
    first nil. *)
Theorem ListFiles_assertions_hold (c : Course) (opts : params) (sched : list action)
    (r : ListFiles_result) :
  ListFiles filesInitFunc c opts sched = Some r ->
  exists evs s,
    collect (pagination c (filespath c) (filesInitFunc (Course_client c)) opts) sched
    = Some (evs, s) /\
    ((exists e, r = ListFilesReturn None (Some e) /\ errors_of evs = [e]) \/
     (exists files, r = ListFilesReturn (Some files) None /\ errors_of evs = [] /\
        (objects_of evs = Some <$> files \/
         objects_of evs = (Some <$> files) ++ [None]))).
Proof.
  unfold ListFiles. intros Hr.
  destruct (collect _ sched) as [[evs s]|] eqn:Hex; [|done].
  exists evs, s. split; [done|].
  destruct (cons s) as [coll|objs err] eqn:Hc; [done|]. simplify_eq.
  pose proof (collect_trace _ _ _ _ _ _ (channel_cons _ _) Hex) as Htr.
  rewrite Hc in Htr. simpl in Htr.
  destruct Htr as (pre & ev & post & -> & Hpe & Hpo & Hqo & Hqe & Hres).
  rewrite errors_of_app, (errors_of_cons ev post), Hpe, Hqe.
  rewrite objects_of_app, (objects_of_cons ev post), Hqo.
  destruct Hres as [(i & e & -> & -> & ->)|(Hev & -> & ->)].
  - left. by exists e.
  - right. destruct (assert_files_some _ Hpo) as (files & Hf & Hl).
    exists files. unfold ListFiles_after. simpl. rewrite Hf. split; [done|].
    rewrite Hl. destruct Hev as [->|[i ->]]; simpl.
    + split; [done|]. left. by rewrite app_nil_r.
    + split; [done|]. by right.
Qed.

End ListFilesProperties.

(** ** collect under two schedules *)

Section CollectAgreement.
Context `{World} (p : paginated).

Lemma collect_every_object sched evs s cs n resp objs err :
  firstReq p [] = (cs, FirstOk n resp) -> 1 <= n ->
  (forall i, (i < Z.to_nat n)%nat ->
     exists l, page_outcome p resp i = Ok l /\ Forall is_Some l) ->
  collect p sched = Some (evs, s) ->
  cons s = Returned objs err ->
  err = None /\
  exists coll, objs = Some coll /\ coll ≡ₚ decoded_objects p resp (Z.to_nat n).
Proof.
  intros Hf Hn Hall Hex Hret. unfold collect in Hex.
  pose proof (channel_engine_inv p (Collecting []) _ _ _ Hf Hn) as Hinv0.
  pose proof (exec_all_pending_errors _ _ _ _ _ _ Hex) as Hperme.
  rewrite (channel_all_pending_errors _ _ _ _ _ Hf Hn) in Hperme.
  rewrite concat_fmap_nil in Hperme.
  2:{ intros i Hi%elem_of_seq. destruct (Hall i) as (l & -> & _); [lia|done]. }
  apply Permutation_nil_l in Hperme. symmetry in Hperme.
  apply app_eq_nil in Hperme as [Herrs _].
  assert (Hdec : Forall is_Some (decoded_objects p resp (Z.to_nat n))).
  { apply Forall_concat_fmap. intros i Hi%elem_of_seq.
    destruct (Hall i) as (l & -> & Hl); [lia|done]. }
  pose proof (exec_all_pending_objects _ _ _ _ _ _ Hex) as Hpermo.
  rewrite (channel_all_pending_objects _ _ _ _ _ Hf Hn) in Hpermo.
  assert (Hobjs : Forall is_Some (objects_of evs)).
  { rewrite Hpermo in Hdec. by apply Forall_app in Hdec as [? _]. }
  pose proof (collect_trace _ _ _ _ _ _ (channel_cons p _) Hex) as Htr.
  rewrite Hret in Htr. simpl in Htr.
  destruct Htr as (pre & ev & post & -> & Hpe & Hpo & Hqo & Hqe & Hres).
  destruct Hres as [(i & e & -> & _ & _)|([->|[i ->]] & -> & ->)].
  - rewrite errors_of_app, (errors_of_cons (EvErr i e) post) in Herrs.
    by apply app_eq_nil in Herrs as [_ ?].
  - split; [done|]. eexists. split; [done|].
    apply exec_split in Hex as (sched1 & a & sched2 & s1 & s2 & -> & Hpre & Hst & _).
    pose proof (exec_engine_inv _ _ _ _ _ _ Hinv0 Hpre) as Hinv1.
    pose proof (step_objects_closed_event _ _ _ _ Hinv1 Hst) as Hz.
    pose proof (exec_all_pending_objects _ _ _ _ _ _ Hpre) as Hperm.
    rewrite (channel_all_pending_objects _ _ _ _ _ Hf Hn) in Hperm.
    destruct (all_done_nothing_pending p _ Hz) as [Hnp _].
    by rewrite Hnp, app_nil_r in Hperm.
  - rewrite objects_of_app, (objects_of_cons (EvObj i None) post) in Hobjs.
    apply Forall_app in Hobjs as [_ Hobjs]. simpl in Hobjs.
    apply Forall_cons in Hobjs as [[x Hx] _]. done.
Qed.

(** X16: the order in which the pages arrive does not change what
    [collect] returns, but for its order: when every page is fetched and
    decoded without error and holds no nil object, two runs of [collect]
    under any two schedules return sequences that are rearrangements of
    each other, of the same length. *)
Theorem collect_is_schedule_independent sched1 sched2 evs1 evs2 s1 s2
    cs n resp objs1 err1 objs2 err2 :
  firstReq p [] = (cs, FirstOk n resp) ->
  1 <= n ->
  (forall i, (i < Z.to_nat n)%nat ->
     exists l, page_outcome p resp i = Ok l /\ Forall is_Some l) ->
  collect p sched1 = Some (evs1, s1) -> cons s1 = Returned objs1 err1 ->
  collect p sched2 = Some (evs2, s2) -> cons s2 = Returned objs2 err2 ->
  err1 = None /\ err2 = None /\
  exists coll1 coll2,
    objs1 = Some coll1 /\ objs2 = Some coll2 /\
    coll1 ≡ₚ coll2 /\ length coll1 = length coll2.
Proof.
  intros Hf Hn Hall Hex1 Hr1 Hex2 Hr2.
  destruct (collect_every_object _ _ _ _ _ _ _ _ Hf Hn Hall Hex1 Hr1)
    as (-> & coll1 & -> & Hp1).
  destruct (collect_every_object _ _ _ _ _ _ _ _ Hf Hn Hall Hex2 Hr2)
    as (-> & coll2 & -> & Hp2).
  split; [done|]. split; [done|]. exists coll1, coll2.
  split; [done|]. split; [done|].
  assert (Hp : coll1 ≡ₚ coll2) by (by rewrite Hp1, Hp2).
  split; [done|]. by rewrite Hp.
Qed.

End CollectAgreement.

(** ** After collect has returned *)

Section EarlyReturn.
Context `{World} (p : paginated).

Lemma live_lookup_pos js i j :
  js !! i = Some j -> is_JDone j = false -> live js <> 0%nat.
Proof.
  intros Hi Hj Hz. pose proof (live_zero _ _ _ Hz Hi). congruence.
Qed.

Lemma returned_job_stays a s ev s' i j objs err :
  engine_inv s -> cons s = Returned objs err ->
  jobs s !! i = Some j -> sending j <> ([], []) ->
  step collect_loop p a s = Some (ev, s') ->
  jobs s' !! i = Some j /\ panicked s' = false.
Proof.
  intros (Hcaller & Hwg & Hcl) Hc Hi Hsend Hst.
  assert (Hnd : is_JDone j = false).
  { by destruct j. }
  pose proof (live_lookup_pos _ _ _ Hi Hnd) as Hlive.
  assert (Hopen : closer s = CWait /\ objects_closed s = false /\ errs_closed s = false).
  { destruct (closer s); intuition (try done; lia). }
  destruct Hopen as (Hk & Ho & He).
  unfold_step_in Hst. rewrite Hcaller, Hc, Hk, Ho, He in Hst. simpl in Hst.
  destruct a; cases_hyps; simplify_eq; simpl; try done.
  all: try (destruct (decide (i0 = i)) as [->|Hne];
            [|by rewrite list_lookup_insert_ne]).
  all: try match goal with
           | Hlt : (_ <? _) = true |- _ => apply Z.ltb_lt in Hlt; lia
           end.
  all: try (split; [|done]).
  all: match goal with
       | H1 : jobs ?s0 !! ?k = Some ?a, H2 : jobs ?s0 !! ?k = Some ?b |- _ =>
           assert (a = b) by congruence; subst
       end.
  all: try match goal with
           | Hr : run_job _ ?x = Some _ |- _ => destruct x
           end.
  all: by simplify_eq/=.
Qed.

(** After [collect] has returned, a job that stands at a send keeps it
    from ever being done, and so the closing goroutine from closing. *)
Lemma returned_keeps_channels_open (s : state collect_pc) objs err i j sched' evs' s' :
  engine_inv s -> panicked s = false ->
  cons s = Returned objs err ->
  jobs s !! i = Some j -> sending j <> ([], []) ->
  exec collect_loop p sched' s = Some (evs', s') ->
  cons s' = Returned objs err /\ jobs s' !! i = Some j /\ panicked s' = false /\
  closer s' = CWait /\ objects_closed s' = false /\ errs_closed s' = false.
Proof.
  intros Hinv Hp Hc Hi Hsend Hex'.
  assert (Hnd : is_JDone j = false).
  { by destruct j. }
  assert (Hs' : engine_inv s' /\ cons s' = Returned objs err /\
                jobs s' !! i = Some j /\ panicked s' = false).
  { eapply (exec_invariant collect_loop p
              (fun s => engine_inv s /\ cons s = Returned objs err /\
                        jobs s !! i = Some j /\ panicked s = false));
      [| |exact Hex'].
    - intros a s0 ev s1 (Hinv0 & Hc0 & Hi0 & _) Hst.
      split; [by eapply step_engine_inv|].
      destruct (returned_step _ _ _ _ _ _ _ Hc0 Hst) as (? & _).
      split; [done|]. by eapply returned_job_stays.
    - done. }
  destruct Hs' as ((_ & Hwg & Hcl) & Hc' & Hi' & Hp').
  pose proof (live_lookup_pos _ _ _ Hi' Hnd) as Hlive.
  repeat (split; [done|]).
  destruct (closer s'); intuition (try done; lia).
Qed.

Lemma objects_from_nil i evs : objects_of evs = [] -> objects_from i evs = [].
Proof.
  induction evs as [|ev evs IH]; [done|].
  rewrite objects_of_cons, objects_from_cons. intros [Hev Hevs]%app_eq_nil.
  rewrite (IH Hevs), app_nil_r. by destruct ev.
Qed.

(** X17: a [collect] that returns early leaves workers behind.  Past a
    first request that gives a last page [n >= 1], once [collect] has
    returned, a job that stands at a send stays there for ever: whatever
    runs afterwards, nothing receives what it holds, the closing goroutine
    stays in its wait, and neither channel is ever closed. *)
Theorem early_return_leaves_jobs_blocked sched evs s cs n resp objs err i j
    sched' evs' s' :
  firstReq p [] = (cs, FirstOk n resp) ->
  1 <= n ->
  collect p sched = Some (evs, s) ->
  cons s = Returned objs err ->
  jobs s !! i = Some j ->
  (exists e, j = JSendErr e) \/ (exists o l, j = JSendObjs o l) ->
  exec collect_loop p sched' s = Some (evs', s') ->
  jobs s' !! i = Some j /\
  objects_of evs' = [] /\ errors_of evs' = [] /\
  closer s' = CWait /\ objects_closed s' = false /\ errs_closed s' = false /\
  panicked s' = false.
Proof.
  intros Hf Hn Hex Hc Hi Hj Hex'.
  destruct (collect_reachable _ _ _ _ _ _ _ Hf Hn Hex) as [Hinv Hp].
  assert (Hsend : sending j <> ([], [])).
  { by destruct Hj as [[e ->]|(o & l & ->)]. }
  destruct (exec_returned _ _ _ _ _ _ _ Hc Hex') as (_ & Ho' & He').
  destruct (returned_keeps_channels_open _ _ _ _ _ _ _ _ Hinv Hp Hc Hi Hsend Hex')
    as (_ & Hi' & Hp' & Hk & Hco & Hce).
  done.
Qed.

End EarlyReturn.

(** ** Files and folders *)

(** *** filepath.Split *)

Lemma substring_none n s : substring n 0 s = EmptyString.
Proof.
  revert n. induction s as [|c s IH]; intros [|n]; simpl; auto.
Qed.

Lemma substring_all s : substring 0 (String.length s) s = s.
Proof. induction s as [|c s IH]; simpl; [done|by f_equal]. Qed.

Lemma length_substring_prefix s k :
  (k <= String.length s)%nat -> String.length (substring 0 k s) = k.
Proof.
  revert k. induction s as [|c s IH]; intros [|k] Hk; simpl in *; try done; try lia.
  f_equal. apply IH. lia.
Qed.

Lemma get_substring_prefix s k i :
  (i < k)%nat -> String.get i (substring 0 k s) = String.get i s.
Proof.
  revert k i. induction s as [|c s IH]; intros [|k] i Hi; simpl; try done; try lia.
  destruct i as [|i]; [done|]. apply IH. lia.
Qed.

Lemma Split_loop_le path k : (Split_loop path k <= k)%nat.
Proof.
  induction k as [|i IH]; simpl; [done|].
  destruct (String.get i path) as [c|]; [destruct (IsPathSeparator c)|]; lia.
Qed.

Lemma Split_loop_separator path k :
  Split_loop path k = 0%nat \/
  exists i, Split_loop path k = S i /\ String.get i path = Some "/"%char.
Proof.
  induction k as [|i IH]; simpl; [by left|].
  destruct (String.get i path) as [c|] eqn:Hc; [|done].
  unfold IsPathSeparator. case_bool_decide as Hs; [|done].
  subst. right. by exists i.
Qed.

Lemma Split_loop_at_separator path i :
  String.get i path = Some "/"%char -> Split_loop path (S i) = S i.
Proof. intros Hi. simpl. by rewrite Hi. Qed.

(** The directory part of a path has no file part. *)
Lemma Split_dir path : Split (Split path).1 = ((Split path).1, EmptyString).
Proof.
  unfold Split. simpl.
  pose proof (Split_loop_le path (String.length path)) as Hle.
  set (k := Split_loop path (String.length path)) in *.
  rewrite (length_substring_prefix _ _ Hle).
  assert (Hk : Split_loop (substring 0 k path) k = k).
  { destruct (Split_loop_separator path (String.length path)) as [Hz|(i & Hi & Hsep)];
      fold k in Hz || fold k in Hi.
    - by rewrite Hz.
    - rewrite Hi. apply Split_loop_at_separator.
      rewrite get_substring_prefix by lia. done. }
  rewrite Hk, Nat.sub_diag, substring_none. f_equal.
  rewrite <- (length_substring_prefix _ _ Hle) at 1. apply substring_all.
Qed.

Section FolderProperties.
Context `{FolderApi}.

(** X18: [createFolder] never uses the name it is given, and
    [Folder.CreateFolder] loses the last element of its path: for every
    path, the request that it makes carries an empty name, and as parent
    folder path the directory part of the path, when there is one.
    Creating [a/b/c] sends what creating [a/b/] sends. *)
Theorem CreateFolder_sends_an_empty_name (f : Folder) (path : string) (opts : list Option) :
  (forall d p name name' respath v,
     createFolder d p name opts respath v = createFolder d p name' opts respath v) /\
  Folder_CreateFolder f path opts
  = (let dir := (Split path).1 in
     let q := [("name"%string, [EmptyString])] in
     let q := if bool_decide (dir <> EmptyString)
              then params_Set q "parent_folder_path" dir else q in
     match post (Folder_client f) (Sprintf "/folders/%d/folders" [Folder_ID f])
                (params_Add q opts) with
     | Err e => (None, Some e)
     | Ok resp =>
         let '(g, err) := json_Decode (resp_Body resp) (new_Folder (Folder_client f)) in
         (Some g, err)
     end) /\
  Folder_CreateFolder f path opts = Folder_CreateFolder f (Split path).1 opts.
Proof.
  split; [done|].
  assert (Hc : forall dir name,
    Split dir = (dir, EmptyString) ->
    createFolder (Folder_client f) dir name opts "/folders/%d/folders" [Folder_ID f]
    = (let q := [("name"%string, [EmptyString])] in
       let q := if bool_decide (dir <> EmptyString)
                then params_Set q "parent_folder_path" dir else q in
       match post (Folder_client f) (Sprintf "/folders/%d/folders" [Folder_ID f])
                  (params_Add q opts) with
       | Err e => (None, Some e)
       | Ok resp =>
           let '(g, err) := json_Decode (resp_Body resp) (new_Folder (Folder_client f)) in
           (Some g, err)
       end)).
  { intros dir name Hd. unfold createFolder.
    destruct (Split dir) as [parentpath name0]. by simplify_eq. }
  pose proof (Split_dir path) as Hd.
  unfold Folder_CreateFolder.
  destruct (Split path) as [dir name] eqn:Hs. cbn [fst] in *.
  split; [by apply Hc|].
  rewrite Hd. by rewrite !Hc.
Qed.

(** X19: [Folder.ParentFolder] remembers a failed lookup as a success:
    whatever the first call returns, a second call on the same folder
    makes no request and returns the same parent with a nil error, also
    when the first call returned an error. *)
Theorem Folder_ParentFolder_is_asked_once (f : Folder) :
  let '(f1, (g1, err1), reqs1) := Folder_ParentFolder f in
  Folder_ParentFolder f1 = (f1, (g1, None), []) /\
  (Folder_parent f = None ->
     reqs1 = [("folders/%d"%string, [ParentFolderID f])] /\
     (g1, err1) = getjson (Folder_client f) (new_Folder (Folder_client f))
                          "folders/%d" [ParentFolderID f]) /\
  (forall g, Folder_parent f = Some g -> reqs1 = [] /\ g1 = g /\ err1 = None).
Proof.
  unfold Folder_ParentFolder at 1. destruct (Folder_parent f) as [g|] eqn:Hp.
  - split; [|split; [done|]].
    + unfold Folder_ParentFolder. by rewrite Hp.
    + by intros g' [= <-].
  - destruct (getjson _ _ _ _) as [g err] eqn:Hg. done.
Qed.

(** X20: [File.ParentFolder] reuses the folder it fetched only when the
    identifier of that folder is the file's [FolderID].  After a call that
    returned a folder with that identifier, the next call makes no request
    and returns the same folder with a nil error, whether the first call
    had returned an error or not; after a call that returned a folder with
    another identifier, the next call asks the server again. *)
Theorem File_ParentFolder_cache (f : File) :
  let '(f1, (g1, err1), reqs1) := File_ParentFolder f in
  (Folder_ID g1 = FolderID f -> File_ParentFolder f1 = (f1, (g1, None), [])) /\
  (Folder_ID g1 <> FolderID f ->
     (File_ParentFolder f1).2 = [("folders/%d"%string, [FolderID f])]) /\
  (reqs1 = [] \/ reqs1 = [("folders/%d"%string, [FolderID f])]).
Proof.
  unfold File_ParentFolder at 1.
  destruct (getjson (File_client f) (new_Folder (File_client f)) "folders/%d" [FolderID f])
    as [g err] eqn:Hg.
  assert (Hfetch : forall f', File_folder f' = Some g -> FolderID f' = FolderID f ->
            File_client f' = File_client f ->
            (Folder_ID g = FolderID f -> File_ParentFolder f' = (f', (g, None), [])) /\
            (Folder_ID g <> FolderID f ->
               (File_ParentFolder f').2 = [("folders/%d"%string, [FolderID f])])).
  { intros f' Hf' Hid Hcl. unfold File_ParentFolder. rewrite Hf', Hid, Hcl, Hg. split.
    - intros Heq. by rewrite bool_decide_true.
    - intros Hne. by rewrite bool_decide_false. }
  destruct (File_folder f) as [g0|] eqn:Hf0.
  - case_bool_decide as Hid.
    + split; [|split; [done|by left]].
      intros _. unfold File_ParentFolder. by rewrite Hf0, bool_decide_true.
    + destruct (Hfetch (set_folder g f)) as [? ?]; [done..|]. auto.
  - destruct (Hfetch (set_folder g f)) as [? ?]; [done..|]. auto.
Qed.

End FolderProperties.

(** * The properties at work *)

Lemma racing_run_ok : collect three_pages racing = Some racing_run.
Proof. vm_compute. reflexivity. Qed.

Lemma failing_run_ok : collect second_page_down failing_last = Some failing_run.
Proof. vm_compute. reflexivity. Qed.

Lemma cancelling_run_ok :
  onlyFiles second_page_down (fun _ => Cancel) cancelling = Some cancelling_run.
Proof. vm_compute. reflexivity. Qed.

Lemma nil_run_ok : collect nil_in_first_page up_to_nil = Some nil_run.
Proof. vm_compute. reflexivity. Qed.

Lemma nil_forwarding_run_ok :
  onlyFolders nil_in_first_page defaultErrorHandler up_to_nil_forwarding
  = Some nil_forwarding_run.
Proof. vm_compute. reflexivity. Qed.

Lemma three_pages_first :
  firstReq three_pages [] = ([1], FirstOk 3 (first_response (last_is "3"))).
Proof. vm_compute. reflexivity. Qed.

Lemma second_page_down_first :
  firstReq second_page_down [] = ([1], FirstOk 3 (first_response (last_is "3"))).
Proof. vm_compute. reflexivity. Qed.

Lemma nil_in_first_page_first :
  firstReq nil_in_first_page [] = ([1], FirstOk 2 (first_response (last_is "2"))).
Proof. vm_compute. reflexivity. Qed.

(** The scenario of the specification: three pages of two objects each,
    and two schedules. *)
Example three_pages_six_objects :
  (exists evs s objs, collect three_pages racing = Some (evs, s) /\
     cons s = Returned (Some objs) None /\ length objs = 6%nat) /\
  (exists evs s objs, collect three_pages in_page_order = Some (evs, s) /\
     cons s = Returned (Some objs) None /\ length objs = 6%nat).
Proof. split; do 3 eexists; (split; [vm_compute; reflexivity|]); split; reflexivity. Qed.

Lemma three_pages_decode i :
  (i < Z.to_nat 3)%nat ->
  exists l, page_outcome three_pages (first_response (last_is "3")) i = Ok l /\
            Forall is_Some l.
Proof.
  intros Hi. destruct i as [|[|[|i]]]; [..|lia].
  all: eexists; split; [vm_compute; reflexivity|]; repeat constructor; eauto.
Qed.

Lemma collect_returns_every_object_witness :
  (forall objs err, cons racing_run.2 = Returned objs err ->
     err = None /\
     exists coll, objs = Some coll /\
       coll ≡ₚ decoded_objects three_pages (first_response (last_is "3")) (Z.to_nat 3) /\
       length coll
       = sum_list ((fun i => length (ok_list (page_outcome three_pages
                                               (first_response (last_is "3")) i)))
                     <$> seq 0 (Z.to_nat 3))) /\
  (exists sched' evs' s',
     exec collect_loop three_pages sched' racing_run.2 = Some (evs', s') /\
     is_Returned (cons s') = true).
Proof.
  apply (@collect_returns_every_object plain_world three_pages racing racing_run.1
           racing_run.2 [1] 3 (first_response (last_is "3"))).
  - exact three_pages_first.
  - lia.
  - exact three_pages_decode.
  - exact racing_run_ok.
Defined.

(** C1 as stated fails on [nil_in_first_page]: both pages are fetched and
    decoded without error, into three and one objects, and [collect]
    returns one object and a nil error. *)
Lemma nil_object_cuts_collect_short :
  firstReq nil_in_first_page [] = ([1], FirstOk 2 (first_response (last_is "2"))) /\
  page_outcome nil_in_first_page (first_response (last_is "2")) 0
  = Ok [Some 1%nat; None; Some 2%nat] /\
  page_outcome nil_in_first_page (first_response (last_is "2")) 1 = Ok [Some 7%nat] /\
  collect nil_in_first_page up_to_nil = Some nil_run /\
  cons nil_run.2 = Returned (Some [Some 1%nat]) None /\
  length [Some 1%nat] <> (3 + 1)%nat.
Proof.
  split; [exact nil_in_first_page_first|].
  split; [vm_compute; reflexivity|]. split; [vm_compute; reflexivity|].
  split; [exact nil_run_ok|]. split; [reflexivity|]. simpl. lia.
Qed.

Lemma reader_keeps_receiving : keeps_receiving reader.
Proof. intros c. split; eexists; reflexivity. Qed.

Lemma reading_run_ok :
  exec reader second_page_down reading (channel second_page_down tt) = Some reading_run.
Proof. vm_compute. reflexivity. Qed.

Lemma returning_early_run_ok :
  collect second_page_down returning_early = Some returning_early_run.
Proof. vm_compute. reflexivity. Qed.

(** Under [failing_last] the job of page 1 hands over its two objects
    and no error, the job of page 2, whose GET fails, that error and no
    object, and [collect] is where its code is after receiving them; a
    caller that keeps receiving can be handed every page in full. *)
Lemma every_page_is_delivered_once_witness :
  (objects_from 0 failing_run.1
   = ok_list (page_outcome second_page_down (first_response (last_is "3")) 0) /\
   errors_from 0 failing_run.1
   = err_list (page_outcome second_page_down (first_response (last_is "3")) 0) /\
   objects_from 1 failing_run.1
   = ok_list (page_outcome second_page_down (first_response (last_is "3")) 1) /\
   errors_from 1 failing_run.1
   = err_list (page_outcome second_page_down (first_response (last_is "3")) 1) /\
   received collect_loop (Collecting []) failing_run.1 = Some (cons failing_run.2)) /\
  (exists sched' evs' s',
     exec reader second_page_down (reading ++ sched') (channel second_page_down tt)
     = Some (reading_run.1 ++ evs', s') /\
     closer s' = CDone /\ panicked s' = false /\
     forall i, (i < Z.to_nat 3)%nat ->
       objects_from i (reading_run.1 ++ evs')
       = ok_list (page_outcome second_page_down (first_response (last_is "3")) i) /\
       errors_from i (reading_run.1 ++ evs')
       = err_list (page_outcome second_page_down (first_response (last_is "3")) i)).
Proof.
  split.
  - destruct (@every_page_is_delivered_once plain_world collect_pc collect_loop
                second_page_down (Collecting []) [1] 3 (first_response (last_is "3"))
                failing_last failing_run.1 failing_run.2)
      as (Hpages & Hrecv & _).
    + vm_compute. reflexivity.
    + lia.
    + exact failing_run_ok.
    + destruct (Hpages 0%nat) as (_ & _ & _ & Hfin0); [vm_compute; lia|].
      destruct (Hpages 1%nat) as (_ & _ & _ & Hfin1); [vm_compute; lia|].
      destruct (Hfin0 eq_refl) as [Ho0 He0]. destruct (Hfin1 eq_refl) as [Ho1 He1].
      split; [exact Ho0|]. split; [exact He0|]. split; [exact Ho1|].
      split; [exact He1|]. apply Hrecv. reflexivity.
  - destruct (@every_page_is_delivered_once plain_world unit reader
                second_page_down tt [1] 3 (first_response (last_is "3"))
                reading reading_run.1 reading_run.2)
      as (_ & _ & _ & _ & _ & Hgoes).
    + vm_compute. reflexivity.
    + lia.
    + exact reading_run_ok.
    + apply Hgoes; [exact reader_keeps_receiving|reflexivity].
Defined.

(** What the three jobs of [failing_run] handed over, and what [collect]
    made of it. *)
Example failing_run_delivered :
  objects_from 0 failing_run.1 = [Some 11%nat; Some 12%nat] /\
  errors_from 0 failing_run.1 = [] /\
  objects_from 1 failing_run.1 = [] /\
  errors_from 1 failing_run.1 = [ErrExternal "2"] /\
  objects_from 2 failing_run.1 = [Some 31%nat; Some 32%nat] /\
  cons failing_run.2 = Returned None (Some (ErrExternal "2")).
Proof. repeat split; reflexivity. Qed.

(** C2 as stated fails on [second_page_down]: page 1 is fetched and
    decoded without error into two objects, [collect] returns on the
    error of page 2 before it has received them, and however the run goes
    on, no object of page 1 is ever handed over and its job never
    terminates. *)
Lemma decoded_objects_left_undelivered :
  page_outcome second_page_down (first_response (last_is "3")) 0
  = Ok [Some 11%nat; Some 12%nat] /\
  collect second_page_down returning_early = Some returning_early_run /\
  cons returning_early_run.2 = Returned None (Some (ErrExternal "2")) /\
  (forall sched evs s,
     collect second_page_down (returning_early ++ sched) = Some (evs, s) ->
     objects_from 0 evs = [] /\ has_finished s 0 = false /\
     cons s = Returned None (Some (ErrExternal "2"))).
Proof.
  split; [vm_compute; reflexivity|]. split; [exact returning_early_run_ok|].
  split; [reflexivity|].
  intros sched evs s Hex.
  destruct (exec_app_inv collect_loop second_page_down _ _ _ _ _ _ _
              returning_early_run_ok Hex) as (evs' & Hex' & ->).
  destruct (@collect_reachable plain_world second_page_down returning_early
              returning_early_run.1 returning_early_run.2 [1] 3
              (first_response (last_is "3")))
    as [Hinv Hp]; [vm_compute; reflexivity|lia|exact returning_early_run_ok|].
  destruct (@returned_keeps_channels_open plain_world second_page_down
              returning_early_run.2 None (Some (ErrExternal "2")) 0%nat
              (@JSendObjs plain_world (Some 11%nat) [Some 12%nat]) sched evs' s)
    as (Hc & Hj & _); [exact Hinv|exact Hp|reflexivity|reflexivity|discriminate
                      |exact Hex'|].
  destruct (exec_returned second_page_down sched returning_early_run.2 evs' s
              None (Some (ErrExternal "2")) eq_refl Hex') as (_ & Ho & _).
  split; [|split; [|exact Hc]].
  - apply objects_from_nil. rewrite objects_of_app, Ho. reflexivity.
  - unfold has_finished. by rewrite Hj.
Qed.

Lemma closed_once_after_all_jobs_witness :
  (count is_close_objects racing_run.1 = 1%nat /\
   count is_close_errs racing_run.1 = 1%nat) /\
  (exists sched' evs' s',
     exec reader second_page_down (reading ++ sched') (channel second_page_down tt)
     = Some (reading_run.1 ++ evs', s') /\
     closer s' = CDone /\
     count is_close_objects (reading_run.1 ++ evs') = 1%nat /\
     count is_close_errs (reading_run.1 ++ evs') = 1%nat).
Proof.
  split.
  - destruct (@closed_once_after_all_jobs plain_world collect_pc collect_loop
                three_pages (Collecting []) [1] 3 (first_response (last_is "3"))
                racing racing_run.1 racing_run.2)
      as (_ & _ & _ & _ & _ & Hdone & _).
    + vm_compute. reflexivity.
    + lia.
    + exact racing_run_ok.
    + apply Hdone. reflexivity.
  - destruct (@closed_once_after_all_jobs plain_world unit reader
                second_page_down tt [1] 3 (first_response (last_is "3"))
                reading reading_run.1 reading_run.2)
      as (_ & _ & _ & _ & _ & _ & _ & Hgoes).
    + vm_compute. reflexivity.
    + lia.
    + exact reading_run_ok.
    + apply Hgoes; [exact reader_keeps_receiving|reflexivity].
Defined.

(** C3 as stated fails on [nil_in_first_page]: the run is past the first
    request, [collect] returns on the nil object of page 1 while both jobs
    hold an object, and however the run goes on neither channel is ever
    closed. *)
Lemma channels_never_closed_after_return :
  firstReq nil_in_first_page [] = ([1], FirstOk 2 (first_response (last_is "2"))) /\
  collect nil_in_first_page up_to_nil = Some nil_run /\
  cons nil_run.2 = Returned (Some [Some 1%nat]) None /\
  (forall sched evs s,
     collect nil_in_first_page (up_to_nil ++ sched) = Some (evs, s) ->
     count is_close_objects evs = 0%nat /\ count is_close_errs evs = 0%nat /\
     closer s = CWait /\ objects_closed s = false /\ errs_closed s = false).
Proof.
  split; [exact nil_in_first_page_first|]. split; [exact nil_run_ok|].
  split; [reflexivity|].
  intros sched evs s Hex.
  destruct (exec_app_inv collect_loop nil_in_first_page _ _ _ _ _ _ _
              nil_run_ok Hex) as (evs' & Hex' & ->).
  destruct (@collect_reachable plain_world nil_in_first_page up_to_nil
              nil_run.1 nil_run.2 [1] 2 (first_response (last_is "2")))
    as [Hinv Hp]; [exact nil_in_first_page_first|lia|exact nil_run_ok|].
  destruct (@returned_keeps_channels_open plain_world nil_in_first_page
              nil_run.2 (Some [Some 1%nat]) None 1%nat
              (@JSendObjs plain_world (Some 7%nat) []) sched evs' s)
    as (_ & _ & _ & Hk & Ho & He);
    [exact Hinv|exact Hp|reflexivity|reflexivity|discriminate|exact Hex'|].
  pose proof (exec_objects_closed collect_loop nil_in_first_page _ _ _ _ Hex) as Hco.
  pose proof (exec_errs_closed collect_loop nil_in_first_page _ _ _ _ Hex) as Hce.
  rewrite Ho in Hco. rewrite He in Hce.
  change (flag false) with 0%nat in Hco, Hce.
  change (objects_closed (channel nil_in_first_page (Collecting []))) with false in Hco.
  change (errs_closed (channel nil_in_first_page (Collecting []))) with false in Hce.
  change (flag false) with 0%nat in Hco, Hce.
  split; [lia|]. split; [lia|]. done.
Qed.

(** C4 as stated fails on [bad_next]: the link header of the first
    response holds no "last" relation, and [firstReq] fails with the
    error of the link it could not parse. *)
Lemma parse_error_comes_first :
  (FindAllStringSubmatch
     (Header_Get (resp_Header (first_response
        (link_value "http://canvas.test/api/v1/courses/1/files?page=two" "next")))
        "Link")).*2 = ["next"%string] /\
  firstReq bad_next [] = ([1], FirstErr (ErrPageNum ErrSyntax)) /\
  firstReq bad_next [] <> ([1], FirstErr ErrLastPage).
Proof.
  split; [vm_compute; reflexivity|].
  assert (Hf : firstReq bad_next [] = ([1], FirstErr (ErrPageNum ErrSyntax)))
    by (vm_compute; reflexivity).
  split; [exact Hf|]. rewrite Hf. discriminate.
Qed.

Lemma no_last_relation_no_fetch_witness :
  firstReq only_next [] = ([1], FirstErr ErrLastPage) /\
  jobs (channel only_next (Collecting [])) = [] /\
  closer (channel only_next (Collecting [])) = CNotLaunched /\
  (forall sched evs s,
     exec collect_loop only_next sched (channel only_next (Collecting [])) = Some (evs, s) ->
     calls s = [1] /\ jobs s = [] /\ closer s = CNotLaunched).
Proof.
  apply (@no_last_relation_no_fetch plain_world collect_pc collect_loop only_next
           (Collecting [])
           (first_response
              (link_value "http://canvas.test/api/v1/courses/1/files?page=2" "next"))).
  - vm_compute. reflexivity.
  - vm_compute. reflexivity.
  - replace ((FindAllStringSubmatch _).*2) with ["next"%string]
      by (vm_compute; reflexivity).
    intros Hin. apply elem_of_cons in Hin as [Heq|Hin]; [discriminate|].
    by apply elem_of_nil in Hin.
Defined.

(** C5 on [down]: [collect] and [onlyFiles] block for ever in
    [p.channel()]. *)
Lemma first_request_failure_blocks_witness :
  caller (channel down (Collecting [])) = InChannelSendErr (ErrExternal "connection refused") /\
  calls (channel down (Collecting [])) = [1] /\
  jobs (channel down (Collecting [])) = [] /\
  objects_closed (channel down (Collecting [])) = false /\
  errs_closed (channel down (Collecting [])) = false /\
  (forall a, step collect_loop down a (channel down (Collecting [])) = None) /\
  (forall sched evs s,
     exec collect_loop down sched (channel down (Collecting [])) = Some (evs, s) ->
     sched = [] /\ evs = [] /\ s = channel down (Collecting [])).
Proof.
  apply (@first_request_failure_blocks plain_world collect_pc collect_loop down
           (Collecting []) (ErrExternal "connection refused")).
  vm_compute. reflexivity.
Defined.

Example collect_never_returns_when_down sched evs s :
  collect down sched = Some (evs, s) -> cons s = Collecting [].
Proof.
  intros Hex. unfold collect in Hex.
  apply exec_blocked in Hex as (_ & _ & ->); [reflexivity|].
  intros a. by apply (blocked_in_channel _ _ _ (ErrExternal "connection refused")).
Qed.









(** The race that the claim allows: the handler has sent on [quit], and
    the select still takes an object and forwards it before it takes the
    quit signal. *)
Example forward_before_quit_is_received :
  exists evs s,
    onlyFiles second_page_down (fun _ => Cancel)
      [AStart 0; AStart 1; ASendErr 1; ALocal; ASendObj 0; ALocal; ALocal; ALocal]%nat
    = Some (evs, s) /\
    evs = [EvStart 0; EvStart 1; EvErr 1 (ErrExternal "2");
           EvLocal (LHandle (ErrExternal "2")); EvObj 0 (Some 11%nat);
           EvLocal (LForward 11%nat); EvLocal LQuit; EvLocal LCloseResults] /\
    cons s = AdClosed.
Proof. do 2 eexists. split; [vm_compute; reflexivity|]. split; reflexivity. Qed.

Lemma nil_taken_run_ok :
  onlyFiles nil_in_first_page (fun _ => Continue) up_to_nil_taken = Some nil_taken_run.
Proof. vm_compute. reflexivity. Qed.

(** On [nil_in_first_page]: [collect] returns the one object that came
    before the nil; the run of [onlyFiles] up to the nil goes on with the
    close of the typed channel; and the run of [onlyFolders] that has gone
    on has closed it, once. *)
Lemma nil_object_is_taken_for_close_witness :
  cons nil_run.2 = Returned (Some [Some 1%nat]) None /\
  (cons nil_taken_run.2 = AdReturn /\
   onlyFiles nil_in_first_page (fun _ => Continue) (up_to_nil_taken ++ [ALocal])
   = Some (nil_taken_run.1 ++ [EvLocal LCloseResults],
           set_cons AdClosed nil_taken_run.2)) /\
  (forwarded [EvLocal LCloseResults] = [] /\
   cons nil_forwarding_run.2 = AdClosed /\
   count is_close_results [EvLocal LCloseResults] = 1%nat).
Proof.
  destruct (@nil_object_is_taken_for_close plain_world nil_in_first_page)
    as (Hc & Hfiles & Hfolders).
  split; [|split].
  - apply (Hc up_to_nil nil_run.1 nil_run.2 (take 3 nil_run.1) (EvObj 0 None) []).
    + exact nil_run_ok.
    + reflexivity.
    + right. by exists 0%nat.
  - destruct (Hfiles (fun _ => Continue) up_to_nil_taken nil_taken_run.1
                nil_taken_run.2 (take 4 nil_taken_run.1) (EvObj 0 None) [])
      as (_ & _ & _ & _ & _ & Hclose).
    + exact nil_taken_run_ok.
    + reflexivity.
    + right. by exists 0%nat.
    + split; [reflexivity|]. apply Hclose; reflexivity.
  - destruct (Hfolders defaultErrorHandler up_to_nil_forwarding nil_forwarding_run.1
                nil_forwarding_run.2 (take 4 nil_forwarding_run.1) (EvObj 0 None)
                [EvLocal LCloseResults])
      as (Hf & _ & _ & _ & Hclosed & _).
    + exact nil_forwarding_run_ok.
    + reflexivity.
    + right. by exists 0%nat.
    + split; [exact Hf|]. split; [reflexivity|]. apply Hclosed. reflexivity.
Defined.

(** When [collect] returns on the nil object both jobs still hold an
    object. *)
Example nil_object_leaves_jobs_pending :
  pending_objects nil_in_first_page nil_run.2 0 = [Some 2%nat] /\
  pending_objects nil_in_first_page nil_run.2 1 = [Some 7%nat].
Proof. split; reflexivity. Qed.

(** Why the properties of the engine are stated for a last page
    [n >= 1]: with a last page 0 the closing goroutine does not wait for
    the job of page 1, which then sends on a closed channel. *)
Example page_count_zero_panics :
  exists evs s,
    collect zero_pages [ACloser; ACloser; AStart 0; ASendObj 0]%nat = Some (evs, s) /\
    evs = [EvWait; EvCloseObjects; EvStart 0; EvPanic] /\ panicked s = true.
Proof. do 2 eexists. split; [vm_compute; reflexivity|]. split; reflexivity. Qed.

(** After [collect] has returned on an error nothing receives any more:
    a job that still holds objects stays in its send, and the closing
    goroutine in [wg.Wait()]. *)
Example producers_block_after_collect_returned :
  exists evs s,
    collect second_page_down [AStart 1; AStart 0; ASendErr 1]%nat = Some (evs, s) /\
    cons s = Returned None (Some (ErrExternal "2")) /\
    jobs s !! 0%nat = Some (JSendObjs (Some 11%nat) [Some 12%nat]) /\
    step collect_loop second_page_down (ASendObj 0) s = None /\
    step collect_loop second_page_down ACloser s = None.
Proof. do 2 eexists. split; [vm_compute; reflexivity|]. repeat split; reflexivity. Qed.

(** Before the quit signal is received the select may take a second
    error; a handler that sends on [quit] then finds the channel full and
    the adapter stays inside the handler. *)
Example second_error_blocks_sending_handler :
  exists evs s,
    onlyFiles
      (newPaginatedList (flaky (last_is "3") ["2"; "3"]%string) "courses/1/files"
                        two_per_page [])
      (fun _ => Cancel)
      [AStart 1; AStart 2; ASendErr 1; ALocal; ASendErr 2]%nat
    = Some (evs, s) /\
    cons s = AdHandle (ErrExternal "3") 1 /\
    step (adapter_loop (fun _ => Cancel))
         (newPaginatedList (flaky (last_is "3") ["2"; "3"]%string) "courses/1/files"
                           two_per_page [])
         ALocal s = None.
Proof. do 2 eexists. split; [vm_compute; reflexivity|]. split; reflexivity. Qed.

(** ** More of the code at work *)

Lemma ParseInt_FormatInt_witness : ParseInt (FormatInt (-17)) = inr (-17).
Proof. apply ParseInt_FormatInt. lia. Defined.

(** Above an int32 the round trip ends in a range error. *)
Example ParseInt_above_int32 :
  ParseInt (FormatInt (2 ^ 31)) = inl ErrRange /\
  ParseInt (FormatInt (2 ^ 31 - 1)) = inr (2 ^ 31 - 1) /\
  ParseInt (FormatInt (- 2 ^ 31)) = inr (- 2 ^ 31) /\
  ParseInt "+7" = inr 7 /\ ParseInt "-" = inl ErrSyntax.
Proof. repeat split; vm_compute; reflexivity. Qed.

Lemma written_links_are_read_back_witness :
  FindAllStringSubmatch (format_links two_links) = two_links.
Proof.
  apply written_links_are_read_back.
  repeat constructor; vm_compute; reflexivity.
Defined.

Lemma matches_stand_in_the_header_witness :
  has_char newline "http://canvas.test/files?per_page=10" = false /\
  has_char newline "prev" = false /\
  has_char dquote "prev" = false /\
  exists before after,
    Header_Get mixed_header "Link"
    = before +:+ link_value "http://canvas.test/files?per_page=10" "prev" +:+ after.
Proof.
  apply matches_stand_in_the_header.
  rewrite mixed_matches. apply elem_of_app. right. apply list_elem_of_here.
Defined.

Lemma no_angle_bracket_no_links_witness :
  newLinkedResource no_link_header = ({| links := ∅ |}, None).
Proof. apply (@no_angle_bracket_no_links plain_world). reflexivity. Defined.

Lemma last_link_of_a_relation_wins_witness :
  exists l, newlink "http://canvas.test/files?page=3" = Ok l /\
            links (newLinkedResource twice_next).1 !! "next"%string = Some (Some l).
Proof.
  destruct (@last_link_of_a_relation_wins plain_world twice_next
              (newLinkedResource twice_next).1) as (Hlast & _).
  - vm_compute. reflexivity.
  - apply (Hlast [("http://canvas.test/files?page=2", "next")]%string
                 "http://canvas.test/files?page=3"%string "next"%string []).
    + vm_compute. reflexivity.
    + simpl. apply not_elem_of_nil.
Defined.

Lemma each_page_is_requested_once_witness :
  exists later,
    calls racing_run.2 = 1 :: later /\
    later ++ all_unfetched (jobs racing_run.2) ≡ₚ later_pages 3 /\
    NoDup (calls racing_run.2) /\
    (forall page, page ∈ calls racing_run.2 -> 1 <= page <= 3) /\
    (closer racing_run.2 <> CWait -> calls racing_run.2 ≡ₚ seqZ 1 3).
Proof.
  apply (@each_page_is_requested_once plain_world collect_pc collect_loop three_pages
           (Collecting []) [1] 3 (first_response (last_is "3")) racing racing_run.1).
  - exact three_pages_first.
  - lia.
  - exact racing_run_ok.
Defined.

Lemma zero_pages_first :
  firstReq zero_pages [] = ([1], FirstOk 0 (first_response (last_is "0"))).
Proof. vm_compute. reflexivity. Qed.

Lemma page_count_below_one_panics_witness :
  (exists sched evs s,
     exec collect_loop zero_pages sched (channel zero_pages (Collecting []))
     = Some (evs, s) /\ panicked s = true) /\
  (forall sched evs s i,
     exec collect_loop zero_pages sched (channel zero_pages (Collecting []))
     = Some (evs, s) ->
     has_finished s i = false /\ count (is_done i) evs = 0%nat).
Proof.
  apply (@page_count_below_one_panics plain_world collect_pc collect_loop zero_pages
           (Collecting []) [1] 0 (first_response (last_is "0"))).
  - exact zero_pages_first.
  - lia.
Defined.

Lemma adapter_forwards_in_order_witness :
  (exists nils,
     objects_of cancelling_run.1
     = (Some <$> (forwarded cancelling_run.1 ++ holding (cons cancelling_run.2))) ++ nils /\
     (nils = [] \/ nils = [None] /\ is_stopped (cons cancelling_run.2) = true)) /\
  (exists rest,
     errors_of cancelling_run.1 = handled cancelling_run.1 ++ rest /\
     (length rest <= 1)%nat /\
     (panicked cancelling_run.2 = false -> rest = handling (cons cancelling_run.2))).
Proof.
  apply (@adapter_forwards_in_order plain_world second_page_down (fun _ => Cancel)
           cancelling).
  left. exact cancelling_run_ok.
Defined.

Lemma carrying_on_run_ok :
  onlyFiles second_page_down (fun _ => Continue) carrying_on = Some carrying_on_run.
Proof. vm_compute. reflexivity. Qed.

Lemma second_page_down_decode i l :
  page_outcome second_page_down (first_response (last_is "3")) i = Ok l ->
  Forall is_Some l.
Proof.
  unfold page_outcome. destruct i as [|i].
  - intros [= <-]. repeat constructor; eauto.
  - destruct (get _ _ _) as [resp|e]; [|done].
    intros [= <-]. repeat constructor; eauto.
Qed.

Lemma continuing_adapter_delivers_all_witness :
  Some <$> forwarded carrying_on_run.1
  ≡ₚ decoded_objects second_page_down (first_response (last_is "3")) (Z.to_nat 3) /\
  handled carrying_on_run.1
  ≡ₚ concat ((fun i => err_list (page_outcome second_page_down
                                   (first_response (last_is "3")) i))
               <$> seq 0 (Z.to_nat 3)).
Proof.
  destruct (@continuing_adapter_delivers_all plain_world second_page_down
              (fun _ => Continue) (fun _ => eq_refl) carrying_on carrying_on_run.1
              carrying_on_run.2 [1] 3 (first_response (last_is "3")))
    as (_ & Hclosed & _).
  - exact second_page_down_first.
  - lia.
  - exact second_page_down_decode.
  - left. exact carrying_on_run_ok.
  - apply Hclosed. reflexivity.
Defined.

(** The objects of the pages 1 and 3, and the error of page 2. *)
Example carrying_on_delivers :
  forwarded carrying_on_run.1 = [11; 12; 31; 32]%nat /\
  handled carrying_on_run.1 = [ErrExternal "2"] /\
  cons carrying_on_run.2 = AdClosed.
Proof. repeat split; reflexivity. Qed.

Lemma up_to_error_run_ok :
  onlyFiles second_page_down defaultErrorHandler up_to_error = Some up_to_error_run.
Proof. vm_compute. reflexivity. Qed.

Lemma panicking_run_ok :
  onlyFolders second_page_down defaultErrorHandler (up_to_error ++ [ALocal; ALocal])
  = Some panicking_run.
Proof. vm_compute. reflexivity. Qed.

(** On [second_page_down] under the default handler: the run of
    [onlyFiles] up to the error of page 2 goes on with the close of the
    typed channel and the end of the program, and the run of [onlyFolders]
    that has gone on has closed the typed channel once and has ended. *)
Lemma default_handler_ends_the_program_witness :
  (cons up_to_error_run.2 = AdHandle (ErrExternal "2") 0 /\
   exec (adapter_loop defaultErrorHandler) second_page_down [ALocal; ALocal]
        up_to_error_run.2
   = Some ([EvLocal LCloseResults; EvPanic],
           panic (set_cons AdPanicked up_to_error_run.2))) /\
  (cons panicking_run.2 = AdPanicked /\ panicked panicking_run.2 = true /\
   count is_close_results (drop 5 panicking_run.1) = 1%nat /\
   count is_close_results (take 4 panicking_run.1) = 0%nat).
Proof.
  split.
  - destruct (@default_handler_ends_the_program plain_world second_page_down up_to_error
                up_to_error_run.1 up_to_error_run.2 (take 4 up_to_error_run.1) 1%nat
                (ErrExternal "2") [])
      as (_ & _ & _ & _ & _ & _ & Hpanic & _).
    + left. exact up_to_error_run_ok.
    + reflexivity.
    + split; [reflexivity|]. apply Hpanic; reflexivity.
  - destruct (@default_handler_ends_the_program plain_world second_page_down
                (up_to_error ++ [ALocal; ALocal])
                panicking_run.1 panicking_run.2 (take 4 panicking_run.1) 1%nat
                (ErrExternal "2") (drop 5 panicking_run.1))
      as (_ & _ & _ & _ & Hpre & Hpost & _).
    + right. exact panicking_run_ok.
    + reflexivity.
    + destruct Hpost as [[Hc _]|[[Hc _]|(Hc & Hp & Hn)]]; [discriminate Hc..|].
      split; [exact Hc|]. split; [exact Hp|]. split; [exact Hn|exact Hpre].
Defined.

(** The end of the program under the default handler: the typed channel
    is closed before the panic ends the run. *)
Example default_handler_closes_before_the_end :
  panicking_run.1
  = [EvStart 0; EvStart 1; EvObj 0 (Some 11%nat); EvLocal (LForward 11%nat);
     EvErr 1 (ErrExternal "2"); EvLocal LCloseResults; EvPanic] /\
  forall a, step (adapter_loop defaultErrorHandler) second_page_down a panicking_run.2
            = None.
Proof. split; [reflexivity|]. intros a. by apply panicked_blocked. Qed.

Lemma ListFiles_assertions_hold_witness :
  exists evs s,
    collect (pagination course_one (filespath course_one) two_per_page []) racing
    = Some (evs, s) /\
    ((exists e, listed = ListFilesReturn None (Some e) /\ errors_of evs = [e]) \/
     (exists files, listed = ListFilesReturn (Some files) None /\ errors_of evs = [] /\
        (objects_of evs = Some <$> files \/
         objects_of evs = (Some <$> files) ++ [None]))).
Proof.
  apply (@ListFiles_assertions_hold plain_world (fun _ => two_per_page) course_one []
           racing listed).
  vm_compute. reflexivity.
Defined.

Example course_one_files :
  filespath course_one = "courses/1/files"%string /\
  listed = ListFilesReturn (Some [31; 11; 21; 22; 12; 32]%nat) None.
Proof. split; vm_compute; reflexivity. Qed.

Lemma in_page_order_run_ok :
  collect three_pages in_page_order = Some in_page_order_run.
Proof. vm_compute. reflexivity. Qed.

Lemma collect_is_schedule_independent_witness :
  exists coll1 coll2,
    cons racing_run.2 = Returned (Some coll1) None /\
    cons in_page_order_run.2 = Returned (Some coll2) None /\
    coll1 ≡ₚ coll2 /\ length coll1 = length coll2.
Proof.
  destruct (@collect_is_schedule_independent plain_world three_pages
              racing in_page_order racing_run.1 in_page_order_run.1
              racing_run.2 in_page_order_run.2 [1] 3 (first_response (last_is "3"))
              (Some (Some <$> [31; 11; 21; 22; 12; 32]%nat)) None
              (Some (Some <$> [11; 12; 21; 22; 31; 32]%nat)) None)
    as (_ & _ & coll1 & coll2 & H1 & H2 & Hperm & Hlen).
  - exact three_pages_first.
  - lia.
  - exact three_pages_decode.
  - exact racing_run_ok.
  - reflexivity.
  - exact in_page_order_run_ok.
  - reflexivity.
  - exists coll1, coll2. injection H1 as <-. injection H2 as <-.
    split; [reflexivity|]. split; [reflexivity|]. split; [exact Hperm|exact Hlen].
Defined.

(** [filepath.Split] on the examples of its documentation, and on the
    directory part of a path. *)
Example Split_at_work :
  Split "static/myfile.css" = ("static/", "myfile.css")%string /\
  Split "myfile.css" = (EmptyString, "myfile.css"%string) /\
  Split EmptyString = (EmptyString, EmptyString) /\
  Split "docs/2024/notes" = ("docs/2024/", "notes")%string /\
  Split "docs/2024/" = ("docs/2024/"%string, EmptyString).
Proof. repeat split; vm_compute; reflexivity. Qed.

(** The folder name never reaches the server: the request for
    [docs/2024/notes] names the parent [docs/2024/] and an empty name. *)
Example CreateFolder_at_work :
  Folder_CreateFolder orphan "docs/2024/notes" []
  = (let q := [("parent_folder_path"%string, ["docs/2024/"%string]);
               ("name"%string, [EmptyString])] in
     match stub EmptyString "/folders/%d/folders" q with
     | Err e => (None, Some e)
     | Ok resp => (Some (new_Folder (stub EmptyString)), None)
     end).
Proof. vm_compute. reflexivity. Qed.

(** The lookup of the parent of [orphan] fails; asked again, it gives the
    empty folder of the failed lookup and no error. *)
Example ParentFolder_at_work :
  (Folder_ParentFolder orphan).1.2 = (new_Folder (stub EmptyString),
                                      Some (ErrExternal "not found")) /\
  (Folder_ParentFolder (Folder_ParentFolder orphan).1.1).1.2
  = (new_Folder (stub EmptyString), None) /\
  (Folder_ParentFolder (Folder_ParentFolder orphan).1.1).2 = [].
Proof. repeat split; reflexivity. Qed.

Lemma left_behind_run_ok :
  exec collect_loop second_page_down [AStart 2]%nat returning_early_run.2
  = Some left_behind_run.
Proof. vm_compute. reflexivity. Qed.

Lemma early_return_leaves_jobs_blocked_witness :
  jobs left_behind_run.2 !! 0%nat = Some (JSendObjs (Some 11%nat) [Some 12%nat]) /\
  objects_of left_behind_run.1 = [] /\ errors_of left_behind_run.1 = [] /\
  closer left_behind_run.2 = CWait /\
  objects_closed left_behind_run.2 = false /\ errs_closed left_behind_run.2 = false /\
  panicked left_behind_run.2 = false.
Proof.
  apply (@early_return_leaves_jobs_blocked plain_world second_page_down returning_early
           returning_early_run.1 returning_early_run.2 [1] 3
           (first_response (last_is "3")) None (Some (ErrExternal "2")) 0%nat
           (@JSendObjs plain_world (Some 11%nat) [Some 12%nat]) [AStart 2]%nat).
  - exact second_page_down_first.
  - lia.
  - exact returning_early_run_ok.
  - reflexivity.
  - reflexivity.
  - right. by eexists _, _.
  - exact left_behind_run_ok.
Defined.

(** A server that gives a negative last page stops the client in
    [wg.Add]: the link parser takes the number as it is. *)
Example negative_last_page_panics :
  firstReq (newPaginatedList (stub (last_is "-1")) "courses/1/files" two_per_page []) []
  = ([1], FirstOk (-1) (first_response (last_is "-1"))) /\
  panicked (channel (newPaginatedList (stub (last_is "-1")) "courses/1/files"
                                      two_per_page [])
                    (Collecting [])) = true.
Proof. split; vm_compute; reflexivity. Qed.

Lemma engine_never_panics_on_its_own_witness :
  (quiet collect_loop -> panicked racing_run.2 = false) /\
  (forall a ev s', step collect_loop three_pages a racing_run.2 = Some (ev, s') ->
                   panicked s' = true -> a = ALocal) /\
  0 <= wg racing_run.2 <= 3.
Proof.
  apply (@engine_never_panics_on_its_own plain_world collect_pc collect_loop three_pages
           (Collecting []) [1] 3 (first_response (last_is "3")) racing racing_run.1).
  - exact three_pages_first.
  - lia.
  - exact racing_run_ok.
Defined.

(** On [second_page_down]: the run [cancelling] of [onlyFiles], which
    ends by a return, and the run of [onlyFolders] under the default
    handler, which ends by a panic, have each closed the typed channel
    once. *)
Lemma adapter_closes_once_witness :
  (count is_close_results cancelling_run.1 = 1%nat /\
   cons cancelling_run.2 = AdClosed) /\
  (count is_close_results panicking_run.1 = 1%nat /\
   cons panicking_run.2 = AdPanicked /\ panicked panicking_run.2 = true).
Proof.
  split.
  - destruct (@adapter_closes_once plain_world second_page_down (fun _ => Cancel)
                cancelling cancelling_run.1 cancelling_run.2) as (Hn & _).
    + left. exact cancelling_run_ok.
    + split; [exact Hn|reflexivity].
  - destruct (@adapter_closes_once plain_world second_page_down defaultErrorHandler
                (up_to_error ++ [ALocal; ALocal]) panicking_run.1 panicking_run.2)
      as (Hn & _ & Hp & _).
    + right. exact panicking_run_ok.
    + split; [exact Hn|]. split; [reflexivity|]. apply Hp. reflexivity.
Defined.
